(** * gorepost/irc: the connection core (irc.go) and its wire codec

    A shallow embedding of [src/irc/irc.go].  The four roles of a
    [Connection] (Keeper, Cleaner, Sender, Receiver) are goroutines that
    share the struct [*c]; they are embedded as threads of a small-step
    machine whose program points are the source lines at which a role
    can block, call the environment, or touch shared state.  Channels
    live in a store and the struct holds references into it, so that
    the aliasing between generations is the one of the Go program.

    [log.Println] calls are not modelled: they write to the process log
    and influence nothing else. *)

From Stdlib Require Import Ascii String.
From stdpp Require Import base list gmap strings.

(** ** Constants of irc.go *)

(** [const delim byte = '\n'] *)
Definition delim : ascii := "010"%char.

(** [const endline string = "\r\n"] *)
Definition endline : string := String "013" (String "010" EmptyString).

(** ** Messages *)

Module Prefix.
(** [irc.Prefix], as the composite literals and selectors of
    bot/plugins_test.go use it ([Name]; [User] and [Host] from the
    wire grammar [name!user@host]). *)
Record t := mk { Name : string; User : string; Host : string }.
End Prefix.

(** Modelled from the spec: the declaration of [irc.Message] (file
    irc/message.go) is not under src/.  The fields are those of the
    composite literals in irc.go and bot/plugins_test.go
    ([Prefix], [Command], [Params], [Trailing], [Context]); following the
    data model of the specification, [Trailing] distinguishes an absent
    trailing parameter from an empty one, and a literal that sets
    [Trailing: x] carries the trailing parameter [x]. *)
Record Message := mkMessage {
  Prefix : option Prefix.t;
  Command : string;
  Params : list string;
  Trailing : option string;
  Context : gmap string string
}.

(** The zero value [Message{}], received from a closed channel. *)
Definition zero_Message : Message :=
  {| Prefix := None; Command := EmptyString; Params := []; Trailing := None; Context := ∅ |}.

(** ** Wire codec *)

Module Codec.

Definition space : ascii := " "%char.
Definition colon : ascii := ":"%char.
Definition bang : ascii := "!"%char.
Definition at_sign : ascii := "@"%char.
Definition cr : ascii := "013"%char.

Definition is_letter (c : ascii) : bool :=
  let n := nat_of_ascii c in
  ((65 <=? n) && (n <=? 90)) || ((97 <=? n) && (n <=? 122)).

Definition is_digit (c : ascii) : bool :=
  let n := nat_of_ascii c in (48 <=? n) && (n <=? 57).

Fixpoint all_chars (p : ascii -> bool) (s : string) : bool :=
  match s with
  | EmptyString => true
  | String c s' => p c && all_chars p s'
  end.

(** [command]: letters (at least one), or exactly three digits. *)
Definition valid_command (s : string) : bool :=
  match s with
  | EmptyString => false
  | _ => all_chars is_letter s
         || ((String.length s =? 3) && all_chars is_digit s)
  end.

(** Remove one final [c], if the string ends with it. *)
Fixpoint chomp (c : ascii) (s : string) : string :=
  match s with
  | EmptyString => EmptyString
  | String a EmptyString => if Ascii.eqb a c then EmptyString else s
  | String a s' => String a (chomp c s')
  end.

(** The line delimiter, then a carriage return before it, are
    stripped before parsing. *)
Definition trim_line (raw : string) : string := chomp cr (chomp delim raw).

(** Cut at the first [c]: the text before it and, when [c] occurs,
    the text after it. *)
Fixpoint cut (c : ascii) (s : string) : string * option string :=
  match s with
  | EmptyString => (EmptyString, None)
  | String a s' =>
      if Ascii.eqb a c then (EmptyString, Some s')
      else let '(l, r) := cut c s' in (String a l, r)
  end.

(** Cut at the first [! ] or [@]; the delimiter is returned. *)
Fixpoint cut_name (s : string) : string * option (ascii * string) :=
  match s with
  | EmptyString => (EmptyString, None)
  | String a s' =>
      if Ascii.eqb a bang || Ascii.eqb a at_sign then (EmptyString, Some (a, s'))
      else let '(l, r) := cut_name s' in (String a l, r)
  end.

(** [origin = name ['!' user] ['@' host]], or a bare server name. *)
Definition ParsePrefix (o : string) : Prefix.t :=
  match cut_name o with
  | (name, None) => Prefix.mk name EmptyString EmptyString
  | (name, Some (d, rest)) =>
      if Ascii.eqb d bang then
        match cut at_sign rest with
        | (user, Some host) => Prefix.mk name user host
        | (user, None) => Prefix.mk name user EmptyString
        end
      else Prefix.mk name EmptyString rest
  end.

Definition PrefixString (p : Prefix.t) : string :=
  Prefix.Name p
  +:+ (match Prefix.User p with EmptyString => EmptyString | u => String bang u end)
  +:+ (match Prefix.Host p with EmptyString => EmptyString | h => String at_sign h end).

(** The text before the first [" :"] and, when it occurs, the text
    after it, verbatim. *)
Fixpoint split_trailing (s : string) : string * option string :=
  match s with
  | EmptyString => (EmptyString, None)
  | String a s' =>
      match s' with
      | String b t =>
          if Ascii.eqb a space && Ascii.eqb b colon then (EmptyString, Some t)
          else let '(m, r) := split_trailing s' in (String a m, r)
      | EmptyString => (String a EmptyString, None)
      end
  end.

(** Split on every space. *)
Fixpoint tokens (s : string) : list string :=
  match s with
  | EmptyString => [EmptyString]
  | String a s' =>
      if Ascii.eqb a space then EmptyString :: tokens s'
      else match tokens s' with
           | t :: ts => String a t :: ts
           | [] => [String a EmptyString]
           end
  end.

Definition nonempty (s : string) : bool :=
  match s with EmptyString => false | _ => true end.

(** The space-separated tokens of the middle part. *)
Definition fields (s : string) : list string := List.filter nonempty (tokens s).

(** Modelled from the spec: [irc.ParseMessage] (file irc/message.go) is
    not under src/.  Grammar of a line, once its terminator is
    stripped: [[':' origin SPACE] command (SPACE param)* [SPACE ':' trailing]].
    [None] is the error [MalformedMessage]: the command cannot be
    extracted. *)
Definition ParseMessage (raw : string) : option Message :=
  let line := trim_line raw in
  let origin_rest :=
    match line with
    | String a body =>
        if Ascii.eqb a colon then
          match cut space body with
          | (o, Some rest) => Some (Some (ParsePrefix o), rest)
          | (_, None) => None
          end
        else Some (None, line)
    | EmptyString => Some (None, line)
    end in
  match origin_rest with
  | None => None
  | Some (origin, rest) =>
      let '(middle, trailing) := split_trailing rest in
      match fields middle with
      | cmd :: params =>
          if valid_command cmd then
            Some {| Prefix := origin; Command := cmd; Params := params;
                    Trailing := trailing; Context := ∅ |}
          else None
      | [] => None
      end
  end.

Fixpoint join_params (ps : list string) : string :=
  match ps with
  | [] => EmptyString
  | p :: ps' => String space p +:+ join_params ps'
  end.

(** Modelled from the spec: [Message.String] (file irc/message.go) is
    not under src/.  The inverse construction: the origin segment is
    omitted when absent, the trailing parameter is written after
    [" :"] when present; [Context] is not part of the wire encoding. *)
Definition MessageString (m : Message) : string :=
  (match Prefix m with
   | Some p => String colon (PrefixString p) +:+ String space EmptyString
   | None => EmptyString
   end)
  +:+ Command m
  +:+ join_params (Params m)
  +:+ (match Trailing m with
       | Some t => String space (String colon t)
       | None => EmptyString
       end).

(** What the Sender writes (irc.go line 37): [msg.String() + endline]. *)
Definition serialize (m : Message) : string := MessageString m +:+ endline.


(** *** Well-formed messages

    The constraints of the data model: no space inside the origin,
    a name without [!] and [@], a user without [@]; a valid command;
    parameters that are non-empty, contain no space and do not start
    with a colon. *)

Definition lacks (c : ascii) (s : string) : bool :=
  all_chars (fun a => negb (Ascii.eqb a c)) s.

Definition starts_with (c : ascii) (s : string) : bool :=
  match s with String a _ => Ascii.eqb a c | EmptyString => false end.

Fixpoint no_space_colon (s : string) : bool :=
  match s with
  | EmptyString => true
  | String a s' =>
      match s' with
      | String b _ => negb (Ascii.eqb a space && Ascii.eqb b colon) && no_space_colon s'
      | EmptyString => true
      end
  end.

Definition token (p : string) : bool :=
  nonempty p && lacks space p && negb (starts_with colon p).

Definition wf_prefix (p : Prefix.t) : bool :=
  lacks space (Prefix.Name p) && lacks bang (Prefix.Name p) && lacks at_sign (Prefix.Name p)
  && lacks space (Prefix.User p) && lacks at_sign (Prefix.User p)
  && lacks space (Prefix.Host p).

Definition wf_message (m : Message) : bool :=
  match Prefix m with Some p => wf_prefix p | None => true end
  && valid_command (Command m)
  && forallb token (Params m).

Definition contains (c : ascii) (s : string) : bool := negb (lacks c s).

Definition trailing_text (t : option string) : string :=
  match t with
  | Some t => String space (String colon t)
  | None => EmptyString
  end.

(** The wire content of a message: [Context] is not encoded. *)
Definition wire (m : Message) : Message :=
  {| Prefix := Prefix m; Command := Command m; Params := Params m;
     Trailing := Trailing m; Context := ∅ |}.

End Codec.


(** ** Channels

    A Go channel [make(chan T, n)]: capacity, buffered values (oldest
    first) and the closed flag.  [ch_hist] is a ghost field: every value
    ever sent on the channel, in order; no operation reads it. *)

Record Chan (A : Type) := mkChan {
  ch_cap : nat;
  ch_buf : list A;
  ch_closed : bool;
  ch_hist : list A
}.
Arguments mkChan {A} _ _ _ _.
Arguments ch_cap {A} _.
Arguments ch_buf {A} _.
Arguments ch_closed {A} _.
Arguments ch_hist {A} _.

(** Outcome of an operation that may block or panic. *)
Inductive Res (A : Type) :=
| Ok (a : A)
| Block
| Panic.
Arguments Ok {A} _.
Arguments Block {A}.
Arguments Panic {A}.

Section chan_ops.
Context {A : Type}.

(** A channel value is a reference into the store; [None] is the nil
    channel. *)
Definition chan_get (r : option nat) (σ : list (Chan A)) : option (Chan A) :=
  match r with
  | Some i => σ !! i
  | None => None
  end.

(** [make(chan A, n)]: the new channel and the store that holds it. *)
Definition chan_make (n : nat) (σ : list (Chan A)) : option nat * list (Chan A) :=
  (Some (length σ), σ ++ [mkChan n [] false []]).

(** [ch <- v]: blocks on a nil channel and on a full buffer, panics on
    a closed channel. *)
Definition chan_send (r : option nat) (v : A) (σ : list (Chan A)) : Res (list (Chan A)) :=
  match r with
  | None => Block
  | Some i =>
      match σ !! i with
      | None => Block
      | Some ch =>
          if ch_closed ch then Panic
          else if length (ch_buf ch) <? ch_cap ch then
            Ok (<[i := mkChan (ch_cap ch) (ch_buf ch ++ [v]) false (ch_hist ch ++ [v])]> σ)
          else Block
      end
  end.

(** [<-ch]: the oldest buffered value; the zero value at once when the
    channel is closed and drained; blocks otherwise, and on nil. *)
Definition chan_recv (zero : A) (r : option nat) (σ : list (Chan A)) : Res (A * list (Chan A)) :=
  match r with
  | None => Block
  | Some i =>
      match σ !! i with
      | None => Block
      | Some ch =>
          match ch_buf ch with
          | v :: rest =>
              Ok (v, <[i := mkChan (ch_cap ch) rest (ch_closed ch) (ch_hist ch)]> σ)
          | [] => if ch_closed ch then Ok (zero, σ) else Block
          end
      end
  end.

(** [close(ch)]: panics on nil and on a closed channel. *)
Definition chan_close (r : option nat) (σ : list (Chan A)) : Res (list (Chan A)) :=
  match r with
  | None => Panic
  | Some i =>
      match σ !! i with
      | None => Panic
      | Some ch =>
          if ch_closed ch then Panic
          else Ok (<[i := mkChan (ch_cap ch) (ch_buf ch) true (ch_hist ch)]> σ)
      end
  end.

(** Whether a [select] case is ready: a send case (a closed channel is
    ready and panics when chosen), a receive case. *)
Definition send_ready (r : option nat) (σ : list (Chan A)) : bool :=
  match chan_get r σ with
  | Some ch => ch_closed ch || (length (ch_buf ch) <? ch_cap ch)
  | None => false
  end.

Definition recv_ready (r : option nat) (σ : list (Chan A)) : bool :=
  match chan_get r σ with
  | Some ch => ch_closed ch || negb (length (ch_buf ch) =? 0)
  | None => false
  end.
End chan_ops.

(** ** The environment: network and buffered I/O *)

(** A socket returned by [net.Dial]. *)
Definition net_Conn := nat.

(** [bufio.NewReader(conn)] and [bufio.NewWriter(conn)]. *)
Record bufio_Reader := NewReader { rd_conn : net_Conn }.
Record bufio_Writer := NewWriter { wr_conn : net_Conn }.

(** A Go [error] value. *)
Record error := mkError { Error : string }.

(** What the environment answers during one step: the value drawn by
    [rand.Intn], the result of [net.Dial], of [ReadString], of
    [WriteString] and [Flush], and the case a [select] picks when two
    are ready. *)
Record Ext := mkExt {
  x_rand : nat;
  x_dial : net_Conn + error;
  x_read : string + error;
  x_write : option error;
  x_pick : bool
}.

(** ** The Connection struct *)

Record Connection := mkConnection {
  Network : string;
  Nick : string;
  User : string;
  RealName : string;
  Input : option nat;
  Output : option nat;
  reader : option bufio_Reader;
  writer : option bufio_Writer;
  conn : option net_Conn;
  reconnect : option nat;
  Quit : option nat;
  quitsend : option nat;
  quitrecv : option nat;
  l : bool
}.

(** The zero value of the struct: nil channels, nil reader, writer and
    socket, an unlocked mutex. *)
Definition zero_Connection : Connection :=
  {| Network := EmptyString; Nick := EmptyString; User := EmptyString; RealName := EmptyString;
     Input := None; Output := None; reader := None; writer := None;
     conn := None; reconnect := None; Quit := None; quitsend := None;
     quitrecv := None; l := false |}.

(** Field assignments [c.f = v]. *)
Definition set_Network (v : string) (c : Connection) : Connection :=
  {| Network := v; Nick := Nick c; User := User c; RealName := RealName c; Input := Input c; Output := Output c; reader := reader c; writer := writer c; conn := conn c; reconnect := reconnect c; Quit := Quit c; quitsend := quitsend c; quitrecv := quitrecv c; l := l c |}.

Definition set_Nick (v : string) (c : Connection) : Connection :=
  {| Network := Network c; Nick := v; User := User c; RealName := RealName c; Input := Input c; Output := Output c; reader := reader c; writer := writer c; conn := conn c; reconnect := reconnect c; Quit := Quit c; quitsend := quitsend c; quitrecv := quitrecv c; l := l c |}.

Definition set_User (v : string) (c : Connection) : Connection :=
  {| Network := Network c; Nick := Nick c; User := v; RealName := RealName c; Input := Input c; Output := Output c; reader := reader c; writer := writer c; conn := conn c; reconnect := reconnect c; Quit := Quit c; quitsend := quitsend c; quitrecv := quitrecv c; l := l c |}.

Definition set_RealName (v : string) (c : Connection) : Connection :=
  {| Network := Network c; Nick := Nick c; User := User c; RealName := v; Input := Input c; Output := Output c; reader := reader c; writer := writer c; conn := conn c; reconnect := reconnect c; Quit := Quit c; quitsend := quitsend c; quitrecv := quitrecv c; l := l c |}.

Definition set_Input (v : option nat) (c : Connection) : Connection :=
  {| Network := Network c; Nick := Nick c; User := User c; RealName := RealName c; Input := v; Output := Output c; reader := reader c; writer := writer c; conn := conn c; reconnect := reconnect c; Quit := Quit c; quitsend := quitsend c; quitrecv := quitrecv c; l := l c |}.

Definition set_Output (v : option nat) (c : Connection) : Connection :=
  {| Network := Network c; Nick := Nick c; User := User c; RealName := RealName c; Input := Input c; Output := v; reader := reader c; writer := writer c; conn := conn c; reconnect := reconnect c; Quit := Quit c; quitsend := quitsend c; quitrecv := quitrecv c; l := l c |}.

Definition set_reader (v : option bufio_Reader) (c : Connection) : Connection :=
  {| Network := Network c; Nick := Nick c; User := User c; RealName := RealName c; Input := Input c; Output := Output c; reader := v; writer := writer c; conn := conn c; reconnect := reconnect c; Quit := Quit c; quitsend := quitsend c; quitrecv := quitrecv c; l := l c |}.

Definition set_writer (v : option bufio_Writer) (c : Connection) : Connection :=
  {| Network := Network c; Nick := Nick c; User := User c; RealName := RealName c; Input := Input c; Output := Output c; reader := reader c; writer := v; conn := conn c; reconnect := reconnect c; Quit := Quit c; quitsend := quitsend c; quitrecv := quitrecv c; l := l c |}.

Definition set_conn (v : option net_Conn) (c : Connection) : Connection :=
  {| Network := Network c; Nick := Nick c; User := User c; RealName := RealName c; Input := Input c; Output := Output c; reader := reader c; writer := writer c; conn := v; reconnect := reconnect c; Quit := Quit c; quitsend := quitsend c; quitrecv := quitrecv c; l := l c |}.

Definition set_reconnect (v : option nat) (c : Connection) : Connection :=
  {| Network := Network c; Nick := Nick c; User := User c; RealName := RealName c; Input := Input c; Output := Output c; reader := reader c; writer := writer c; conn := conn c; reconnect := v; Quit := Quit c; quitsend := quitsend c; quitrecv := quitrecv c; l := l c |}.

Definition set_Quit (v : option nat) (c : Connection) : Connection :=
  {| Network := Network c; Nick := Nick c; User := User c; RealName := RealName c; Input := Input c; Output := Output c; reader := reader c; writer := writer c; conn := conn c; reconnect := reconnect c; Quit := v; quitsend := quitsend c; quitrecv := quitrecv c; l := l c |}.

Definition set_quitsend (v : option nat) (c : Connection) : Connection :=
  {| Network := Network c; Nick := Nick c; User := User c; RealName := RealName c; Input := Input c; Output := Output c; reader := reader c; writer := writer c; conn := conn c; reconnect := reconnect c; Quit := Quit c; quitsend := v; quitrecv := quitrecv c; l := l c |}.

Definition set_quitrecv (v : option nat) (c : Connection) : Connection :=
  {| Network := Network c; Nick := Nick c; User := User c; RealName := RealName c; Input := Input c; Output := Output c; reader := reader c; writer := writer c; conn := conn c; reconnect := reconnect c; Quit := Quit c; quitsend := quitsend c; quitrecv := v; l := l c |}.

Definition set_l (v : bool) (c : Connection) : Connection :=
  {| Network := Network c; Nick := Nick c; User := User c; RealName := RealName c; Input := Input c; Output := Output c; reader := reader c; writer := writer c; conn := conn c; reconnect := reconnect c; Quit := Quit c; quitsend := quitsend c; quitrecv := quitrecv c; l := v |}.

(** ** Threads *)

(** Program points, named after the line of irc.go the role is about to
    execute. *)
Inductive KeeperPC :=
| K96 | K97 | K98 | K99 | K100 | K101 | K102
| K104 | K105 | K106 | K107 | K108
| K110 (server : string)
| K111 | K113 | K114 | K117 | K121.

Inductive CleanerPC := C80 | C82 | C84 | C85 | C86 | C87 | C89.

Inductive SenderPC := S35 | S37 (msg : Message) | S39.

Inductive ReceiverPC := R50 | R54 | R62 | R68 (msg : Message).

Inductive Thread :=
| Keeper (servers : list string) (pc : KeeperPC)
| Cleaner (pc : CleanerPC)
| Sender (pc : SenderPC)
| Receiver (pc : ReceiverPC)
| Exited.

(** Observable actions, tagged in the trace with the thread that
    performed them. *)
Inductive Event :=
| EvSelect (server : string)
| EvDial (server : string) (r : net_Conn + error)
| EvRead (r : string + error)
| EvWriteString (w : bufio_Writer) (text : string) (r : option error)
| EvFlush (w : bufio_Writer) (r : option error)
| EvClose (k : net_Conn)
| EvQuit
| EvPanic.

Record State := mkState {
  c : Connection;
  mchans : list (Chan Message);
  schans : list (Chan unit);
  threads : list Thread;
  trace : list (nat * Event);
  panicked : bool
}.

Definition set_c (v : Connection) (st : State) : State :=
  {| c := v; mchans := mchans st; schans := schans st; threads := threads st;
     trace := trace st; panicked := panicked st |}.
Definition set_mchans (v : list (Chan Message)) (st : State) : State :=
  {| c := c st; mchans := v; schans := schans st; threads := threads st;
     trace := trace st; panicked := panicked st |}.
Definition set_schans (v : list (Chan unit)) (st : State) : State :=
  {| c := c st; mchans := mchans st; schans := v; threads := threads st;
     trace := trace st; panicked := panicked st |}.
Definition set_threads (v : list Thread) (st : State) : State :=
  {| c := c st; mchans := mchans st; schans := schans st; threads := v;
     trace := trace st; panicked := panicked st |}.

(** The thread [tid] moves to [t]. *)
Definition goto (tid : nat) (t : Thread) (st : State) : State :=
  set_threads (<[tid := t]> (threads st)) st.

(** [go f()]: a new thread. *)
Definition spawn (t : Thread) (st : State) : State :=
  set_threads (threads st ++ [t]) st.

Definition emit (tid : nat) (e : Event) (st : State) : State :=
  {| c := c st; mchans := mchans st; schans := schans st; threads := threads st;
     trace := trace st ++ [(tid, e)]; panicked := panicked st |}.

(** A panic in any goroutine ends the process. *)
Definition panic (tid : nat) (st : State) : State :=
  {| c := c st; mchans := mchans st; schans := schans st; threads := threads st;
     trace := trace st ++ [(tid, EvPanic)]; panicked := true |}.

(** A send on, a receive from, and the closing of a [chan struct{}]
    held in a field of [c]; the thread continues at [next], stays where
    it is when the operation blocks. *)
Definition sig_send (tid : nat) (r : option nat) (next : Thread) (st : State) : State :=
  match chan_send r tt (schans st) with
  | Ok σ => goto tid next (set_schans σ st)
  | Block => st
  | Panic => panic tid st
  end.

Definition sig_recv (tid : nat) (r : option nat) (next : Thread) (st : State) : State :=
  match chan_recv tt r (schans st) with
  | Ok (_, σ) => goto tid next (set_schans σ st)
  | Block => st
  | Panic => panic tid st
  end.

Definition sig_close (tid : nat) (r : option nat) (next : Thread) (st : State) : State :=
  match chan_close r (schans st) with
  | Ok σ => goto tid next (set_schans σ st)
  | Block => st
  | Panic => panic tid st
  end.

Definition msg_send (tid : nat) (r : option nat) (m : Message) (next : Thread) (st : State) : State :=
  match chan_send r m (mchans st) with
  | Ok σ => goto tid next (set_mchans σ st)
  | Block => st
  | Panic => panic tid st
  end.

Definition msg_close (tid : nat) (r : option nat) (next : Thread) (st : State) : State :=
  match chan_close r (mchans st) with
  | Ok σ => goto tid next (set_mchans σ st)
  | Block => st
  | Panic => panic tid st
  end.

(** [c.l.Lock()] and [c.l.Unlock()]. *)
Definition lock (tid : nat) (next : Thread) (st : State) : State :=
  if l (c st) then st else goto tid next (set_c (set_l true (c st)) st).

Definition unlock (tid : nat) (next : Thread) (st : State) : State :=
  if l (c st) then goto tid next (set_c (set_l false (c st)) st) else panic tid st.

(** ** Dial (lines 146-159) *)

Definition Dial (c : Connection) (server : string) (r : net_Conn + error)
  : Connection * option error :=
  match r with
  | inr err => (c, Some err)
  | inl k =>
      (set_conn (Some k) (set_reader (Some (NewReader k)) (set_writer (Some (NewWriter k)) c)),
       None)
  end.

(** ** The registration messages (lines 117-125) *)

Definition NICK_message (c : Connection) : Message :=
  {| Prefix := None; Command := "NICK"; Params := [];
     Trailing := Some (Nick c); Context := ∅ |}.

Definition USER_message (c : Connection) : Message :=
  {| Prefix := None; Command := "USER"; Params := [User c; "0"; "*"];
     Trailing := Some (RealName c); Context := ∅ |}.

(** ** Keeper (lines 93-128) *)

(** [rand.Intn(n)]: panics when [n <= 0], else a value in [[0, n)]. *)
Definition rand_Intn (x : Ext) (n : nat) : option nat :=
  if n =? 0 then None else Some (x_rand x mod n).

Definition Keeper_step (servers : list string) (pc : KeeperPC) (x : Ext) (tid : nat)
    (st : State) : State :=
  let K := Keeper servers in
  match pc with
  | K96 => sig_recv tid (reconnect (c st)) (K K97) st
  | K97 => lock tid (K K98) st
  | K98 =>
      match Input (c st) with
      | Some _ => goto tid (K K99) st
      | None => goto tid (K K104) st
      end
  | K99 => msg_close tid (Input (c st)) (K K100) st
  | K100 => msg_close tid (Output (c st)) (K K101) st
  | K101 => sig_close tid (quitsend (c st)) (K K102) st
  | K102 => sig_close tid (quitrecv (c st)) (K K104) st
  | K104 =>
      let '(r, σ) := chan_make 1 (mchans st) in
      goto tid (K K105) (set_c (set_Input r (c st)) (set_mchans σ st))
  | K105 =>
      let '(r, σ) := chan_make 1 (mchans st) in
      goto tid (K K106) (set_c (set_Output r (c st)) (set_mchans σ st))
  | K106 =>
      let '(r, σ) := chan_make 1 (schans st) in
      goto tid (K K107) (set_c (set_quitsend r (c st)) (set_schans σ st))
  | K107 =>
      let '(r, σ) := chan_make 1 (schans st) in
      goto tid (K K108) (set_c (set_quitrecv r (c st)) (set_schans σ st))
  | K108 =>
      match rand_Intn x (length servers) with
      | None => panic tid st
      | Some i =>
          match servers !! i with
          | Some server => goto tid (K (K110 server)) (emit tid (EvSelect server) st)
          | None => panic tid st
          end
      end
  | K110 server =>
      let '(c', _) := Dial (c st) server (x_dial x) in
      goto tid (K K111) (emit tid (EvDial server (x_dial x)) (set_c c' st))
  | K111 => unlock tid (K K113) st
  | K113 => goto tid (K K114) (spawn (Sender S35) st)
  | K114 => goto tid (K K117) (spawn (Receiver R50) st)
  | K117 => msg_send tid (Input (c st)) (NICK_message (c st)) (K K121) st
  | K121 => msg_send tid (Input (c st)) (USER_message (c st)) (K K96) st
  end.

(** ** Cleaner (lines 77-91) *)

Definition Cleaner_step (pc : CleanerPC) (x : Ext) (tid : nat) (st : State) : State :=
  match pc with
  | C80 => sig_recv tid (Quit (c st)) (Cleaner C82) st
  | C82 => lock tid (Cleaner C84) st
  | C84 => sig_send tid (quitsend (c st)) (Cleaner C85) st
  | C85 => sig_send tid (quitrecv (c st)) (Cleaner C86) st
  | C86 => sig_send tid (reconnect (c st)) (Cleaner C87) st
  | C87 =>
      match conn (c st) with
      | Some k => goto tid (Cleaner C89) (emit tid (EvClose k) st)
      | None => panic tid st
      end
  | C89 => unlock tid (Cleaner C80) st
  end.

(** ** Sender (lines 32-45) *)

Definition Sender_step (pc : SenderPC) (x : Ext) (tid : nat) (st : State) : State :=
  match pc with
  | S35 =>
      let take_input :=
        match chan_recv zero_Message (Input (c st)) (mchans st) with
        | Ok (msg, σ) => goto tid (Sender (S37 msg)) (set_mchans σ st)
        | _ => st
        end in
      let take_quit := sig_recv tid (quitsend (c st)) Exited st in
      match recv_ready (Input (c st)) (mchans st), recv_ready (quitsend (c st)) (schans st) with
      | true, true => if x_pick x then take_input else take_quit
      | true, false => take_input
      | false, true => take_quit
      | false, false => st
      end
  | S37 msg =>
      match writer (c st) with
      | Some w =>
          goto tid (Sender S39)
            (emit tid (EvWriteString w (Codec.MessageString msg +:+ endline) (x_write x)) st)
      | None => panic tid st
      end
  | S39 =>
      match writer (c st) with
      | Some w => goto tid (Sender S35) (emit tid (EvFlush w (x_write x)) st)
      | None => panic tid st
      end
  end.

(** ** Receiver (lines 47-75) *)

Definition Receiver_step (pc : ReceiverPC) (x : Ext) (tid : nat) (st : State) : State :=
  match pc with
  | R50 =>
      match reader (c st) with
      | None => panic tid st
      | Some _ =>
          let st' := emit tid (EvRead (x_read x)) st in
          match x_read x with
          | inr _ => goto tid (Receiver R54) st'
          | inl raw =>
              match Codec.ParseMessage raw with
              | None => goto tid (Receiver R62) st'
              | Some msg => goto tid (Receiver (R68 msg)) st'
              end
          end
      end
  | R54 | R62 =>
      match chan_send (Quit (c st)) tt (schans st) with
      | Ok σ => goto tid Exited (emit tid EvQuit (set_schans σ st))
      | Block => st
      | Panic => panic tid st
      end
  | R68 msg =>
      let publish := msg_send tid (Output (c st)) msg (Receiver R50) st in
      let take_quit := sig_recv tid (quitrecv (c st)) Exited st in
      match send_ready (Output (c st)) (mchans st), recv_ready (quitrecv (c st)) (schans st) with
      | true, true => if x_pick x then publish else take_quit
      | true, false => publish
      | false, true => take_quit
      | false, false => st
      end
  end.

(** ** The machine *)

(** One step of thread [tid]; a blocked thread, an exited thread and a
    dead process do not move. *)
Definition step (tid : nat) (x : Ext) (st : State) : State :=
  if panicked st then st
  else
    match threads st !! tid with
    | Some (Keeper servers pc) => Keeper_step servers pc x tid st
    | Some (Cleaner pc) => Cleaner_step pc x tid st
    | Some (Sender pc) => Sender_step pc x tid st
    | Some (Receiver pc) => Receiver_step pc x tid st
    | Some Exited | None => st
    end.

(** A schedule: which thread moves, and what the environment answers. *)
Fixpoint run (sched : list (nat * Ext)) (st : State) : State :=
  match sched with
  | [] => st
  | (tid, x) :: rest => run rest (step tid x st)
  end.

(** ** Setup (lines 130-144)

    Called once, on a fresh [Connection]; it returns to the caller with
    the Keeper and the Cleaner started. *)
Definition Setup (network : string) (servers : list string) (nick user realname : string)
  : State :=
  let '(r_reconnect, σ) := chan_make 1 [] in
  let '(r_Quit, σ) := chan_make 1 σ in
  let c0 :=
    set_Network network (set_RealName realname (set_User user (set_Nick nick
      (set_Quit r_Quit (set_reconnect r_reconnect zero_Connection))))) in
  let σ := match chan_send r_reconnect tt σ with Ok σ' => σ' | _ => σ end in
  {| c := c0; mchans := []; schans := σ;
     threads := [Keeper servers K96; Cleaner C80];
     trace := []; panicked := false |}.

(** * Collaborators

    Modelled from the spec: sections 5 and 6 give the collaborators three
    operations on the exported channel fields of a Connection, and the
    handlers of src/bot use the first one ([output <- irc.Message{...}]
    in nickserv and joinsecuredchannels).  A collaborator submits a
    message for transmission, [c.Input <- m]; it takes the next inbound
    message, [<-c.Output]; it forces a reconnect, [c.Quit <- struct{}{}].
    The dispatcher that runs the handlers is not part of src/. *)
Inductive Collab :=
| Submit (m : Message)
| Take
| Force.

(** A panic in a goroutine that is none of the four roles: the process
    ends, and no role has an event for it in the trace. *)
Definition crash (st : State) : State :=
  {| c := c st; mchans := mchans st; schans := schans st; threads := threads st;
     trace := trace st; panicked := true |}.

(** One operation of a collaborator; it waits (the state is as before)
    when the channel is nil, or full, or empty. *)
Definition collab_step (op : Collab) (st : State) : State :=
  if panicked st then st
  else
    match op with
    | Submit m =>
        match chan_send (Input (c st)) m (mchans st) with
        | Ok σ => set_mchans σ st
        | Block => st
        | Panic => crash st
        end
    | Take =>
        match chan_recv zero_Message (Output (c st)) (mchans st) with
        | Ok (_, σ) => set_mchans σ st
        | _ => st
        end
    | Force =>
        match chan_send (Quit (c st)) tt (schans st) with
        | Ok σ => set_schans σ st
        | Block => st
        | Panic => crash st
        end
    end.

(** The session with its collaborators: a role moves, or a collaborator
    does. *)
Inductive Action :=
| Role (tid : nat) (x : Ext)
| Outside (op : Collab).

Definition act (a : Action) (st : State) : State :=
  match a with
  | Role tid x => step tid x st
  | Outside op => collab_step op st
  end.

Fixpoint play (acts : list Action) (st : State) : State :=
  match acts with
  | [] => st
  | a :: rest => play rest (act a st)
  end.

(** A schedule of the roles alone. *)
Definition roles (sched : list (nat * Ext)) : list Action :=
  (λ p, Role p.1 p.2) <$> sched.

(** * Invariants of the machine *)

(** ** Channel capacity *)

Definition chan_ok {A} (ch : Chan A) : Prop :=
  ch_cap ch = 1 ∧ length (ch_buf ch) ≤ 1.

Definition ref_ok {A} (r : option nat) (σ : list (Chan A)) : Prop :=
  match r with Some i => i < length σ | None => True end.

Record chans_ok (st : State) : Prop := {
  ok_mchans : Forall chan_ok (mchans st);
  ok_schans : Forall chan_ok (schans st);
  ok_Input : ref_ok (Input (c st)) (mchans st);
  ok_Output : ref_ok (Output (c st)) (mchans st);
  ok_reconnect : ref_ok (reconnect (c st)) (schans st);
  ok_Quit : ref_ok (Quit (c st)) (schans st);
  ok_quitsend : ref_ok (quitsend (c st)) (schans st);
  ok_quitrecv : ref_ok (quitrecv (c st)) (schans st)
}.

(** ** Which servers are dialled *)

Definition thread_dials (servers : list string) (t : Thread) : Prop :=
  match t with
  | Keeper srv pc =>
      srv = servers ∧ match pc with K110 s => s ∈ servers | _ => True end
  | _ => True
  end.

Definition event_dials (servers : list string) (e : nat * Event) : Prop :=
  match e.2 with
  | EvSelect s | EvDial s _ => s ∈ servers
  | _ => True
  end.

Record dial_inv (servers : list string) (st : State) : Prop := {
  di_threads : Forall (thread_dials servers) (threads st);
  di_trace : Forall (event_dials servers) (trace st)
}.

(** ** Registration *)

Definition is_Keeper (t : Thread) : bool :=
  match t with Keeper _ _ => true | _ => false end.

Definition is_Sender (t : Thread) : bool :=
  match t with Sender _ => true | _ => false end.

(** The Keeper waits at line 121 to enqueue USER: the outbound queue
    [c.Input] is channel [i] of the store, it is open and full, and no
    Sender is left to take from it (nor a second Keeper to start one). *)
Record stalled (servers : list string) (i : nat) (q : Chan Message) (st : State) : Prop := {
  sl_Keeper : threads st !! 0 = Some (Keeper servers K121);
  sl_others : Forall (λ t, is_Keeper t || is_Sender t = false) (drop 1 (threads st));
  sl_Input : Input (c st) = Some i;
  sl_Output : Output (c st) ≠ Some i;
  sl_queue : mchans st !! i = Some q;
  sl_open : ch_closed q = false;
  sl_full : ch_cap q ≤ length (ch_buf q)
}.

(** ** Reading the trace *)

Definition is_read_by (tid : nat) (e : nat * Event) : bool :=
  match e with
  | (t, EvRead _) => t =? tid
  | _ => false
  end.

(** The lines thread [tid] has read (or failed to read) so far. *)
Definition reads_by (tid : nat) (τ : list (nat * Event)) : list (nat * Event) :=
  List.filter (is_read_by tid) τ.

(** The read fails, or the line read cannot be decoded. *)
Definition read_fails (x : Ext) : bool :=
  match x_read x with
  | inr _ => true
  | inl raw =>
      match Codec.ParseMessage raw with
      | None => true
      | Some _ => false
      end
  end.

(** The dial attempts so far, in order. *)
Definition dials (τ : list (nat * Event)) : list (string * (net_Conn + error)) :=
  flat_map (λ e, match e.2 with EvDial s r => [(s, r)] | _ => [] end) τ.

(** What a failing Receiver [tid] may still do: wait at line 54 or 62,
    or have raised the failure signal and returned. *)
Definition quitting (tid : nat) (st : State) : Prop :=
  threads st !! tid = Some (Receiver R54)
  ∨ threads st !! tid = Some (Receiver R62)
  ∨ (threads st !! tid = Some Exited ∧ (tid, EvQuit) ∈ trace st).

(** ** A session used in the examples

    A pool of two servers; the first dial succeeds, later ones are
    refused. *)

Definition refused : error := mkError "connection refused".
Definition eof : error := mkError "EOF".
Definition epipe : error := mkError "broken pipe".

(** The network is up: dials and writes succeed, a line is read. *)
Definition x_up : Ext :=
  mkExt 0 (inl 7) (inl ("PING :irc.example" +:+ endline)) None true.

(** The network is down: dials, reads and writes fail. *)
Definition x_down : Ext := mkExt 0 (inr refused) (inr eof) (Some epipe) true.

(** As [x_down]; a [select] with two ready cases takes the stop signal. *)
Definition x_stop : Ext := mkExt 0 (inr refused) (inr eof) (Some epipe) false.

Definition pool : list string := ["a.example:6667"; "b.example:6667"].

Definition freenode : State := Setup "freenode" pool "gorepost" "repost" "Go Repost".

(** The Keeper (thread 0) runs lines 96 to 117 of its first cycle; the
    Sender (thread 2) writes NICK; the Keeper enqueues USER (line 121)
    and the Sender writes it. *)
Definition first_connection : list (nat * Ext) :=
  replicate 13 (0, x_up) ++ replicate 3 (2, x_up) ++ [(0, x_up)] ++ replicate 3 (2, x_up).

(** The Receiver [r] fails to read, raises the failure signal and
    returns; the Cleaner (thread 1) runs lines 80 to 89; the Sender [s]
    takes its stop signal. *)
Definition teardown (s r : nat) : list (nat * Ext) :=
  replicate 2 (r, x_down) ++ replicate 7 (1, x_down) ++ [(s, x_stop)].

(** A later cycle of the Keeper, lines 96 to 110: the old channels are
    closed, new ones made, a server selected, and the dial fails. *)
Definition failed_dial : list (nat * Ext) := replicate 13 (0, x_down).

(** The rest of that cycle, lines 111 to 121, with the new Sender [s]
    taking NICK from the queue. *)
Definition after_dial (s : nat) : list (nat * Ext) :=
  replicate 4 (0, x_down) ++ replicate 3 (s, x_down) ++ [(0, x_down)].

(** The registration messages of a session. *)
Definition NICK (nick : string) : Message :=
  {| Prefix := None; Command := "NICK"; Params := [];
     Trailing := Some nick; Context := ∅ |}.

Definition USER (user realname : string) : Message :=
  {| Prefix := None; Command := "USER"; Params := [user; "0"; "*"];
     Trailing := Some realname; Context := ∅ |}.

(** A line and a message used in the examples. *)
Definition privmsg_line : string :=
  ":nick!user@host PRIVMSG #chan :hello  there" +:+ endline.

Definition privmsg : Message :=
  {| Prefix := Some (Prefix.mk "nick" "user" "host"); Command := "PRIVMSG";
     Params := ["#chan"]; Trailing := Some "hello  there"; Context := ∅ |}.

(** The first dial succeeds and the Keeper starts the Sender (thread 2)
    and the Receiver (thread 3), lines 96 to 114; the first read of the
    Receiver fails and it raises the failure signal; the Cleaner takes
    it, locks and sends on [c.quitsend], lines 80 to 84; the [select] of
    the Sender takes the stop signal and the Sender returns; the Keeper
    enqueues NICK, line 117. *)
Definition stalled_registration : list (nat * Ext) :=
  replicate 12 (0, x_up) ++ replicate 2 (3, x_down) ++ replicate 3 (1, x_up)
  ++ [(2, x_up); (0, x_up)].

(** What may follow: the Cleaner finishes the teardown, the Keeper tries
    again and again, a collaborator submits a message and asks for
    one. *)
Definition after_stall : list Action :=
  roles (replicate 4 (1, x_up) ++ replicate 3 (0, x_up))
  ++ [Outside (Submit privmsg); Outside Take; Role 0 x_up].

(** A collaborator submits a message as soon as the Keeper has made the
    new [c.Input] (line 104); the Keeper goes on to line 117, the Sender
    (thread 2) writes the message, and NICK and USER follow. *)
Definition early_traffic : list Action :=
  roles (replicate 4 (0, x_up))
  ++ [Outside (Submit privmsg)]
  ++ roles (replicate 8 (0, x_up) ++ replicate 3 (2, x_up) ++ [(0, x_up)]
            ++ replicate 3 (2, x_up) ++ [(0, x_up)]).

(** * The session as a whole

    Setup starts the Keeper as thread 0 and the Cleaner as thread 1;
    every later thread is a Sender or a Receiver started by the Keeper. *)

Definition Keeper_pc (st : State) : KeeperPC :=
  match threads st with
  | Keeper _ pc :: _ => pc
  | _ => K96
  end.

Definition Cleaner_pc (st : State) : CleanerPC :=
  match threads st with
  | _ :: Cleaner pc :: _ => pc
  | _ => C80
  end.

Definition workers (st : State) : list Thread := drop 2 (threads st).

Definition worker (t : Thread) : bool :=
  match t with
  | Sender _ | Receiver _ | Exited => true
  | _ => false
  end.

(** The Keeper holds [c.l]: lines 98 to 111. *)
Definition Keeper_locked (pc : KeeperPC) : bool :=
  match pc with
  | K98 | K99 | K100 | K101 | K102 | K104 | K105 | K106 | K107 | K108
  | K110 _ | K111 => true
  | _ => false
  end.

(** The Cleaner holds [c.l]: lines 84 to 89. *)
Definition Cleaner_locked (pc : CleanerPC) : bool :=
  match pc with
  | C84 | C85 | C86 | C87 | C89 => true
  | _ => false
  end.

(** The Keeper has taken a reconnect request and has not yet started
    the Receiver of the new generation: lines 97 to 114. *)
Definition Keeper_pending (pc : KeeperPC) : bool :=
  match pc with
  | K96 | K117 | K121 => false
  | _ => true
  end.

(** The Keeper has taken a reconnect request and has not yet dialled:
    lines 97 to 110. *)
Definition Keeper_predial (pc : KeeperPC) : bool :=
  match pc with
  | K96 | K111 | K113 | K114 | K117 | K121 => false
  | _ => true
  end.

(** The Cleaner has taken a failure signal and has not yet requested
    the reconnect: lines 82 to 86. *)
Definition Cleaner_pending (pc : CleanerPC) : bool :=
  match pc with
  | C82 | C84 | C85 | C86 => true
  | _ => false
  end.

(** The Cleaner has taken a failure signal and has not yet closed the
    socket: lines 82 to 87. *)
Definition Cleaner_preclose (pc : CleanerPC) : bool :=
  match pc with
  | C80 | C89 => false
  | _ => true
  end.

Definition is_Receiver (t : Thread) : bool :=
  match t with Receiver _ => true | _ => false end.

(** The Receivers that have neither raised their failure signal (the
    send of line 54 or 62) nor taken the stop signal of line 70; after
    either, a Receiver only logs and returns. *)
Definition active_Receivers (ts : list Thread) : nat :=
  length (List.filter is_Receiver ts).

(** The values waiting in the buffer of a channel. *)
Definition pending {A} (r : option nat) (σ : list (Chan A)) : nat :=
  match chan_get r σ with
  | Some ch => length (ch_buf ch)
  | None => 0
  end.

(** The values sent on a channel since it was made. *)
Definition sent {A} (r : option nat) (σ : list (Chan A)) : nat :=
  match chan_get r σ with
  | Some ch => length (ch_hist ch)
  | None => 0
  end.

Definition is_quit (e : nat * Event) : bool :=
  match e.2 with EvQuit => true | _ => false end.

Definition is_close (e : nat * Event) : bool :=
  match e.2 with EvClose _ => true | _ => false end.

(** The failure signals the Receivers have raised so far, the sockets
    closed so far. *)
Definition quits (τ : list (nat * Event)) : nat := length (List.filter is_quit τ).
Definition closes (τ : list (nat * Event)) : nat := length (List.filter is_close τ).

(** What holds of every reachable state of a session, whatever the
    collaborators do.  The signals sent on [c.Quit] are counted on the
    channel itself: they come from the Receivers and from collaborators
    that force a reconnect. *)
Record core_inv (network : string) (servers : list string) (nick user realname : string)
    (st : State) : Prop := {
  ci_threads :
    threads st = Keeper servers (Keeper_pc st) :: Cleaner (Cleaner_pc st) :: workers st;
  ci_workers : Forall (λ t, worker t = true) (workers st);
  ci_Network : Network (c st) = network;
  ci_Nick : Nick (c st) = nick;
  ci_User : User (c st) = user;
  ci_RealName : RealName (c st) = realname;
  ci_reconnect : reconnect (c st) = Some 0;
  ci_Quit : Quit (c st) = Some 1;
  ci_perm : ∃ q0 q1 rest,
    schans st = q0 :: q1 :: rest ∧ ch_closed q0 = false ∧ ch_closed q1 = false;
  ci_quitsend : ∀ i, quitsend (c st) = Some i → 2 ≤ i;
  ci_quitrecv : ∀ i, quitrecv (c st) = Some i → 2 ≤ i;
  ci_lock : l (c st) = Keeper_locked (Keeper_pc st) || Cleaner_locked (Cleaner_pc st);
  ci_excl : Keeper_locked (Keeper_pc st) && Cleaner_locked (Cleaner_pc st) = false;
  ci_signals : quits (trace st) ≤ sent (Quit (c st)) (schans st);
  ci_tokens :
    active_Receivers (workers st)
    + pending (Quit (c st)) (schans st)
    + Nat.b2n (Cleaner_pending (Cleaner_pc st))
    + pending (reconnect (c st)) (schans st)
    + Nat.b2n (Keeper_pending (Keeper_pc st))
    + quits (trace st)
    ≤ 1 + sent (Quit (c st)) (schans st);
  ci_dials :
    length (dials (trace st))
    + pending (reconnect (c st)) (schans st)
    + Nat.b2n (Keeper_predial (Keeper_pc st))
    + Nat.b2n (Cleaner_pending (Cleaner_pc st))
    + pending (Quit (c st)) (schans st)
    = 1 + sent (Quit (c st)) (schans st);
  ci_closes :
    closes (trace st)
    + Nat.b2n (Cleaner_preclose (Cleaner_pc st))
    + pending (Quit (c st)) (schans st)
    = sent (Quit (c st)) (schans st)
}.

(** ** Sockets *)

(** The sockets the dials have returned so far, oldest first, and the
    one of the latest dial that succeeded. *)
Definition dialled (τ : list (nat * Event)) : list net_Conn :=
  omap (λ d, match d.2 with inl k => Some k | inr _ => None end) (dials τ).

Definition current_socket (τ : list (nat * Event)) : option net_Conn :=
  last (dialled τ).

(** The socket a write, a flush or a close goes to. *)
Definition event_socket (e : Event) : option net_Conn :=
  match e with
  | EvWriteString w _ _ | EvFlush w _ => Some (wr_conn w)
  | EvClose k => Some k
  | _ => None
  end.

Record sock_inv (st : State) : Prop := {
  si_conn : conn (c st) = current_socket (trace st);
  si_reader : reader (c st) = NewReader <$> conn (c st);
  si_writer : writer (c st) = NewWriter <$> conn (c st);
  si_events : ∀ e k, e ∈ trace st → event_socket e.2 = Some k → k ∈ dialled (trace st)
}.

(** ** Generations of channels *)

(** The closed flags of a channel store, and the flag of the channel a
    field refers to. *)
Definition flags {A} (σ : list (Chan A)) : list bool := ch_closed <$> σ.

Definition closed_of {A} (r : option nat) (σ : list (Chan A)) : option bool :=
  match r with
  | Some i => flags σ !! i
  | None => None
  end.

(** A field that holds an open channel; one that is nil or holds a
    closed channel. *)
Definition live {A} (r : option nat) (σ : list (Chan A)) : Prop :=
  closed_of r σ = Some false.

Definition gone {A} (r : option nat) (σ : list (Chan A)) : Prop :=
  r = None ∨ closed_of r σ = Some true.

(** What the Keeper's program point says about a channel field: between
    cycles (lines 96 to 98) nothing, from its [close] to its [make] the
    field is nil or closed, elsewhere it is open. *)
Inductive Health := Up | Down | Idle.

Definition Input_health (pc : KeeperPC) : Health :=
  match pc with
  | K96 | K97 | K98 => Idle
  | K100 | K101 | K102 | K104 => Down
  | _ => Up
  end.

Definition Output_health (pc : KeeperPC) : Health :=
  match pc with
  | K96 | K97 | K98 => Idle
  | K101 | K102 | K104 | K105 => Down
  | _ => Up
  end.

Definition quitsend_health (pc : KeeperPC) : Health :=
  match pc with
  | K96 | K97 | K98 => Idle
  | K102 | K104 | K105 | K106 => Down
  | _ => Up
  end.

Definition quitrecv_health (pc : KeeperPC) : Health :=
  match pc with
  | K96 | K97 | K98 => Idle
  | K104 | K105 | K106 | K107 => Down
  | _ => Up
  end.

Definition healthy {A} (h : Health) (r : option nat) (σ : list (Chan A)) : Prop :=
  match h with
  | Up => live r σ
  | Down => gone r σ
  | Idle => True
  end.

(** Before the first cycle the four fields are nil; between later
    cycles the four channels are open. *)
Definition all_nil (c : Connection) : Prop :=
  Input c = None ∧ Output c = None ∧ quitsend c = None ∧ quitrecv c = None.

Definition all_live (st : State) : Prop :=
  live (Input (c st)) (mchans st) ∧ live (Output (c st)) (mchans st)
  ∧ live (quitsend (c st)) (schans st) ∧ live (quitrecv (c st)) (schans st).

Record gen_inv (st : State) : Prop := {
  gi_msg_distinct : ∀ i, Input (c st) = Some i → Output (c st) ≠ Some i;
  gi_sig_distinct : ∀ i, quitsend (c st) = Some i → quitrecv (c st) ≠ Some i;
  gi_Input : healthy (Input_health (Keeper_pc st)) (Input (c st)) (mchans st);
  gi_Output : healthy (Output_health (Keeper_pc st)) (Output (c st)) (mchans st);
  gi_quitsend : healthy (quitsend_health (Keeper_pc st)) (quitsend (c st)) (schans st);
  gi_quitrecv : healthy (quitrecv_health (Keeper_pc st)) (quitrecv (c st)) (schans st);
  gi_idle : Input_health (Keeper_pc st) = Idle → all_nil (c st) ∨ all_live st;
  gi_msg_open : ∀ i, flags (mchans st) !! i = Some false →
    Input (c st) = Some i ∨ Output (c st) = Some i;
  gi_sig_open : ∀ i, flags (schans st) !! i = Some false →
    reconnect (c st) = Some i ∨ Quit (c st) = Some i
    ∨ quitsend (c st) = Some i ∨ quitrecv (c st) = Some i
}.

(** A step that neither assigns a channel field nor closes a channel. *)
Record same_channels (st st' : State) : Prop := {
  sc_Input : Input (c st') = Input (c st);
  sc_Output : Output (c st') = Output (c st);
  sc_reconnect : reconnect (c st') = reconnect (c st);
  sc_Quit : Quit (c st') = Quit (c st);
  sc_quitsend : quitsend (c st') = quitsend (c st);
  sc_quitrecv : quitrecv (c st') = quitrecv (c st);
  sc_mflags : flags (mchans st') = flags (mchans st);
  sc_sflags : flags (schans st') = flags (schans st)
}.

(** The lines of the Keeper that close or make a channel. *)
Definition Keeper_rebuilds (pc : KeeperPC) : bool :=
  match pc with
  | K99 | K100 | K101 | K102 | K104 | K105 | K106 | K107 => true
  | _ => false
  end.

(** ** Panics *)

(** One of the four roles has panicked. *)
Definition role_panicked (st : State) : Prop :=
  ∃ tid, (tid, EvPanic) ∈ trace st.

(** No collaborator has forced a reconnect so far: every signal sent on
    [c.Quit] is a Receiver's. *)
Definition unforced (st : State) : Prop :=
  sent (Quit (c st)) (schans st) = quits (trace st).

(** A role has panicked only with an empty pool, or before any dial
    succeeded, or after a forced reconnect. *)
Record panic_free (servers : list string) (st : State) : Prop := {
  pf_dead : role_panicked st → panicked st = true;
  pf_cause : role_panicked st →
    servers = [] ∨ conn (c st) = None
    ∨ quits (trace st) < sent (Quit (c st)) (schans st)
}.

(** ** A session with collaborators

    After the first connection a collaborator submits a message and
    asks for an inbound one; then the Receiver fails, the session is
    torn down and the next dial is refused. *)
Definition busy_session : list Action :=
  roles first_connection
  ++ [Outside (Submit privmsg); Outside Take]
  ++ roles (teardown 2 3 ++ failed_dial).

(** A forced reconnect while the Receiver (thread 3) holds a decoded
    message: the Cleaner (thread 1) tears down, the Keeper (thread 0)
    runs lines 96 to 100, and the Receiver publishes. *)
Definition forced_reconnect : list Action :=
  roles first_connection
  ++ [Role 3 (mkExt 0 (inr refused) (inl privmsg_line) None true); Outside Force]
  ++ roles (replicate 7 (1, x_up) ++ replicate 5 (0, x_up) ++ [(3, x_up)]).

(** ** The stop signals *)

(** The Keeper has made the current [c.quitsend] (line 106) and its
    Receiver is not started yet; the same for [c.quitrecv] (line 107). *)
Definition Keeper_made_quitsend (pc : KeeperPC) : bool :=
  match pc with
  | K107 | K108 | K110 _ | K111 | K113 | K114 => true
  | _ => false
  end.

Definition Keeper_made_quitrecv (pc : KeeperPC) : bool :=
  match pc with
  | K108 | K110 _ | K111 | K113 | K114 => true
  | _ => false
  end.

(** The Cleaner has taken a failure signal and has not yet sent on
    [c.quitsend] (line 84); on [c.quitrecv] (line 85). *)
Definition Cleaner_before_quitsend (pc : CleanerPC) : bool :=
  match pc with
  | C82 | C84 => true
  | _ => false
  end.

Definition Cleaner_before_quitrecv (pc : CleanerPC) : bool :=
  match pc with
  | C82 | C84 | C85 => true
  | _ => false
  end.

(** From its make to the Cleaner's send a stop channel is empty, unless
    a collaborator has forced a reconnect: the signals sent on [c.Quit]
    are counted as in [core_inv]. *)
Record sig_inv (st : State) : Prop := {
  sg_quitsend :
    pending (quitsend (c st)) (schans st)
    + active_Receivers (workers st)
    + pending (Quit (c st)) (schans st)
    + Nat.b2n (Cleaner_before_quitsend (Cleaner_pc st))
    + Nat.b2n (Keeper_made_quitsend (Keeper_pc st))
    + quits (trace st)
    ≤ 1 + sent (Quit (c st)) (schans st);
  sg_quitrecv :
    pending (quitrecv (c st)) (schans st)
    + active_Receivers (workers st)
    + pending (Quit (c st)) (schans st)
    + Nat.b2n (Cleaner_before_quitrecv (Cleaner_pc st))
    + Nat.b2n (Keeper_made_quitrecv (Keeper_pc st))
    + quits (trace st)
    ≤ 1 + sent (Quit (c st)) (schans st)
}.

(** ** Receivers and what they need *)

(** A Receiver runs only once the channels of its generation are made,
    and it is past line 50 only when [c.reader], and so [c.conn], is not
    nil. *)
Definition Receiver_ready (c : Connection) (t : Thread) : Prop :=
  match t with
  | Receiver pc => Input c ≠ None ∧ (pc = R50 ∨ conn c ≠ None)
  | _ => True
  end.

Record started_inv (st : State) : Prop := {
  sa_threads : Forall (Receiver_ready (c st)) (threads st);
  sa_made : 0 < quits (trace st) → Input (c st) ≠ None;
  sa_conn : 0 < quits (trace st) → conn (c st) ≠ None
}.

(** ** The order of the inbound messages *)

(** The messages thread [tid] has decoded from the lines it has read, in
    the order of arrival. *)
Definition decodes (tid : nat) (e : nat * Event) : option Message :=
  match e with
  | (t, EvRead (inl raw)) => if t =? tid then Codec.ParseMessage raw else None
  | _ => None
  end.

Definition decoded (tid : nat) (τ : list (nat * Event)) : list Message :=
  omap (decodes tid) τ.

(** The message a Receiver holds, decoded and not yet published. *)
Definition held (pc : ReceiverPC) : list Message :=
  match pc with
  | R68 msg => [msg]
  | _ => []
  end.

(** The values sent on a channel since it was made, oldest first. *)
Definition history {A} (r : option nat) (σ : list (Chan A)) : list A :=
  match chan_get r σ with
  | Some ch => ch_hist ch
  | None => []
  end.

(** The Keeper has made the current [c.Output] (line 105) and its
    Receiver is not started yet. *)
Definition Keeper_made_Output (pc : KeeperPC) : bool :=
  match pc with
  | K106 | K107 | K108 | K110 _ | K111 | K113 | K114 => true
  | _ => false
  end.

(** Without a forced reconnect, what a Receiver has decoded is what
    [c.Output] has received, and the message it holds. *)
Record order_inv (st : State) : Prop := {
  oi_tids : Forall (λ e, e.1 < length (threads st)) (trace st);
  oi_order : unforced st → ∀ tid pc,
    threads st !! tid = Some (Receiver pc) →
    decoded tid (trace st) = history (Output (c st)) (mchans st) ++ held pc;
  oi_fresh : unforced st → Keeper_made_Output (Keeper_pc st) = true →
    history (Output (c st)) (mchans st) = []
}.

(** After the first connection the Receiver (thread 3) reads a PING and
    publishes it, then reads a PRIVMSG and holds it at line 68. *)
Definition ping : Message :=
  {| Prefix := None; Command := "PING"; Params := [];
     Trailing := Some "irc.example"; Context := ∅ |}.

Definition inbound_traffic : list Action :=
  roles first_connection
  ++ [Role 3 x_up; Role 3 x_up;
      Role 3 (mkExt 0 (inr refused) (inl privmsg_line) None true)].

(** * Examples *)

Example parse_privmsg :
  Codec.ParseMessage privmsg_line = Some privmsg.
Proof. reflexivity. Qed.

Example parse_numeric :
  Codec.ParseMessage (":irc.example 001 gorepost :Welcome" +:+ endline)
  = Some {| Prefix := Some (Prefix.mk "irc.example" EmptyString EmptyString);
            Command := "001"; Params := ["gorepost"]; Trailing := Some "Welcome";
            Context := ∅ |}.
Proof. reflexivity. Qed.

Example parse_malformed :
  Codec.ParseMessage (":nick!user@host 12 #chan :x" +:+ endline) = None.
Proof. reflexivity. Qed.

Example serialize_NICK :
  Codec.serialize (NICK "gorepost") = "NICK :gorepost" +:+ endline.
Proof. reflexivity. Qed.

Example first_connection_registers :
  let st := run first_connection freenode in
  threads st = [Keeper pool K96; Cleaner C80; Sender S35; Receiver R50]
  ∧ dials (trace st) = [("a.example:6667", inl 7)].
Proof. vm_compute. split; reflexivity. Qed.

(** * The wire codec: round trip *)

Module CodecFacts.
Import Codec.

Lemma append_cons a s t : String a s +:+ t = String a (s +:+ t).
Proof. reflexivity. Qed.

Lemma append_nil_l t : EmptyString +:+ t = t.
Proof. reflexivity. Qed.

Lemma append_nil_r s : s +:+ EmptyString = s.
Proof. induction s as [|a s IH]; [done | by rewrite append_cons, IH]. Qed.

Lemma append_assoc s t u : (s +:+ t) +:+ u = s +:+ (t +:+ u).
Proof. induction s as [|a s IH]; [done | by rewrite !append_cons, IH]. Qed.

Lemma chomp_snoc c s : chomp c (s +:+ String c EmptyString) = s.
Proof.
  induction s as [|a s IH].
  - rewrite append_nil_l. simpl. by rewrite Ascii.eqb_refl.
  - rewrite append_cons. simpl. rewrite IH.
    destruct s; by rewrite ?append_cons, ?append_nil_l.
Qed.

Lemma trim_line_endline s : trim_line (s +:+ endline) = s.
Proof.
  unfold trim_line, endline.
  change (String "013" (String "010" EmptyString)) with (String cr EmptyString +:+ String delim EmptyString).
  by rewrite <- append_assoc, !chomp_snoc.
Qed.

(** *** Characters *)

Lemma eqb_false a b : a ≠ b → Ascii.eqb a b = false.
Proof. intros H. by apply Ascii.eqb_neq. Qed.

Lemma lacks_cons c a s : lacks c (String a s) = negb (Ascii.eqb a c) && lacks c s.
Proof. reflexivity. Qed.

Lemma lacks_app c s t : lacks c (s +:+ t) = lacks c s && lacks c t.
Proof.
  induction s as [|a s IH]; [done |].
  rewrite append_cons, !lacks_cons, IH. by rewrite andb_assoc.
Qed.

Lemma all_chars_impl (p q : ascii → bool) s :
  (∀ a, p a = true → q a = true) → all_chars p s = true → all_chars q s = true.
Proof.
  intros Hpq. induction s as [|a s IH]; simpl; [done |].
  intros [Ha Hs]%andb_prop. rewrite (Hpq _ Ha). simpl. by apply IH.
Qed.

Lemma is_letter_not a c :
  is_letter c = false → is_letter a = true → negb (Ascii.eqb a c) = true.
Proof.
  intros Hc Ha. destruct (Ascii.eqb_spec a c) as [->|]; [congruence | done].
Qed.

Lemma is_digit_not a c :
  is_digit c = false → is_digit a = true → negb (Ascii.eqb a c) = true.
Proof.
  intros Hc Ha. destruct (Ascii.eqb_spec a c) as [->|]; [congruence | done].
Qed.

Lemma valid_command_lacks c s :
  is_letter c = false → is_digit c = false →
  valid_command s = true → lacks c s = true.
Proof.
  intros Hl Hd. unfold valid_command. destruct s as [|a s]; [done |].
  intros [H|[_ H]%andb_prop]%orb_prop.
  - revert H. apply all_chars_impl. intros b. by apply is_letter_not.
  - revert H. apply all_chars_impl. intros b. by apply is_digit_not.
Qed.

Lemma valid_command_nonempty s : valid_command s = true → nonempty s = true.
Proof. by destruct s. Qed.

Lemma valid_command_not_colon s : valid_command s = true → starts_with colon s = false.
Proof.
  intros H. pose proof (valid_command_lacks colon s eq_refl eq_refl H) as Hc.
  destruct s as [|a s]; [done |]. rewrite lacks_cons in Hc.
  apply andb_prop in Hc as [Hc _]. simpl. by destruct (Ascii.eqb a colon).
Qed.

(** *** cut *)

Lemma cut_app c s t :
  lacks c s = true → cut c (s +:+ String c t) = (s, Some t).
Proof.
  induction s as [|a s IH]; intros H.
  - rewrite append_nil_l. simpl. by rewrite Ascii.eqb_refl.
  - rewrite lacks_cons in H. apply andb_prop in H as [Ha Hs].
    rewrite append_cons. simpl. apply negb_true_iff in Ha. rewrite Ha.
    by rewrite (IH Hs).
Qed.

Lemma cut_none c s : lacks c s = true → cut c s = (s, None).
Proof.
  induction s as [|a s IH]; intros H; [done |].
  rewrite lacks_cons in H. apply andb_prop in H as [Ha Hs].
  simpl. apply negb_true_iff in Ha. by rewrite Ha, (IH Hs).
Qed.

Lemma cut_lacks c s : lacks c (cut c s).1 = true.
Proof.
  induction s as [|a s IH]; [done |]. simpl.
  destruct (Ascii.eqb a c) eqn:Ha; [done |].
  destruct (cut c s) as [l r]. simpl in *. rewrite lacks_cons, Ha. done.
Qed.

Lemma cut_lacks_other c d s : lacks d s = true → lacks d (cut c s).1 = true.
Proof.
  induction s as [|a s IH]; [done |]. rewrite lacks_cons.
  intros [Ha Hs]%andb_prop. simpl.
  destruct (Ascii.eqb a c); [done |].
  specialize (IH Hs). destruct (cut c s) as [l r]. simpl in *.
  by rewrite lacks_cons, Ha, IH.
Qed.

Lemma cut_lacks_rest c d s t :
  lacks d s = true → (cut c s).2 = Some t → lacks d t = true.
Proof.
  induction s as [|a s IH]; [done |]. rewrite lacks_cons.
  intros [Ha Hs]%andb_prop. simpl.
  destruct (Ascii.eqb a c); [simpl; congruence |].
  specialize (IH Hs). destruct (cut c s) as [l r]. simpl in *. done.
Qed.

(** *** Origin *)

Lemma cut_name_none s :
  lacks bang s = true → lacks at_sign s = true → cut_name s = (s, None).
Proof.
  induction s as [|a s IH]; [done |]. rewrite !lacks_cons.
  intros [Ha Hs]%andb_prop [Hb Ht]%andb_prop. simpl.
  apply negb_true_iff in Ha, Hb. by rewrite Ha, Hb, (IH Hs Ht).
Qed.

Lemma cut_name_app s d t :
  lacks bang s = true → lacks at_sign s = true →
  Ascii.eqb d bang || Ascii.eqb d at_sign = true →
  cut_name (s +:+ String d t) = (s, Some (d, t)).
Proof.
  intros Hs Ht Hd. induction s as [|a s IH].
  - rewrite append_nil_l. simpl. by rewrite Hd.
  - rewrite lacks_cons in Hs, Ht.
    apply andb_prop in Hs as [Ha Hs]. apply andb_prop in Ht as [Hb Ht].
    rewrite append_cons. simpl. apply negb_true_iff in Ha, Hb.
    by rewrite Ha, Hb, (IH Hs Ht).
Qed.

Lemma cut_name_lacks s :
  lacks bang (cut_name s).1 = true ∧ lacks at_sign (cut_name s).1 = true.
Proof.
  induction s as [|a s IH]; [done |]. simpl.
  destruct (Ascii.eqb a bang) eqn:Ha, (Ascii.eqb a at_sign) eqn:Hb; simpl; try done.
  destruct (cut_name s) as [n r]. simpl in *. rewrite !lacks_cons, Ha, Hb. done.
Qed.

Lemma cut_name_lacks_other d s :
  lacks d s = true →
  lacks d (cut_name s).1 = true ∧
  ∀ x t, (cut_name s).2 = Some (x, t) → lacks d t = true.
Proof.
  induction s as [|a s IH]; [done |]. rewrite lacks_cons.
  intros [Ha Hs]%andb_prop. simpl.
  destruct (Ascii.eqb a bang || Ascii.eqb a at_sign).
  - simpl. split; [done |]. intros x t [= _ <-]. done.
  - destruct (IH Hs) as [IH1 IH2]. destruct (cut_name s) as [n r]. simpl in *.
    rewrite lacks_cons, Ha, IH1. done.
Qed.

Lemma ParsePrefix_wf o : lacks space o = true → wf_prefix (ParsePrefix o) = true.
Proof.
  intros Ho. unfold ParsePrefix, wf_prefix.
  pose proof (cut_name_lacks o) as [Hb Ha].
  pose proof (cut_name_lacks_other space o Ho) as [Hs Hr].
  destruct (cut_name o) as [name [[d rest]|]]; simpl in *.
  - specialize (Hr _ _ eq_refl).
    destruct (Ascii.eqb d bang).
    + pose proof (cut_lacks at_sign rest) as Hu.
      pose proof (cut_lacks_other at_sign space rest Hr) as Hus.
      pose proof (cut_lacks_rest at_sign space rest) as Hh.
      destruct (cut at_sign rest) as [user [host|]]; simpl in *.
      * rewrite Hs, Hb, Ha, Hus, Hu, (Hh host Hr eq_refl). done.
      * rewrite Hs, Hb, Ha, Hus, Hu. done.
    + simpl. rewrite Hs, Hb, Ha, Hr. done.
  - rewrite Hs, Hb, Ha. done.
Qed.

Lemma wf_prefix_fields p :
  wf_prefix p = true →
  lacks space (Prefix.Name p) = true ∧ lacks bang (Prefix.Name p) = true ∧
  lacks at_sign (Prefix.Name p) = true ∧ lacks space (Prefix.User p) = true ∧
  lacks at_sign (Prefix.User p) = true ∧ lacks space (Prefix.Host p) = true.
Proof.
  unfold wf_prefix. intros H.
  repeat (apply andb_prop in H as [H ?]). done.
Qed.

Lemma ParsePrefix_PrefixString p :
  wf_prefix p = true → ParsePrefix (PrefixString p) = p.
Proof.
  intros (Hns & Hnb & Hna & Hus & Hua & Hhs)%wf_prefix_fields.
  destruct p as [name user host]. simpl in *.
  unfold PrefixString, ParsePrefix. simpl.
  destruct user as [|u user]; destruct host as [|h host].
  - rewrite !append_nil_r. by rewrite cut_name_none.
  - rewrite append_nil_l. rewrite cut_name_app by done. done.
  - rewrite append_nil_r. rewrite cut_name_app by done.
    by rewrite (cut_none at_sign (String u user)).
  - change (String bang (String u user) +:+ String at_sign (String h host))
      with (String bang (String u user +:+ String at_sign (String h host))).
    rewrite cut_name_app by done.
    by rewrite (cut_app at_sign (String u user)).
Qed.

Lemma PrefixString_lacks_space p :
  wf_prefix p = true → lacks space (PrefixString p) = true.
Proof.
  intros (Hns & _ & _ & Hus & _ & Hhs)%wf_prefix_fields.
  unfold PrefixString. rewrite !lacks_app, Hns.
  destruct p as [name [|u user] [|h host]]; simpl in *;
    rewrite ?(lacks_cons space bang), ?(lacks_cons space at_sign), ?Hus, ?Hhs; done.
Qed.

(** *** Middle tokens *)

Lemma tokens_not_nil s : tokens s ≠ [].
Proof.
  destruct s as [|a s]; simpl; [done |].
  destruct (Ascii.eqb a space); [done |]. by destruct (tokens s).
Qed.

Lemma tokens_lacks s : Forall (λ t, lacks space t = true) (tokens s).
Proof.
  induction s as [|a s IH]; simpl.
  - by constructor.
  - destruct (Ascii.eqb a space) eqn:Ha.
    + by constructor.
    + destruct (tokens s) as [|t ts]; [by repeat constructor; rewrite lacks_cons, Ha |].
      inversion IH; subst. constructor; [|done].
      by rewrite lacks_cons, Ha.
Qed.

Lemma tokens_single t : lacks space t = true → tokens t = [t].
Proof.
  induction t as [|a t IH]; [done |]. rewrite lacks_cons.
  intros [Ha Ht]%andb_prop. simpl. apply negb_true_iff in Ha.
  by rewrite Ha, (IH Ht).
Qed.

Lemma tokens_app t s :
  lacks space t = true → tokens (t +:+ String space s) = t :: tokens s.
Proof.
  induction t as [|a t IH].
  - intros _. rewrite append_nil_l. simpl. done.
  - rewrite lacks_cons. intros [Ha Ht]%andb_prop.
    rewrite append_cons. simpl. apply negb_true_iff in Ha.
    by rewrite Ha, (IH Ht).
Qed.

Lemma token_fields p :
  token p = true →
  nonempty p = true ∧ lacks space p = true ∧ starts_with colon p = false.
Proof.
  unfold token. intros [[? ?]%andb_prop ?%negb_true_iff]%andb_prop. done.
Qed.

Lemma tokens_join cmd ps :
  lacks space cmd = true → forallb token ps = true →
  tokens (cmd +:+ join_params ps) = cmd :: ps.
Proof.
  revert cmd. induction ps as [|p ps IH]; intros cmd Hc Hps; simpl.
  - rewrite append_nil_r. by apply tokens_single.
  - simpl in Hps. apply andb_prop in Hps as [Hp Hps].
    apply token_fields in Hp as (_ & Hp & _).
    rewrite append_cons, tokens_app by done. by rewrite IH.
Qed.

Lemma filter_tokens ps :
  forallb token ps = true → List.filter nonempty ps = ps.
Proof.
  induction ps as [|p ps IH]; simpl; [done |].
  intros [Hp Hps]%andb_prop. apply token_fields in Hp as (-> & _ & _).
  by rewrite IH.
Qed.

Lemma fields_join cmd ps :
  nonempty cmd = true → lacks space cmd = true → forallb token ps = true →
  fields (cmd +:+ join_params ps) = cmd :: ps.
Proof.
  intros Hn Hc Hps. unfold fields. rewrite tokens_join by done.
  simpl. by rewrite Hn, filter_tokens.
Qed.

(** *** The trailing parameter *)

Lemma split_trailing_token t rest :
  lacks space t = true →
  split_trailing (t +:+ rest)
  = (t +:+ (split_trailing rest).1, (split_trailing rest).2).
Proof.
  induction t as [|a t IH].
  - intros _. rewrite !append_nil_l. by destruct (split_trailing rest).
  - rewrite lacks_cons. intros [Ha Ht]%andb_prop.
    apply negb_true_iff in Ha. specialize (IH Ht).
    rewrite !append_cons. simpl. rewrite Ha. simpl.
    destruct (t +:+ rest) as [|b u] eqn:E.
    + destruct t; [|discriminate]. rewrite append_nil_l in E. subst rest.
      done.
    + rewrite IH. done.
Qed.

Lemma split_trailing_space p rest :
  nonempty p = true → starts_with colon p = false →
  split_trailing (String space (p +:+ rest))
  = (String space (split_trailing (p +:+ rest)).1, (split_trailing (p +:+ rest)).2).
Proof.
  destruct p as [|a p]; [done |]. intros _ Ha. simpl in Ha.
  rewrite append_cons.
  change (split_trailing (String space (String a (p +:+ rest))))
    with (if Ascii.eqb space space && Ascii.eqb a colon then (EmptyString, Some (p +:+ rest))
          else let '(m, r) := split_trailing (String a (p +:+ rest)) in
               (String space m, r)).
  rewrite Ha, andb_false_r.
  by destruct (split_trailing (String a (p +:+ rest))).
Qed.

Lemma split_trailing_text t : split_trailing (trailing_text t) = (EmptyString, t).
Proof. by destruct t. Qed.

Lemma split_trailing_join ps t :
  forallb token ps = true →
  split_trailing (join_params ps +:+ trailing_text t) = (join_params ps, t).
Proof.
  induction ps as [|p ps IH].
  - intros _. rewrite append_nil_l. apply split_trailing_text.
  - intros [Hp Hps]%andb_prop. apply token_fields in Hp as (Hn & Hp & Hc).
    change (join_params (p :: ps)) with (String space p +:+ join_params ps).
    rewrite !append_cons, append_assoc, split_trailing_space by done.
    rewrite split_trailing_token by done. by rewrite (IH Hps).
Qed.

Lemma split_trailing_no_space_colon s :
  no_space_colon (split_trailing s).1 = true.
Proof.
  induction s as [|a s IH]; [done |]. simpl.
  destruct s as [|b u]; [done |].
  destruct (Ascii.eqb a space && Ascii.eqb b colon) eqn:E; [done |].
  destruct (split_trailing (String b u)) as [m r] eqn:Em. simpl in *.
  destruct m as [|b' m']; [done |].
  rewrite IH, andb_true_r.
  assert (b' = b) as ->; [|by rewrite E].
  simpl in Em. destruct u as [|c u'].
  - by injection Em as <- _.
  - destruct (Ascii.eqb b space && Ascii.eqb c colon); [discriminate |].
    destruct (split_trailing (String c u')). by injection Em as <- _.
Qed.

Lemma tokens_head_colon s :
  starts_with colon (hd EmptyString (tokens s)) = starts_with colon s.
Proof.
  destruct s as [|a s]; [done |]. simpl.
  destruct (Ascii.eqb_spec a space) as [->|]; [done |].
  by destruct (tokens s).
Qed.

Lemma tokens_tail_no_colon s :
  no_space_colon s = true →
  Forall (λ t, starts_with colon t = false) (tl (tokens s)).
Proof.
  induction s as [|a s IH]; simpl; [by constructor |].
  destruct s as [|b u] eqn:Es.
  - intros _. simpl. destruct (Ascii.eqb a space); by repeat constructor.
  - rewrite <- Es in *. intros [Hab Hs]%andb_prop. specialize (IH Hs).
    destruct (Ascii.eqb a space) eqn:Ha.
    + simpl. pose proof (tokens_head_colon s) as Hh.
      destruct (tokens s) as [|t ts]; [constructor |].
      simpl in *. constructor; [|done].
      rewrite Hh, Es. simpl. simpl in Hab. by destruct (Ascii.eqb b colon).
    + destruct (tokens s) as [|t ts]; [constructor | done].
Qed.

(** *** Round trip *)

Lemma wf_message_fields m :
  wf_message m = true →
  match Prefix m with Some p => wf_prefix p = true | None => True end
  ∧ valid_command (Command m) = true ∧ forallb token (Params m) = true.
Proof.
  unfold wf_message. intros [[Ho Hc]%andb_prop Hp]%andb_prop.
  split; [|done]. by destruct (Prefix m).
Qed.

Lemma parse_body cmd ps t :
  valid_command cmd = true → forallb token ps = true →
  split_trailing (cmd +:+ join_params ps +:+ trailing_text t)
  = (cmd +:+ join_params ps, t).
Proof.
  intros Hc Hps.
  rewrite split_trailing_token by (by apply valid_command_lacks).
  by rewrite split_trailing_join.
Qed.

Lemma ParseMessage_serialize m :
  wf_message m = true → ParseMessage (serialize m) = Some (wire m).
Proof.
  intros (Ho & Hc & Hps)%wf_message_fields.
  unfold serialize, ParseMessage. rewrite trim_line_endline.
  unfold MessageString. fold (trailing_text (Trailing m)).
  pose proof (valid_command_lacks space _ eq_refl eq_refl Hc) as Hsp.
  pose proof (valid_command_nonempty _ Hc) as Hne.
  destruct (Prefix m) as [p|] eqn:Ep.
  - rewrite !append_cons, append_assoc, append_cons, append_nil_l.
    change (Ascii.eqb colon colon) with true. cbv iota.
    rewrite cut_app by (by apply PrefixString_lacks_space).
    rewrite parse_body, fields_join, Hc by done.
    rewrite ParsePrefix_PrefixString by done. unfold wire. by rewrite Ep.
  - rewrite append_nil_l.
    pose proof (valid_command_not_colon _ Hc) as Hcol.
    destruct (Command m) as [|a cmd] eqn:Ec; [done |].
    rewrite append_cons. simpl in Hcol. rewrite Hcol.
    rewrite <- append_cons.
    rewrite parse_body, fields_join, Hc by done.
    unfold wire. by rewrite Ep, Ec.
Qed.

Lemma filter_nonempty_tokens ts :
  Forall (λ t, lacks space t = true) ts →
  Forall (λ t, starts_with colon t = false) ts →
  forallb token (List.filter nonempty ts) = true.
Proof.
  induction 1 as [|t ts Ht Hts IH]; [done |].
  inversion 1; subst. simpl.
  destruct (nonempty t) eqn:Hn; [|by apply IH].
  simpl. unfold token. rewrite Hn, Ht. simpl.
  apply andb_true_intro. split; [by apply negb_true_iff | by apply IH].
Qed.

Lemma fields_tokens middle cmd ps :
  no_space_colon middle = true →
  fields middle = cmd :: ps → forallb token ps = true.
Proof.
  intros Hm. unfold fields.
  pose proof (tokens_lacks middle) as Hl.
  pose proof (tokens_tail_no_colon middle Hm) as Hc.
  destruct (tokens middle) as [|t0 ts]; [done |].
  inversion Hl; subst. simpl in Hc.
  pose proof (filter_nonempty_tokens ts H2 Hc) as Hts.
  simpl. destruct (nonempty t0).
  - by intros [= _ <-].
  - intros E. rewrite E in Hts. simpl in Hts. by apply andb_prop in Hts as [_ ?].
Qed.

Lemma ParseMessage_wf raw m :
  ParseMessage raw = Some m → wf_message m = true ∧ wire m = m.
Proof.
  unfold ParseMessage.
  set (line := trim_line raw). clearbody line.
  intros H.
  assert (∃ origin rest,
    match origin with Some p => wf_prefix p = true | None => True end ∧
    (let '(middle, trailing) := split_trailing rest in
     match fields middle with
     | cmd :: params =>
         if valid_command cmd then
           Some {| Prefix := origin; Command := cmd; Params := params;
                   Trailing := trailing; Context := ∅ |}
         else None
     | [] => None
     end) = Some m) as (origin & rest & Ho & Hm).
  { destruct line as [|a body]; [by exists None, EmptyString|].
    destruct (Ascii.eqb a colon); [|by exists None, (String a body)].
    pose proof (cut_lacks space body) as Hcut.
    destruct (cut space body) as [o [rest|]]; [|done].
    exists (Some (ParsePrefix o)), rest. split; [|done].
    by apply ParsePrefix_wf. }
  clear H.
  pose proof (split_trailing_no_space_colon rest) as Hnsc.
  destruct (split_trailing rest) as [middle trailing]. simpl in Hnsc.
  destruct (fields middle) as [|cmd params] eqn:Ef; [done |].
  destruct (valid_command cmd) eqn:Hc; [|done].
  injection Hm as <-. split; [|done].
  unfold wf_message. simpl. rewrite Hc, (fields_tokens _ _ _ Hnsc Ef).
  by destruct origin as [p|]; [rewrite Ho|].
Qed.
End CodecFacts.

(** * Channels *)

Section chan_lemmas.
Context {A : Type}.
Implicit Types (σ : list (Chan A)) (r : option nat).

Lemma chan_send_Ok r v σ σ' :
  chan_send r v σ = Ok σ' →
  ∃ i ch, r = Some i ∧ σ !! i = Some ch ∧ ch_closed ch = false
          ∧ length (ch_buf ch) < ch_cap ch
          ∧ σ' = <[i := mkChan (ch_cap ch) (ch_buf ch ++ [v]) false (ch_hist ch ++ [v])]> σ.
Proof.
  unfold chan_send. destruct r as [i|]; [|done].
  destruct (σ !! i) as [ch|] eqn:E; [|done].
  destruct (ch_closed ch) eqn:Hc; [done |].
  destruct (Nat.ltb_spec (length (ch_buf ch)) (ch_cap ch)); [|done].
  intros [= <-]. by exists i, ch.
Qed.

Lemma chan_recv_Ok zero r σ v σ' :
  chan_recv zero r σ = Ok (v, σ') →
  ∃ i ch, r = Some i ∧ σ !! i = Some ch ∧
    ((∃ rest, ch_buf ch = v :: rest
        ∧ σ' = <[i := mkChan (ch_cap ch) rest (ch_closed ch) (ch_hist ch)]> σ)
     ∨ (ch_buf ch = [] ∧ ch_closed ch = true ∧ v = zero ∧ σ' = σ)).
Proof.
  unfold chan_recv. destruct r as [i|]; [|done].
  destruct (σ !! i) as [ch|] eqn:E; [|done].
  destruct (ch_buf ch) as [|w rest] eqn:Hb.
  - destruct (ch_closed ch) eqn:Hc; [|done]. intros [= <- <-].
    exists i, ch. by auto 10.
  - intros [= <- <-]. exists i, ch. split_and!; [done..|]. left. by exists rest.
Qed.

Lemma chan_close_Ok r σ σ' :
  chan_close r σ = Ok σ' →
  ∃ i ch, r = Some i ∧ σ !! i = Some ch ∧ ch_closed ch = false
          ∧ σ' = <[i := mkChan (ch_cap ch) (ch_buf ch) true (ch_hist ch)]> σ.
Proof.
  unfold chan_close. destruct r as [i|]; [|done].
  destruct (σ !! i) as [ch|] eqn:E; [|done].
  destruct (ch_closed ch) eqn:Hc; [done |].
  intros [= <-]. by exists i, ch.
Qed.

Lemma chan_send_ok r v σ σ' :
  chan_send r v σ = Ok σ' → Forall chan_ok σ → Forall chan_ok σ' ∧ length σ' = length σ.
Proof.
  intros (i & ch & -> & Hi & _ & Hlt & ->)%chan_send_Ok Hσ.
  rewrite length_insert. split; [|done].
  apply Forall_insert; [done |].
  destruct (Forall_lookup_1 _ _ _ _ Hσ Hi) as [Hcap Hlen].
  split; simpl; [done |]. rewrite length_app. simpl. lia.
Qed.

Lemma chan_recv_ok zero r σ v σ' :
  chan_recv zero r σ = Ok (v, σ') → Forall chan_ok σ →
  Forall chan_ok σ' ∧ length σ' = length σ.
Proof.
  intros (i & ch & -> & Hi & [(rest & Hb & ->)|(_ & _ & _ & ->)])%chan_recv_Ok Hσ;
    [|done].
  rewrite length_insert. split; [|done].
  apply Forall_insert; [done |].
  destruct (Forall_lookup_1 _ _ _ _ Hσ Hi) as [Hcap Hlen].
  split; simpl; [done |]. rewrite Hb in Hlen. simpl in Hlen. lia.
Qed.

Lemma chan_close_ok r σ σ' :
  chan_close r σ = Ok σ' → Forall chan_ok σ → Forall chan_ok σ' ∧ length σ' = length σ.
Proof.
  intros (i & ch & -> & Hi & _ & ->)%chan_close_Ok Hσ.
  rewrite length_insert. split; [|done].
  apply Forall_insert; [done |].
  by destruct (Forall_lookup_1 _ _ _ _ Hσ Hi).
Qed.

Lemma chan_make_ok σ :
  Forall chan_ok σ → Forall chan_ok (chan_make 1 σ).2.
Proof.
  intros Hσ. simpl. apply Forall_app. split; [done |].
  constructor; [|constructor]. split; simpl; lia.
Qed.

Lemma ref_ok_length r σ σ' : length σ ≤ length σ' → ref_ok r σ → ref_ok r σ'.
Proof. destruct r; simpl; [lia | done]. Qed.
End chan_lemmas.

(** * Every channel has capacity one *)

Ltac ok_frame :=
  match goal with
  | H : chans_ok _ |- chans_ok _ => destruct H; constructor; simpl; try done
  end.

Lemma chans_ok_goto tid t st : chans_ok st → chans_ok (goto tid t st).
Proof. intros H. ok_frame. Qed.

Lemma chans_ok_spawn t st : chans_ok st → chans_ok (spawn t st).
Proof. intros H. ok_frame. Qed.

Lemma chans_ok_emit tid e st : chans_ok st → chans_ok (emit tid e st).
Proof. intros H. ok_frame. Qed.

Lemma chans_ok_panic tid st : chans_ok st → chans_ok (panic tid st).
Proof. intros H. ok_frame. Qed.

Lemma chans_ok_set_l b st : chans_ok st → chans_ok (set_c (set_l b (c st)) st).
Proof. intros H. ok_frame. Qed.

Lemma chans_ok_set_schans σ st :
  Forall chan_ok σ → length (schans st) ≤ length σ →
  chans_ok st → chans_ok (set_schans σ st).
Proof. intros Hσ Hl H. ok_frame; by eapply ref_ok_length. Qed.

Lemma chans_ok_set_mchans σ st :
  Forall chan_ok σ → length (mchans st) ≤ length σ →
  chans_ok st → chans_ok (set_mchans σ st).
Proof. intros Hσ Hl H. ok_frame; by eapply ref_ok_length. Qed.

Lemma chans_ok_sig_send tid r next st : chans_ok st → chans_ok (sig_send tid r next st).
Proof.
  intros H. unfold sig_send.
  destruct (chan_send r tt (schans st)) as [σ| |] eqn:E;
    [|done|by apply chans_ok_panic].
  destruct (chan_send_ok _ _ _ _ E (ok_schans _ H)) as [Hσ Hl].
  apply chans_ok_goto, chans_ok_set_schans; [done | lia | done].
Qed.

Lemma chans_ok_sig_recv tid r next st : chans_ok st → chans_ok (sig_recv tid r next st).
Proof.
  intros H. unfold sig_recv.
  destruct (chan_recv tt r (schans st)) as [[v σ]| |] eqn:E;
    [|done|by apply chans_ok_panic].
  destruct (chan_recv_ok _ _ _ _ _ E (ok_schans _ H)) as [Hσ Hl].
  apply chans_ok_goto, chans_ok_set_schans; [done | lia | done].
Qed.

Lemma chans_ok_sig_close tid r next st : chans_ok st → chans_ok (sig_close tid r next st).
Proof.
  intros H. unfold sig_close.
  destruct (chan_close r (schans st)) as [σ| |] eqn:E;
    [|done|by apply chans_ok_panic].
  destruct (chan_close_ok _ _ _ E (ok_schans _ H)) as [Hσ Hl].
  apply chans_ok_goto, chans_ok_set_schans; [done | lia | done].
Qed.

Lemma chans_ok_msg_send tid r m next st : chans_ok st → chans_ok (msg_send tid r m next st).
Proof.
  intros H. unfold msg_send.
  destruct (chan_send r m (mchans st)) as [σ| |] eqn:E;
    [|done|by apply chans_ok_panic].
  destruct (chan_send_ok _ _ _ _ E (ok_mchans _ H)) as [Hσ Hl].
  apply chans_ok_goto, chans_ok_set_mchans; [done | lia | done].
Qed.

Lemma chans_ok_msg_close tid r next st : chans_ok st → chans_ok (msg_close tid r next st).
Proof.
  intros H. unfold msg_close.
  destruct (chan_close r (mchans st)) as [σ| |] eqn:E;
    [|done|by apply chans_ok_panic].
  destruct (chan_close_ok _ _ _ E (ok_mchans _ H)) as [Hσ Hl].
  apply chans_ok_goto, chans_ok_set_mchans; [done | lia | done].
Qed.

Lemma chans_ok_lock tid next st : chans_ok st → chans_ok (lock tid next st).
Proof.
  intros H. unfold lock. destruct (l (c st)); [done |].
  by apply chans_ok_goto, chans_ok_set_l.
Qed.

Lemma chans_ok_unlock tid next st : chans_ok st → chans_ok (unlock tid next st).
Proof.
  intros H. unfold unlock. destruct (l (c st)); [|by apply chans_ok_panic].
  by apply chans_ok_goto, chans_ok_set_l.
Qed.

Lemma chans_ok_Dial server r st :
  chans_ok st → chans_ok (set_c (Dial (c st) server r).1 st).
Proof. intros H. destruct r; ok_frame. Qed.

Create HintDb chans_ok.
#[local] Hint Resolve chans_ok_goto chans_ok_spawn chans_ok_emit chans_ok_panic
  chans_ok_sig_send chans_ok_sig_recv chans_ok_sig_close chans_ok_msg_send
  chans_ok_msg_close chans_ok_lock chans_ok_unlock chans_ok_Dial : chans_ok.

Lemma chans_ok_Keeper servers pc x tid st :
  chans_ok st → chans_ok (Keeper_step servers pc x tid st).
Proof.
  intros H. destruct pc; simpl; eauto with chans_ok.
  - destruct (Input (c st)); eauto with chans_ok.
  - apply chans_ok_goto. destruct H; constructor; simpl;
      rewrite ?length_app; simpl; try done; try lia;
      try (eapply ref_ok_length; [|done]; rewrite length_app; lia).
    by apply (chan_make_ok (mchans st)).
  - apply chans_ok_goto. destruct H; constructor; simpl;
      rewrite ?length_app; simpl; try done; try lia;
      try (eapply ref_ok_length; [|done]; rewrite length_app; lia).
    by apply (chan_make_ok (mchans st)).
  - apply chans_ok_goto. destruct H; constructor; simpl;
      rewrite ?length_app; simpl; try done; try lia;
      try (eapply ref_ok_length; [|done]; rewrite length_app; lia).
    by apply (chan_make_ok (schans st)).
  - apply chans_ok_goto. destruct H; constructor; simpl;
      rewrite ?length_app; simpl; try done; try lia;
      try (eapply ref_ok_length; [|done]; rewrite length_app; lia).
    by apply (chan_make_ok (schans st)).
  - destruct (rand_Intn x (length servers)); [|eauto with chans_ok].
    destruct (servers !! n); eauto with chans_ok.
  - destruct (x_dial x); simpl; apply chans_ok_goto, chans_ok_emit; ok_frame.
Qed.

Lemma chans_ok_Cleaner pc x tid st :
  chans_ok st → chans_ok (Cleaner_step pc x tid st).
Proof.
  intros H. destruct pc; simpl; eauto with chans_ok.
  destruct (conn (c st)); eauto with chans_ok.
Qed.

Lemma chans_ok_Sender pc x tid st :
  chans_ok st → chans_ok (Sender_step pc x tid st).
Proof.
  intros H. destruct pc; simpl.
  - assert (chans_ok
      match chan_recv zero_Message (Input (c st)) (mchans st) with
      | Ok (msg, σ) => goto tid (Sender (S37 msg)) (set_mchans σ st)
      | _ => st
      end) as Htake.
    { destruct (chan_recv zero_Message (Input (c st)) (mchans st)) as [[v σ]| |] eqn:E;
        [|done..].
      destruct (chan_recv_ok _ _ _ _ _ E (ok_mchans _ H)) as [Hσ Hl].
      apply chans_ok_goto, chans_ok_set_mchans; [done | lia | done]. }
    repeat case_match; eauto with chans_ok.
  - destruct (writer (c st)); eauto with chans_ok.
  - destruct (writer (c st)); eauto with chans_ok.
Qed.

Lemma chans_ok_Receiver pc x tid st :
  chans_ok st → chans_ok (Receiver_step pc x tid st).
Proof.
  intros H.
  assert (chans_ok
    match chan_send (Quit (c st)) tt (schans st) with
    | Ok σ => goto tid Exited (emit tid EvQuit (set_schans σ st))
    | Block => st
    | Panic => panic tid st
    end) as Hquit.
  { destruct (chan_send (Quit (c st)) tt (schans st)) as [σ| |] eqn:E;
      [|done|by apply chans_ok_panic].
    destruct (chan_send_ok _ _ _ _ E (ok_schans _ H)) as [Hσ Hl].
    apply chans_ok_goto, chans_ok_emit, chans_ok_set_schans; [done | lia | done]. }
  destruct pc; simpl; try done.
  - repeat case_match; eauto with chans_ok.
  - repeat case_match; eauto with chans_ok.
Qed.

Lemma chans_ok_step tid x st : chans_ok st → chans_ok (step tid x st).
Proof.
  intros H. unfold step. destruct (panicked st); [done |].
  destruct (threads st !! tid) as [[servers pc|pc|pc|pc|]|]; try done.
  - by apply chans_ok_Keeper.
  - by apply chans_ok_Cleaner.
  - by apply chans_ok_Sender.
  - by apply chans_ok_Receiver.
Qed.

Lemma run_invariant (P : State → Prop) :
  (∀ tid x st, P st → P (step tid x st)) →
  ∀ sched st, P st → P (run sched st).
Proof.
  intros Hstep sched. induction sched as [|[tid x] sched IH]; intros st H; simpl; [done |].
  by apply IH, Hstep.
Qed.

Lemma chans_ok_Setup network servers nick user realname :
  chans_ok (Setup network servers nick user realname).
Proof.
  constructor; simpl; try done; try lia.
  repeat constructor.
Qed.

(** * Which servers are dialled *)

Ltac unfold_ops :=
  unfold sig_send, sig_recv, sig_close, msg_send, msg_close, lock, unlock,
    goto, spawn, emit, panic, set_c, set_mchans, set_schans, set_threads in *.

Ltac dial_frame :=
  constructor; simpl;
  repeat first
    [ done
    | apply Forall_insert
    | apply Forall_app; split
    | apply Forall_cons; split
    | apply Forall_nil ].

Lemma dial_inv_step servers tid x st :
  dial_inv servers st → dial_inv servers (step tid x st).
Proof.
  intros [Ht Hτ]. unfold step. destruct (panicked st); [done |].
  destruct (threads st !! tid) as [t|] eqn:Et; [|done].
  pose proof (Forall_lookup_1 _ _ _ _ Ht Et) as Htid.
  destruct t as [srv pc|pc|pc|pc|]; [destruct Htid as [-> Hpc]| | | |done].
  - destruct pc; simpl; unfold_ops; repeat case_match; simplify_eq; dial_frame.
    all: try (eapply list_elem_of_lookup_2; eassumption).
    split; [done |]. eapply list_elem_of_lookup_2; eassumption.
  - destruct pc; simpl; unfold_ops; repeat case_match; dial_frame.
  - destruct pc; simpl; unfold_ops; repeat case_match; dial_frame.
  - destruct pc; simpl; unfold_ops; repeat case_match; dial_frame.
Qed.

Lemma dial_inv_Setup network servers nick user realname :
  dial_inv servers (Setup network servers nick user realname).
Proof. dial_frame. Qed.

Lemma dial_inv_run network servers nick user realname sched :
  dial_inv servers (run sched (Setup network servers nick user realname)).
Proof. apply run_invariant; [apply dial_inv_step | apply dial_inv_Setup]. Qed.

(** * Channel references *)

Section chan_get.
Context {A : Type}.
Implicit Types (σ : list (Chan A)).

Lemma chan_get_insert_eq i σ ch ch' :
  σ !! i = Some ch → chan_get (Some i) (<[i:=ch']> σ) = Some ch'.
Proof. intros H. simpl. apply list_lookup_insert_eq. by eapply lookup_lt_Some. Qed.

Lemma chan_get_insert_ne i j σ ch' :
  i ≠ j → chan_get (Some i) (<[j:=ch']> σ) = chan_get (Some i) σ.
Proof. intros H. simpl. by apply list_lookup_insert_ne. Qed.

Lemma chan_get_app r σ τ : ref_ok r σ → chan_get r (σ ++ τ) = chan_get r σ.
Proof. destruct r as [i|]; simpl; [|done]. intros H. by apply lookup_app_l. Qed.

Lemma chan_get_new σ ch : chan_get (Some (length σ)) (σ ++ [ch]) = Some ch.
Proof. simpl. by rewrite lookup_app_r, Nat.sub_diag. Qed.
End chan_get.

(** * Threads move on their own *)

Lemma step_other_thread tid tid' x st :
  tid' ≠ tid → tid' < length (threads st) →
  threads (step tid x st) !! tid' = threads st !! tid'.
Proof.
  intros Hne Hlt. unfold step. destruct (panicked st); [done |].
  destruct (threads st !! tid) as [[servers pc|pc|pc|pc|]|] eqn:Et; try done.
  all: destruct pc; simpl; unfold_ops; repeat case_match; simpl; try done.
  all: rewrite ?list_lookup_insert_ne by done; try done.
  all: by rewrite lookup_app_l.
Qed.

Lemma step_threads_length tid x st :
  length (threads st) ≤ length (threads (step tid x st)).
Proof.
  unfold step. destruct (panicked st); [done |].
  destruct (threads st !! tid) as [[servers pc|pc|pc|pc|]|] eqn:Et; try done.
  all: destruct pc; simpl; unfold_ops; repeat case_match; simpl; try done.
  all: rewrite ?length_insert, ?length_app; lia.
Qed.

Lemma step_trace tid x st :
  ∃ evs, trace (step tid x st) = trace st ++ evs ∧ Forall (λ e, e.1 = tid) evs.
Proof.
  unfold step. destruct (panicked st); [by exists []; rewrite app_nil_r |].
  destruct (threads st !! tid) as [[servers pc|pc|pc|pc|]|] eqn:Et;
    try (by exists []; rewrite app_nil_r).
  all: destruct pc; simpl; unfold_ops; repeat case_match; simpl.
  all: try (by exists []; rewrite app_nil_r).
  all: by eexists [_]; split; [reflexivity | repeat constructor].
Qed.

Lemma reads_by_step tid tid' x st :
  tid' ≠ tid → reads_by tid' (trace (step tid x st)) = reads_by tid' (trace st).
Proof.
  intros Hne. destruct (step_trace tid x st) as (evs & -> & Hevs).
  unfold reads_by. rewrite List.filter_app.
  assert (List.filter (is_read_by tid') evs = []) as ->; [|by rewrite app_nil_r].
  induction Hevs as [|[t e] evs Ht _ IH]; [done |]. simpl in *. subst t.
  destruct e; try done.
  by destruct (Nat.eqb_spec tid tid'); [congruence |].
Qed.

(** * A failing Receiver *)

Lemma quitting_step tid tid' x st :
  quitting tid st →
  quitting tid (step tid' x st)
  ∧ reads_by tid (trace (step tid' x st)) = reads_by tid (trace st).
Proof.
  intros Hq. destruct (decide (tid' = tid)) as [->|Hne].
  - assert (Hsend : ∀ pc, pc = R54 ∨ pc = R62 →
      threads st !! tid = Some (Receiver pc) →
      quitting tid (Receiver_step pc x tid st)
      ∧ reads_by tid (trace (Receiver_step pc x tid st)) = reads_by tid (trace st)).
    { intros pc Hpc Et.
      assert (Hlt : tid < length (threads st)) by by eapply lookup_lt_Some.
      assert (Receiver_step pc x tid st =
        match chan_send (Quit (c st)) tt (schans st) with
        | Ok σ => goto tid Exited (emit tid EvQuit (set_schans σ st))
        | Block => st
        | Panic => panic tid st
        end) as -> by by destruct Hpc as [-> | ->].
      destruct (chan_send _ _ _) as [σ| |].
      - split.
        + right; right. simpl. split; [by apply list_lookup_insert_eq |].
          apply elem_of_app. right. by apply list_elem_of_singleton.
        + simpl. unfold reads_by. rewrite List.filter_app. simpl.
          by rewrite app_nil_r.
      - split; [|done]. destruct Hpc as [-> | ->]; [by left | by right; left].
      - split.
        + simpl. destruct Hpc as [-> | ->]; [by left | by right; left].
        + simpl. unfold reads_by. rewrite List.filter_app. simpl.
          by rewrite app_nil_r. }
    unfold step. destruct (panicked st); [done |].
    destruct Hq as [Et|[Et|[Et Hin]]]; rewrite Et.
    + apply Hsend; auto.
    + apply Hsend; auto.
    + split; [|done]. by right; right.
  - assert (∀ t, threads st !! tid = Some t →
              threads (step tid' x st) !! tid = Some t) as Hkeep.
    { intros t Et. rewrite step_other_thread; [done..|]. by eapply lookup_lt_Some. }
    split; [|by apply reads_by_step].
    destruct (step_trace tid' x st) as (evs & Hevs & _).
    destruct Hq as [Et|[Et|[Et Hin]]].
    + left. by apply Hkeep.
    + right; left. by apply Hkeep.
    + right; right. split; [by apply Hkeep |].
      rewrite Hevs. apply elem_of_app. by left.
Qed.

Lemma quitting_run tid sched st :
  quitting tid st →
  quitting tid (run sched st)
  ∧ reads_by tid (trace (run sched st)) = reads_by tid (trace st).
Proof.
  revert st. induction sched as [|[tid' x] sched IH]; intros st Hq; simpl; [done |].
  destruct (quitting_step tid tid' x st Hq) as [Hq' Hr].
  destruct (IH _ Hq') as [Hq'' Hr']. split; [done | congruence].
Qed.

(** * The session with its collaborators *)

Lemma play_invariant (P : State → Prop) :
  (∀ a st, P st → P (act a st)) →
  ∀ acts st, P st → P (play acts st).
Proof.
  intros Hact acts. induction acts as [|a acts IH]; intros st H; simpl; [done |].
  by apply IH, Hact.
Qed.

Lemma run_play sched st : run sched st = play (roles sched) st.
Proof.
  revert st. induction sched as [|[tid x] sched IH]; intros st; simpl; [done |].
  apply IH.
Qed.



(** * The claims *)

Import Codec.

Lemma dials_Forall servers τ :
  Forall (event_dials servers) τ → Forall (λ d, d.1 ∈ servers) (dials τ).
Proof.
  induction 1 as [|[tid e] τ He _ IH]; [by constructor |].
  unfold dials in *. simpl. apply Forall_app. split; [|done].
  unfold event_dials in He. simpl in He. destruct e; simpl; by repeat constructor.
Qed.


(** ** C1: a failed dial *)

(** C1, as stated, fails.  In the session [freenode] the second dial is
    refused.  The Keeper finishes its cycle and waits at line 96 with
    the reconnect channel empty: no step of its own is possible, no
    retry is scheduled and no delay is taken.  Once the Receiver has
    failed on the stale reader and the Cleaner has run, the next attempt
    dials the same first server of the pool again. *)
Lemma failed_dial_schedules_no_retry :
  let st := run (first_connection ++ teardown 2 3 ++ failed_dial ++ after_dial 4) freenode in
  dials (trace st) = [("a.example:6667", inl 7); ("a.example:6667", inr refused)]
  ∧ threads st !! 0 = Some (Keeper pool K96)
  ∧ chan_get (reconnect (c st)) (schans st) = Some (mkChan 1 [] false [tt; tt])
  ∧ (∀ x, step 0 x st = st)
  ∧ dials (trace (run (teardown 4 5 ++ failed_dial) st))
    = [("a.example:6667", inl 7); ("a.example:6667", inr refused);
       ("a.example:6667", inr refused)].
Proof. vm_compute. split_and!; reflexivity. Qed.

(** C1, amended.  Every dial goes to a server of the pool, the one at
    the index drawn by [rand.Intn(len(servers))].  When the dial fails,
    the Keeper drops the error and goes on to line 111: nothing but its
    program point and the trace changes, so nothing is returned to the
    caller of Setup and nothing is put on the reconnect channel.  The
    next attempt waits at line 96 for a reconnect request. *)
Theorem failed_dial_is_dropped network servers nick user realname :
  (∀ sched,
     Forall (λ d, d.1 ∈ servers)
       (dials (trace (run sched (Setup network servers nick user realname)))))
  ∧ (∀ st tid x,
       panicked st = false → threads st !! tid = Some (Keeper servers K108) →
       servers ≠ [] →
       ∃ server, servers !! (x_rand x mod length servers) = Some server
         ∧ step tid x st
           = goto tid (Keeper servers (K110 server)) (emit tid (EvSelect server) st))
  ∧ (∀ st tid server x e,
       panicked st = false → threads st !! tid = Some (Keeper servers (K110 server)) →
       x_dial x = inr e →
       step tid x st = goto tid (Keeper servers K111) (emit tid (EvDial server (inr e)) st))
  ∧ (∀ st tid x q,
       threads st !! tid = Some (Keeper servers K96) →
       chan_get (reconnect (c st)) (schans st) = Some q →
       ch_buf q = [] → ch_closed q = false →
       step tid x st = st).
Proof.
  split_and!.
  - intros sched. apply dials_Forall. by destruct (dial_inv_run network servers nick user realname sched).
  - intros st tid x Hp Et Hne. unfold step. rewrite Hp, Et. simpl. unfold rand_Intn.
    destruct servers as [|s0 servers']; [done |].
    change (Nat.eqb (length (s0 :: servers')) 0) with false. cbv iota.
    destruct ((s0 :: servers') !! (x_rand x mod length (s0 :: servers'))) as [server|] eqn:E.
    + by exists server.
    + apply lookup_ge_None in E.
      pose proof (Nat.mod_upper_bound (x_rand x) (length (s0 :: servers'))) as Hb.
      simpl in *. lia.
  - intros st tid server x e Hp Et Hx. unfold step. rewrite Hp, Et. simpl.
    rewrite Hx. simpl. by destruct st.
  - intros st tid x q Et Hq Hb Hc. unfold step.
    destruct (panicked st); [done |]. rewrite Et. simpl. unfold sig_recv, chan_recv.
    destruct (reconnect (c st)) as [i|]; [|done]. simpl in Hq.
    by rewrite Hq, Hb, Hc.
Qed.

Lemma failed_dial_is_dropped_witness :
  let st := run (replicate 8 (0, x_down)) freenode in
  threads st !! 0 = Some (Keeper pool (K110 "a.example:6667"))
  ∧ step 0 x_down st
    = goto 0 (Keeper pool K111) (emit 0 (EvDial "a.example:6667" (inr refused)) st).
Proof.
  split; [vm_compute; reflexivity |].
  refine (proj1 (proj2 (proj2 (failed_dial_is_dropped
            "freenode" pool "gorepost" "repost" "Go Repost")))
            (run (replicate 8 (0, x_down)) freenode) 0 "a.example:6667" x_down refused
            _ _ _); vm_compute; reflexivity.
Defined.

(** ** C2: a failed write *)

Lemma chan_recv_hist {A} (zero : A) r (σ σ' : list (Chan A)) v :
  chan_recv zero r σ = Ok (v, σ') → ch_hist <$> σ' = ch_hist <$> σ.
Proof.
  intros (i & ch & -> & Hi & [(rest & Hb & ->)|(_ & _ & _ & ->)])%chan_recv_Ok;
    [|done].
  rewrite list_fmap_insert. simpl. apply list_insert_id.
  by rewrite list_lookup_fmap, Hi.
Qed.

Lemma Sender_never_signals pc x tid st :
  ch_hist <$> schans (Sender_step pc x tid st) = ch_hist <$> schans st.
Proof.
  destruct pc; simpl.
  - assert (ch_hist <$> schans (sig_recv tid (quitsend (c st)) Exited st)
            = ch_hist <$> schans st) as Hquit.
    { unfold sig_recv.
      destruct (chan_recv tt (quitsend (c st)) (schans st)) as [[v σ]| |] eqn:E;
        [|done..].
      simpl. by eapply chan_recv_hist. }
    destruct (chan_recv zero_Message (Input (c st)) (mchans st)) as [[v σ]| |];
      repeat case_match; done.
  - by destruct (writer (c st)).
  - by destruct (writer (c st)).
Qed.

(** C2 does not hold of the Sender.  When [WriteString] or [Flush]
    fails, the Sender drops the error and goes on, from line 37 to
    line 39 and from there back to its [select]; no step of a Sender
    ever sends on a signal channel, the Quit channel included.  In the
    session [freenode], once connected, the Sender takes NICK from the
    queue and both calls fail: the Sender is back at line 35 and the
    Quit channel has never held a value. *)
Theorem Sender_drops_write_errors :
  (∀ st tid w x err,
     panicked st = false → writer (c st) = Some w → x_write x = Some err →
     (∀ msg, threads st !! tid = Some (Sender (S37 msg)) →
        step tid x st
        = goto tid (Sender S39)
            (emit tid (EvWriteString w (MessageString msg +:+ endline) (Some err)) st))
     ∧ (threads st !! tid = Some (Sender S39) →
        step tid x st = goto tid (Sender S35) (emit tid (EvFlush w (Some err)) st)))
  ∧ (∀ st tid pc x,
       threads st !! tid = Some (Sender pc) →
       ch_hist <$> schans (step tid x st) = ch_hist <$> schans st)
  ∧ (let st := run (replicate 13 (0, x_up)) freenode in
     let st' := run (replicate 3 (2, x_down)) st in
     threads st !! 2 = Some (Sender S35)
     ∧ trace st'
       = trace st
         ++ [(2, EvWriteString (NewWriter 7) (MessageString (NICK "gorepost") +:+ endline)
                   (Some epipe));
             (2, EvFlush (NewWriter 7) (Some epipe))]
     ∧ threads st' !! 2 = Some (Sender S35)
     ∧ chan_get (Quit (c st')) (schans st') = Some (mkChan 1 [] false [])
     ∧ panicked st' = false).
Proof.
  split_and!.
  - intros st tid w x err Hp Hw Hx. split.
    + intros msg Et. unfold step. by rewrite Hp, Et; simpl; rewrite Hw, Hx.
    + intros Et. unfold step. by rewrite Hp, Et; simpl; rewrite Hw, Hx.
  - intros st tid pc x Et. unfold step. destruct (panicked st); [done |].
    rewrite Et. apply Sender_never_signals.
  - vm_compute. split_and!; reflexivity.
Qed.

Lemma Sender_drops_write_errors_witness :
  let st := run (replicate 13 (0, x_up) ++ [(2, x_down)]) freenode in
  threads st !! 2 = Some (Sender (S37 (NICK "gorepost")))
  ∧ step 2 x_down st
    = goto 2 (Sender S39)
        (emit 2 (EvWriteString (NewWriter 7) (MessageString (NICK "gorepost") +:+ endline)
                   (Some epipe)) st).
Proof.
  split; [vm_compute; reflexivity |].
  refine (proj1 (proj1 Sender_drops_write_errors
            (run (replicate 13 (0, x_up) ++ [(2, x_down)]) freenode)
            2 (NewWriter 7) x_down epipe _ _ _) (NICK "gorepost") _);
    vm_compute; reflexivity.
Defined.

(** ** C3: registration *)

Lemma dials_app_other τ tid e :
  (∀ s r, e ≠ EvDial s r) → dials (τ ++ [(tid, e)]) = dials τ.
Proof.
  intros He. unfold dials. rewrite flat_map_app. simpl.
  destruct e; rewrite ?app_nil_r; try done. by destruct (He server r).
Qed.

Ltac stalled_frame :=
  split;
  [ constructor; simpl;
    rewrite ?list_lookup_insert_ne by congruence;
    first [ done | by apply Forall_insert | idtac ]
  | simpl; rewrite ?dials_app_other by done; done ].

Lemma stalled_step servers i q tid x st :
  stalled servers i q st →
  stalled servers i q (step tid x st)
  ∧ dials (trace (step tid x st)) = dials (trace st).
Proof.
  intros Hst. pose proof Hst as [HK Ho HI HO Hq Hc Hf].
  unfold step. destruct (panicked st) eqn:Hp; [done |].
  destruct st as [c0 mch sch [|k rest] τ pan]; simplify_eq/=.
  rewrite drop_0 in Ho.
  destruct tid as [|n]; simpl.
  - (* the Keeper, line 121 *)
    unfold msg_send, chan_send. simpl. rewrite HI, Hq, Hc.
    by destruct (Nat.ltb_spec (length (ch_buf q)) (ch_cap q)); [lia |].
  - destruct (rest !! n) as [t|] eqn:En; [|done].
    pose proof (Forall_lookup_1 _ _ _ _ Ho En) as Ht.
    destruct t as [| pc | | pc |]; try done.
    + (* the Cleaner *)
      destruct pc; simpl; unfold_ops; simpl; repeat case_match; simplify_eq/=;
        stalled_frame.
    + (* a Receiver *)
      destruct pc; simpl; unfold_ops; simpl; repeat case_match; simplify_eq/=;
        try stalled_frame.
      all: match goal with
           | H : chan_send (Output _) _ _ = Ok _ |- _ =>
               apply chan_send_Ok in H as (o & ch & Eo & _ & _ & _ & ->)
           end.
      all: assert (o ≠ i) by congruence.
      all: by rewrite list_lookup_insert_ne.
Qed.

Lemma stalled_collab servers i q op st :
  stalled servers i q st →
  stalled servers i q (collab_step op st)
  ∧ dials (trace (collab_step op st)) = dials (trace st).
Proof.
  intros Hst. pose proof Hst as [HK Ho HI HO Hq Hc Hf].
  unfold collab_step. destruct (panicked st) eqn:Hp; [done |].
  destruct op as [m| |].
  - (* c.Input <- m *)
    unfold chan_send. rewrite HI, Hq, Hc.
    by destruct (Nat.ltb_spec (length (ch_buf q)) (ch_cap q)); [lia |].
  - (* <-c.Output *)
    destruct (chan_recv _ _ _) as [[v σ]| |] eqn:E; try done.
    apply chan_recv_Ok in E as (o & ch & Eo & _ & [(r & _ & ->)|(_ & _ & _ & ->)]).
    + assert (o ≠ i) by congruence. stalled_frame.
    + by destruct st.
  - (* c.Quit <- struct{}{} *)
    destruct (chan_send _ _ _); [stalled_frame | done | stalled_frame].
Qed.

(** C3 does not hold of the Keeper.  After a successful dial it starts
    the Sender and the Receiver and only then enqueues NICK and USER, on
    a queue of capacity one (lines 113 to 125).  When the Sender takes
    its stop signal before it has taken NICK, nothing is left that takes
    from [c.Input]: the Keeper waits at line 121 for ever, USER is never
    enqueued and no further dial is made, whatever the roles and the
    collaborators do.  In the session [freenode] this happens when the
    first read of the Receiver fails: the queue has received NICK alone.
    Nor do the two messages come before application traffic: a message
    that a collaborator submits between line 104 and line 117 is
    enqueued, and written, before NICK. *)
Theorem registration_can_stall :
  (∀ servers i q st acts,
     stalled servers i q st →
     stalled servers i q (play acts st)
     ∧ dials (trace (play acts st)) = dials (trace st))
  ∧ (let st := run stalled_registration freenode in
     dials (trace st) = [("a.example:6667", inl 7)]
     ∧ threads st = [Keeper pool K121; Cleaner C85; Exited; Exited]
     ∧ chan_get (Input (c st)) (mchans st)
       = Some (mkChan 1 [NICK "gorepost"] false [NICK "gorepost"])
     ∧ panicked st = false)
  ∧ (let st := play early_traffic freenode in
     ∃ q, chan_get (Input (c st)) (mchans st) = Some q
          ∧ ch_hist q = [privmsg; NICK "gorepost"; USER "repost" "Go Repost"]
          ∧ (2, EvWriteString (NewWriter 7) (MessageString privmsg +:+ endline) None)
            ∈ trace st).
Proof.
  split_and!.
  - intros servers i q st acts Hst.
    apply (play_invariant
             (λ st', stalled servers i q st' ∧ dials (trace st') = dials (trace st)));
      [|done].
    intros [tid x|op] st' [H E]; simpl.
    + destruct (stalled_step servers i q tid x st' H). split; [done | congruence].
    + destruct (stalled_collab servers i q op st' H). split; [done | congruence].
  - vm_compute. split_and!; reflexivity.
  - eexists. split; [vm_compute; reflexivity |]. split; [vm_compute; reflexivity |].
    vm_compute. set_solver.
Qed.

Lemma registration_can_stall_witness :
  let q := mkChan 1 [NICK "gorepost"] false [NICK "gorepost"] in
  let st := run stalled_registration freenode in
  stalled pool 0 q st
  ∧ stalled pool 0 q (play after_stall st)
  ∧ dials (trace (play after_stall st)) = dials (trace st).
Proof.
  assert (H : stalled pool 0 (mkChan 1 [NICK "gorepost"] false [NICK "gorepost"])
                (run stalled_registration freenode)).
  { constructor; vm_compute;
      first [reflexivity | by repeat constructor | congruence | lia]. }
  split; [exact H |].
  exact (proj1 registration_can_stall pool 0 _ _ after_stall H).
Defined.

(** ** C4: parse, then serialize *)

(** C4.  A line that parses is wire-equivalent to the serialization of
    its message: parsing that serialization gives the same message
    back, with the same origin, command, parameters in order and
    trailing parameter (its presence included). *)
Theorem serialize_parse_wire_equivalent (L : string) (m : Message) :
  ParseMessage L = Some m →
  ParseMessage (serialize m) = Some m.
Proof.
  intros [Hwf Hw]%CodecFacts.ParseMessage_wf.
  rewrite CodecFacts.ParseMessage_serialize by done. by rewrite Hw.
Qed.

Lemma serialize_parse_wire_equivalent_witness :
  ParseMessage privmsg_line = Some privmsg
  ∧ ParseMessage (serialize privmsg) = Some privmsg.
Proof.
  split; [vm_compute; reflexivity |].
  apply (serialize_parse_wire_equivalent privmsg_line privmsg). vm_compute; reflexivity.
Defined.

(** ** C5: a failing Receiver *)

(** C5.  When the read or the decoding of a line fails, the Receiver
    goes to line 54 or 62.  Whatever runs next, it reads no further
    line: it waits there to send on the Quit channel, or has sent and
    returned.  The send goes through as soon as the channel has room. *)
Theorem Receiver_failure_is_fatal st tid x :
  panicked st = false →
  threads st !! tid = Some (Receiver R50) →
  is_Some (reader (c st)) →
  read_fails x = true →
  let st1 := step tid x st in
  (threads st1 !! tid = Some (Receiver R54) ∨ threads st1 !! tid = Some (Receiver R62))
  ∧ (∀ sched,
       reads_by tid (trace (run sched st1)) = reads_by tid (trace st1)
       ∧ quitting tid (run sched st1))
  ∧ (∀ x' q,
       chan_get (Quit (c st1)) (schans st1) = Some q →
       ch_closed q = false → length (ch_buf q) < ch_cap q →
       let st2 := step tid x' st1 in
       threads st2 !! tid = Some Exited
       ∧ (tid, EvQuit) ∈ trace st2
       ∧ chan_get (Quit (c st2)) (schans st2)
         = Some (mkChan (ch_cap q) (ch_buf q ++ [tt]) false (ch_hist q ++ [tt]))).
Proof.
  intros Hp Et [rd Hrd] Hx st1.
  assert (Hlt : tid < length (threads st)) by by eapply lookup_lt_Some.
  assert (∃ pc, (pc = R54 ∨ pc = R62)
            ∧ st1 = goto tid (Receiver pc) (emit tid (EvRead (x_read x)) st))
    as (pc & Hpc & E1).
  { unfold st1, step. rewrite Hp, Et. simpl. rewrite Hrd.
    unfold read_fails in Hx. destruct (x_read x) as [raw|e].
    - destruct (ParseMessage raw); [done |]. exists R62. by split; [right |].
    - exists R54. by split; [left |]. }
  assert (Et1 : threads st1 !! tid = Some (Receiver pc)).
  { rewrite E1. simpl. by apply list_lookup_insert_eq. }
  assert (Hq1 : quitting tid st1).
  { destruct Hpc as [-> | ->]; [by left | by right; left]. }
  split_and!.
  - by destruct Hpc as [-> | ->]; [left | right].
  - intros sched. destruct (quitting_run tid sched st1 Hq1). done.
  - intros x' q Hq Hc Hb st2.
    assert (Hp1 : panicked st1 = false) by by rewrite E1.
    destruct (Quit (c st1)) as [i|] eqn:EQ; [|done]. simpl in Hq.
    assert (Hi : i < length (schans st1)) by by eapply lookup_lt_Some.
    assert (st2 = goto tid Exited (emit tid EvQuit
              (set_schans (<[i:=mkChan (ch_cap q) (ch_buf q ++ [tt]) false
                                 (ch_hist q ++ [tt])]> (schans st1)) st1))) as ->.
    { unfold st2, step. rewrite Hp1, Et1.
      apply Nat.ltb_lt in Hb.
      destruct Hpc as [-> | ->]; simpl; unfold chan_send;
        by rewrite EQ, Hq, Hc, Hb. }
    simpl. rewrite EQ. simpl. split_and!.
    + apply list_lookup_insert_eq. rewrite E1. simpl. by rewrite length_insert.
    + apply elem_of_app. right. by apply list_elem_of_singleton.
    + by apply list_lookup_insert_eq.
Qed.

Lemma Receiver_failure_is_fatal_witness :
  let st := run first_connection freenode in
  let st1 := step 3 x_down st in
  threads st !! 3 = Some (Receiver R50)
  ∧ ∀ sched,
      reads_by 3 (trace (run sched st1)) = reads_by 3 (trace st1)
      ∧ quitting 3 (run sched st1).
Proof.
  split; [vm_compute; reflexivity |].
  refine (proj1 (proj2 (Receiver_failure_is_fatal
            (run first_connection freenode) 3 x_down _ _ _ _))).
  - vm_compute; reflexivity.
  - vm_compute; reflexivity.
  - exists (NewReader 7). vm_compute; reflexivity.
  - vm_compute; reflexivity.
Defined.

(** ** C6: an empty server pool *)



(** ** C7: serialize, then parse *)

(** C7.  For a well-formed message, parsing its serialization gives its
    trailing parameter back: exactly the same text when it contains a
    space, the empty text when it is empty, and none when it is
    absent. *)
Theorem parse_serialize_trailing (m : Message) :
  wf_message m = true →
  (∀ t, Trailing m = Some t → contains space t = true →
        Trailing <$> ParseMessage (serialize m) = Some (Some t))
  ∧ (Trailing m = Some EmptyString → Trailing <$> ParseMessage (serialize m) = Some (Some EmptyString))
  ∧ (Trailing m = None → Trailing <$> ParseMessage (serialize m) = Some None).
Proof.
  intros Hwf. rewrite CodecFacts.ParseMessage_serialize by done. simpl.
  split; [|split]; intros; congruence.
Qed.

Lemma parse_serialize_trailing_witness :
  wf_message privmsg = true
  ∧ contains space "hello  there" = true
  ∧ Trailing <$> ParseMessage (serialize privmsg) = Some (Some "hello  there").
Proof.
  split; [vm_compute; reflexivity |]. split; [vm_compute; reflexivity |].
  refine (proj1 (parse_serialize_trailing privmsg _) "hello  there" _ _);
    vm_compute; reflexivity.
Defined.

(** ** C8: a pool of one server *)

(** C8.  With a pool of exactly one server, every dial attempt of every
    run goes to that server. *)
Theorem single_server_always_dialled network server nick user realname sched :
  Forall (λ d, d.1 = server)
    (dials (trace (run sched (Setup network [server] nick user realname)))).
Proof.
  destruct (dial_inv_run network [server] nick user realname sched) as [_ Hτ].
  apply dials_Forall in Hτ. eapply Forall_impl; [exact Hτ |].
  intros d Hd. by apply list_elem_of_singleton in Hd.
Qed.

(** ** C9: Dial *)

(** C9.  When the TCP dial fails, Dial returns the error and the
    Connection is as before: [conn], [reader] and [writer] keep their
    values, those of the previous generation or nil.  When it succeeds,
    the three are assigned from the new socket and no error is
    returned.  So the Keeper's call at line 110 leaves the Connection of
    the running session untouched when the dial fails. *)
Theorem Dial_atomic_on_error (c0 : Connection) (server : string) :
  (∀ err,
     (Dial c0 server (inr err)).2 = Some err
     ∧ (Dial c0 server (inr err)).1 = c0
     ∧ conn (Dial c0 server (inr err)).1 = conn c0
     ∧ reader (Dial c0 server (inr err)).1 = reader c0
     ∧ writer (Dial c0 server (inr err)).1 = writer c0)
  ∧ (∀ k,
       (Dial c0 server (inl k)).2 = None
       ∧ conn (Dial c0 server (inl k)).1 = Some k
       ∧ reader (Dial c0 server (inl k)).1 = Some (NewReader k)
       ∧ writer (Dial c0 server (inl k)).1 = Some (NewWriter k))
  ∧ (∀ st tid servers x err,
       c st = c0 → panicked st = false →
       threads st !! tid = Some (Keeper servers (K110 server)) →
       x_dial x = inr err →
       c (step tid x st) = c0).
Proof.
  split_and!.
  - intros err. simpl. by split_and!.
  - intros k. simpl. by split_and!.
  - intros st tid servers x err Hc Hp Et Hx. unfold step.
    rewrite Hp, Et. simpl. by rewrite Hx.
Qed.

Lemma Dial_atomic_on_error_witness :
  let st := run (first_connection ++ teardown 2 3 ++ replicate 12 (0, x_down)) freenode in
  threads st !! 0 = Some (Keeper pool (K110 "a.example:6667"))
  ∧ conn (c st) = Some 7
  ∧ c (step 0 x_down st) = c st.
Proof.
  split; [vm_compute; reflexivity |]. split; [vm_compute; reflexivity |].
  refine (proj2 (proj2 (Dial_atomic_on_error
            (c (run (first_connection ++ teardown 2 3 ++ replicate 12 (0, x_down)) freenode))
            "a.example:6667"))
            (run (first_connection ++ teardown 2 3 ++ replicate 12 (0, x_down)) freenode)
            0 pool x_down refused _ _ _ _); vm_compute; reflexivity.
Defined.

(** ** C10: channel capacity *)

(** C10.  In every reachable state every channel of the store, made by
    Setup or by the Keeper, has capacity one and holds at most one
    value; the channel fields of the Connection are nil or refer to
    such a channel. *)
Theorem channels_have_capacity_one network servers nick user realname sched :
  let st := run sched (Setup network servers nick user realname) in
  Forall (λ ch, ch_cap ch = 1 ∧ length (ch_buf ch) ≤ 1) (mchans st)
  ∧ Forall (λ ch, ch_cap ch = 1 ∧ length (ch_buf ch) ≤ 1) (schans st)
  ∧ Forall (λ r, r = None ∨ ∃ ch, chan_get r (mchans st) = Some ch ∧ ch_cap ch = 1)
      [Input (c st); Output (c st)]
  ∧ Forall (λ r, r = None ∨ ∃ ch, chan_get r (schans st) = Some ch ∧ ch_cap ch = 1)
      [reconnect (c st); Quit (c st); quitsend (c st); quitrecv (c st)].
Proof.
  intros st.
  assert (Hok : chans_ok st).
  { apply run_invariant; [apply chans_ok_step | apply chans_ok_Setup]. }
  assert (Href : ∀ A (σ : list (Chan A)) r,
            Forall chan_ok σ → ref_ok r σ →
            r = None ∨ ∃ ch, chan_get r σ = Some ch ∧ ch_cap ch = 1).
  { intros A σ [i|] Hσ Hr; [|by left]. right. simpl in *.
    destruct (lookup_lt_is_Some_2 σ i Hr) as [ch Hch]. exists ch. split; [done |].
    by destruct (Forall_lookup_1 _ _ _ _ Hσ Hch). }
  destruct Hok. split_and!;
    [exact ok_mchans0 | exact ok_schans0 | ..];
    repeat (apply List.Forall_cons; [by apply Href |]); apply List.Forall_nil.
Qed.

(** * The session as a whole *)

Lemma dials_snoc τ e :
  length (dials (τ ++ [e]))
  = length (dials τ) + match e.2 with EvDial _ _ => 1 | _ => 0 end.
Proof.
  unfold dials. rewrite flat_map_app, length_app. simpl.
  by destruct e as [t []].
Qed.

Lemma quits_snoc τ e : quits (τ ++ [e]) = quits τ + Nat.b2n (is_quit e).
Proof.
  unfold quits. rewrite List.filter_app, length_app. simpl.
  by destruct (is_quit e).
Qed.

Lemma closes_snoc τ e : closes (τ ++ [e]) = closes τ + Nat.b2n (is_close e).
Proof.
  unfold closes. rewrite List.filter_app, length_app. simpl.
  by destruct (is_close e).
Qed.

Lemma active_Receivers_app ts t :
  active_Receivers (ts ++ [t]) = active_Receivers ts + Nat.b2n (is_Receiver t).
Proof.
  unfold active_Receivers. rewrite List.filter_app, length_app. simpl.
  by destruct (is_Receiver t).
Qed.

Lemma active_Receivers_insert ts n t t' :
  ts !! n = Some t →
  active_Receivers (<[n:=t']> ts) + Nat.b2n (is_Receiver t)
  = active_Receivers ts + Nat.b2n (is_Receiver t').
Proof.
  revert n. induction ts as [|a ts IH]; intros [|n] H; simplify_eq/=.
  - unfold active_Receivers. simpl. destruct (is_Receiver t), (is_Receiver t'); simpl; lia.
  - specialize (IH _ H). unfold active_Receivers in *. simpl.
    destruct (is_Receiver a); simpl; lia.
Qed.

Lemma core_inv_Setup network servers nick user realname :
  core_inv network servers nick user realname (Setup network servers nick user realname).
Proof.
  constructor; try done.
  - by eexists _, _, _.
Qed.

Ltac core_arith :=
  rewrite ?dials_snoc, ?quits_snoc, ?closes_snoc, ?active_Receivers_app, ?length_app;
  simpl in *; try lia.

Ltac core_intro :=
  constructor; simpl; unfold Keeper_pc, Cleaner_pc, workers, pending, sent; simpl;
  rewrite ?drop_0 in *;
  try done; try (by eexists _, _, _); try (intros ? [= <-]; lia);
  try (apply Forall_app; split; [done | by repeat constructor]);
  try (by apply Forall_insert);
  try match goal with
      | H : ?ts !! ?n = Some ?t |- context [active_Receivers (<[?n:=?t']> ?ts)] =>
          pose proof (active_Receivers_insert ts n t t' H)
      end;
  core_arith.

#[local] Opaque Codec.ParseMessage Codec.MessageString.

Lemma core_inv_step network servers nick user realname tid x st :
  core_inv network servers nick user realname st →
  core_inv network servers nick user realname (step tid x st).
Proof.
  intros Hinv.
  pose proof Hinv as
    [Ht Hw HN HNi HU HR Hrec HQ (q0 & q1 & srest & Es & Hc0 & Hc1) Hqs Hqr Hl Hex
       Hsig Htok Hd Hcl].
  unfold step. destruct (panicked st) eqn:Hp; [done |]. clear Hinv.
  destruct st as [c0 mch sch thr τ pan]. simpl in *. subst sch pan.
  unfold Keeper_pc, Cleaner_pc, workers in *. simpl in *.
  destruct thr as [|[srv kpc| | | |] [|[|cpc| | |] rest]]; simplify_eq/=.
  destruct q0 as [cap0 buf0 cl0 h0], q1 as [cap1 buf1 cl1 h1]. simpl in *. subst cl0 cl1.
  destruct c0 as [cN cNi cU cR cI cO crd cwr ccn crc cQ cqs cqr cl]. simpl in *. subst.
  unfold pending, sent in *. simpl in *. rewrite drop_0 in *.
  assert (Hqs' : cqs = None ∨ ∃ j, cqs = Some (S (S j))).
  { destruct cqs as [[|[|j]]|]; eauto; specialize (Hqs _ eq_refl); lia. }
  assert (Hqr' : cqr = None ∨ ∃ j, cqr = Some (S (S j))).
  { destruct cqr as [[|[|j]]|]; eauto; specialize (Hqr _ eq_refl); lia. }
  destruct tid as [|[|n]]; simpl.
  - (* Keeper *)
    destruct kpc; simpl in *; unfold_ops; simpl.
    all: destruct Hqs' as [->|[js ->]]; destruct Hqr' as [->|[jr ->]];
      unfold chan_recv, chan_send, chan_close, chan_make, rand_Intn, Dial; simpl;
      repeat case_match; simplify_eq/=; core_intro.
  - (* Cleaner *)
    destruct cpc; simpl in *; unfold_ops; simpl.
    all: destruct Hqs' as [->|[js ->]]; destruct Hqr' as [->|[jr ->]];
      unfold chan_recv, chan_send; simpl;
      repeat case_match; simplify_eq/=; core_intro.
  - destruct (rest !! n) as [t|] eqn:En; [|core_intro].
    pose proof (Forall_lookup_1 _ _ _ _ Hw En) as Hwt.
    destruct t as [| |pc|pc|]; try done; [| |core_intro].
    + (* Sender *)
      destruct pc; simpl.
      * destruct (recv_ready cI mch), (recv_ready cqs _), (x_pick x),
          (chan_recv zero_Message cI mch) as [[v σ]| |].
        all: unfold_ops; simpl.
        all: destruct Hqs' as [->|[js ->]]; destruct Hqr' as [->|[jr ->]];
          unfold chan_recv; simpl;
          repeat case_match; simplify_eq/=; core_intro.
      * destruct cwr; unfold_ops; simpl; core_intro.
      * destruct cwr; unfold_ops; simpl; core_intro.
    + (* Receiver *)
      destruct pc as [| | |msg]; simpl.
      * destruct crd; [destruct (x_read x) as [raw|e];
          [destruct (Codec.ParseMessage raw)|]|]; unfold_ops; simpl; core_intro.
      * unfold chan_send; simpl; repeat case_match; simplify_eq/=;
          unfold_ops; simpl; core_intro.
      * unfold chan_send; simpl; repeat case_match; simplify_eq/=;
          unfold_ops; simpl; core_intro.
      * destruct (send_ready cO mch), (recv_ready cqr _), (x_pick x),
          (chan_send cO msg mch) as [σ| |].
        all: unfold_ops; simpl.
        all: destruct Hqs' as [->|[js ->]]; destruct Hqr' as [->|[jr ->]];
          unfold chan_recv; simpl;
          repeat case_match; simplify_eq/=; core_intro.
Qed.

#[local] Transparent Codec.ParseMessage Codec.MessageString.

Lemma core_inv_collab network servers nick user realname op st :
  core_inv network servers nick user realname st →
  core_inv network servers nick user realname (collab_step op st).
Proof.
  intros Hinv.
  pose proof Hinv as
    [Ht Hw HN HNi HU HR Hrec HQ (q0 & q1 & srest & Es & Hc0 & Hc1) Hqs Hqr Hl Hex
       Hsig Htok Hd Hcl].
  unfold collab_step. destruct (panicked st) eqn:Hp; [done |]. clear Hinv.
  destruct st as [c0 mch sch thr τ pan]. simpl in *. subst sch pan.
  unfold Keeper_pc, Cleaner_pc, workers in *. simpl in *.
  destruct thr as [|[srv kpc| | | |] [|[|cpc| | |] rest]]; simplify_eq/=.
  destruct q0 as [cap0 buf0 cl0 h0], q1 as [cap1 buf1 cl1 h1]. simpl in *. subst cl0 cl1.
  destruct c0 as [cN cNi cU cR cI cO crd cwr ccn crc cQ cqs cqr cl]. simpl in *. subst.
  unfold pending, sent in *. simpl in *. rewrite drop_0 in *.
  destruct op as [m| |]; simpl.
  - destruct (chan_send cI m mch); unfold set_mchans, crash; simpl; core_intro.
  - destruct (chan_recv zero_Message cO mch) as [[v σ]| |];
      unfold set_mchans; simpl; core_intro.
  - unfold chan_send; simpl; repeat case_match; simplify_eq/=;
      unfold set_schans; simpl; core_intro.
Qed.

Lemma core_inv_act network servers nick user realname a st :
  core_inv network servers nick user realname st →
  core_inv network servers nick user realname (act a st).
Proof. destruct a; [apply core_inv_step | apply core_inv_collab]. Qed.

Lemma core_inv_play network servers nick user realname acts :
  core_inv network servers nick user realname
    (play acts (Setup network servers nick user realname)).
Proof. apply play_invariant; [apply core_inv_act | apply core_inv_Setup]. Qed.

Lemma core_inv_run network servers nick user realname sched :
  core_inv network servers nick user realname
    (run sched (Setup network servers nick user realname)).
Proof. rewrite run_play. apply core_inv_play. Qed.

(** ** X1: the identity of the session *)

(** X1.  Setup sets the network name, nick, user and real name of the
    Connection, and no role ever assigns them: in every reachable state
    they are the ones given to Setup. *)
Theorem identity_is_immutable network servers nick user realname sched :
  let st := run sched (Setup network servers nick user realname) in
  Network (c st) = network ∧ Nick (c st) = nick
  ∧ User (c st) = user ∧ RealName (c st) = realname.
Proof.
  intros st. by destruct (core_inv_run network servers nick user realname sched).
Qed.

(** ** X2: the channels made by Setup *)

(** X2.  The reconnect and Quit channels made by Setup stay for the
    whole session: the Keeper replaces and closes only the channels of
    a generation, so in every reachable state both fields still refer
    to the channels of Setup, and these are open. *)
Theorem reconnect_and_Quit_are_permanent network servers nick user realname sched :
  let st0 := Setup network servers nick user realname in
  let st := run sched st0 in
  reconnect (c st) = reconnect (c st0)
  ∧ Quit (c st) = Quit (c st0)
  ∧ (∃ q, chan_get (reconnect (c st)) (schans st) = Some q ∧ ch_closed q = false)
  ∧ (∃ q, chan_get (Quit (c st)) (schans st) = Some q ∧ ch_closed q = false).
Proof.
  intros st0 st.
  destruct (core_inv_run network servers nick user realname sched)
    as [_ _ _ _ _ _ Hrec HQ (q0 & q1 & rest & Es & Hc0 & Hc1) _ _ _ _ _ _ _ _].
  fold st0 st in Hrec, HQ, Es. rewrite Hrec, HQ, Es. simpl.
  split_and!; [done | done | by exists q0 | by exists q1].
Qed.

(** ** X3: the mutex *)

(** X3.  Thread 0 is the Keeper and thread 1 the Cleaner, and every
    other thread is a Sender or a Receiver.  The mutex [c.l] is locked
    exactly while the Keeper is between lines 98 and 111 or the Cleaner
    between lines 84 and 89, and the two are never there together; so
    no Unlock finds the mutex unlocked. *)
Theorem lock_is_exclusive network servers nick user realname sched :
  let st := run sched (Setup network servers nick user realname) in
  threads st = Keeper servers (Keeper_pc st) :: Cleaner (Cleaner_pc st) :: workers st
  ∧ Forall (λ t, worker t = true) (workers st)
  ∧ l (c st) = Keeper_locked (Keeper_pc st) || Cleaner_locked (Cleaner_pc st)
  ∧ Keeper_locked (Keeper_pc st) && Cleaner_locked (Cleaner_pc st) = false
  ∧ (∀ tid x, panicked st = false →
       threads st !! tid = Some (Keeper servers K111)
       ∨ threads st !! tid = Some (Cleaner C89) →
       l (c st) = true ∧ l (c (step tid x st)) = false
       ∧ panicked (step tid x st) = false).
Proof.
  intros st.
  destruct (core_inv_run network servers nick user realname sched)
    as [Ht Hw _ _ _ _ _ _ _ _ _ Hl Hex _ _ _ _].
  fold st in Ht, Hw, Hl, Hex. split_and!; try done.
  intros tid x Hp Htid.
  assert (Hlock : l (c st) = true).
  { rewrite Hl. rewrite Ht in Htid.
    destruct Htid as [Htid|Htid].
    - destruct tid as [|[|n]]; simpl in Htid; [| done |].
      + injection Htid as ->. done.
      + by pose proof (Forall_lookup_1 _ _ _ _ Hw Htid).
    - destruct tid as [|[|n]]; simpl in Htid; [done | |].
      + injection Htid as ->. by rewrite orb_true_r.
      + by pose proof (Forall_lookup_1 _ _ _ _ Hw Htid). }
  split; [done |]. unfold step. rewrite Hp.
  destruct Htid as [-> | ->]; simpl; unfold unlock; by rewrite Hlock.
Qed.

Lemma lock_is_exclusive_witness :
  let st := run (replicate 9 (0, x_up)) freenode in
  threads st !! 0 = Some (Keeper pool K111)
  ∧ l (c st) = true ∧ l (c (step 0 x_up st)) = false
  ∧ panicked (step 0 x_up st) = false.
Proof.
  split; [vm_compute; reflexivity |].
  refine (proj2 (proj2 (proj2 (proj2 (lock_is_exclusive
            "freenode" pool "gorepost" "repost" "Go Repost" (replicate 9 (0, x_up))))))
            0 x_up _ _).
  - vm_compute; reflexivity.
  - left. vm_compute; reflexivity.
Defined.

(** ** X4: Receivers and forced reconnects *)

(** X4.  Whatever the roles and the collaborators do, count: the
    Receivers that have neither raised their failure signal nor taken
    the stop signal, the signals waiting on [c.Quit], a Cleaner that has
    taken one and not yet requested the reconnect, the requests waiting
    on [c.reconnect], and a Keeper that has taken one and not yet started
    its Receiver.  Their number never exceeds one plus the number of
    signals that collaborators have sent on [c.Quit] (all the sends on
    the channel less those of the Receivers).  So without a forced
    reconnect there is at most one such Receiver, and none while the
    Cleaner tears down or the Keeper rebuilds; every forced reconnect
    can add one more. *)
Theorem generations_bounded_by_forced_reconnects network servers nick user realname acts :
  let st := play acts (Setup network servers nick user realname) in
  quits (trace st) ≤ sent (Quit (c st)) (schans st)
  ∧ active_Receivers (workers st)
    + pending (Quit (c st)) (schans st)
    + Nat.b2n (Cleaner_pending (Cleaner_pc st))
    + pending (reconnect (c st)) (schans st)
    + Nat.b2n (Keeper_pending (Keeper_pc st))
    + quits (trace st)
    ≤ 1 + sent (Quit (c st)) (schans st).
Proof.
  intros st. by destruct (core_inv_play network servers nick user realname acts).
Qed.

(** ** X5: dials and closes answer the signals on Quit *)

(** X5.  Whatever the roles and the collaborators do, every dial but
    the first and every close of the socket answers one signal sent on
    [c.Quit], by a Receiver (lines 54 and 62) or by a collaborator that
    forces a reconnect: the dials made, plus the requests and signals
    still on their way to a dial, count one more than the signals sent;
    the closes made, plus the signals still on their way to a close,
    count as many.  So the Keeper has dialled at most once more than
    signals were sent, and the Cleaner has closed at most once per
    signal. *)
Theorem dials_and_closes_answer_Quit network servers nick user realname acts :
  let st := play acts (Setup network servers nick user realname) in
  length (dials (trace st))
  + pending (reconnect (c st)) (schans st)
  + Nat.b2n (Keeper_predial (Keeper_pc st))
  + Nat.b2n (Cleaner_pending (Cleaner_pc st))
  + pending (Quit (c st)) (schans st)
  = 1 + sent (Quit (c st)) (schans st)
  ∧ closes (trace st)
    + Nat.b2n (Cleaner_preclose (Cleaner_pc st))
    + pending (Quit (c st)) (schans st)
    = sent (Quit (c st)) (schans st)
  ∧ length (dials (trace st)) ≤ 1 + sent (Quit (c st)) (schans st)
  ∧ closes (trace st) ≤ sent (Quit (c st)) (schans st).
Proof.
  intros st.
  destruct (core_inv_play network servers nick user realname acts)
    as [_ _ _ _ _ _ _ _ _ _ _ _ _ _ _ Hd Hc].
  fold st in Hd, Hc. split_and!; [done | done | lia | lia].
Qed.

(** * Sockets *)

Lemma dialled_snoc τ e :
  dialled (τ ++ [e])
  = dialled τ ++ match e.2 with EvDial _ (inl k) => [k] | _ => [] end.
Proof.
  unfold dialled, dials. rewrite flat_map_app, omap_app. f_equal.
  by destruct e as [t [| ? [|]| | | | | |]].
Qed.

Lemma current_socket_snoc τ e :
  current_socket (τ ++ [e])
  = match e.2 with EvDial _ (inl k) => Some k | _ => current_socket τ end.
Proof.
  unfold current_socket. rewrite dialled_snoc.
  destruct e as [t [| ? [|]| | | | | |]]; simpl; rewrite ?app_nil_r; try done.
  by rewrite last_snoc.
Qed.

Lemma sock_events_snoc τ tid ev :
  (∀ e k, e ∈ τ → event_socket e.2 = Some k → k ∈ dialled τ) →
  (∀ k, event_socket ev = Some k → k ∈ dialled τ) →
  ∀ e k, e ∈ τ ++ [(tid, ev)] → event_socket e.2 = Some k →
         k ∈ dialled (τ ++ [(tid, ev)]).
Proof.
  intros Hτ Hev e k [He | ->%list_elem_of_singleton]%elem_of_app Hk;
    rewrite dialled_snoc; apply elem_of_app; left; eauto.
Qed.

Lemma current_socket_dialled τ k : current_socket τ = Some k → k ∈ dialled τ.
Proof. apply last_Some_elem_of. Qed.

Lemma writer_dialled (k : option net_Conn) τ w :
  k = current_socket τ → Some w = NewWriter <$> k → wr_conn w ∈ dialled τ.
Proof.
  intros Hc Hw. destruct k as [k|]; simplify_eq/=.
  by apply current_socket_dialled.
Qed.

Ltac sock_frame :=
  constructor; simpl; rewrite ?current_socket_snoc; simpl; try done;
  try (repeat match goal with
              | H : ?f (c _) = Some _ |- _ => rewrite H in *; clear H
              | H : ?f (c _) = None |- _ => rewrite H in *; clear H
              end; simpl; congruence);
  try (apply sock_events_snoc; [done | simpl; try done]);
  try (intros ? [= <-];
       first [ apply current_socket_dialled; congruence
             | eapply writer_dialled; eassumption ]).

#[local] Opaque Codec.ParseMessage Codec.MessageString.

Lemma sock_inv_step tid x st : sock_inv st → sock_inv (step tid x st).
Proof.
  intros [Hc Hr Hw He]. unfold step. destruct (panicked st); [done |].
  destruct (threads st !! tid) as [[srv pc|pc|pc|pc|]|] eqn:Et; try done.
  - destruct pc; simpl; unfold_ops; unfold Dial; repeat case_match; simplify_eq/=;
      sock_frame.
  - destruct pc; simpl; unfold_ops; repeat case_match; simplify_eq/=; sock_frame.
  - destruct pc; simpl; unfold_ops; repeat case_match; simplify_eq/=; sock_frame.
  - destruct pc; simpl; unfold_ops; repeat case_match; simplify_eq/=; sock_frame.
Qed.

#[local] Transparent Codec.ParseMessage Codec.MessageString.

Lemma sock_inv_Setup network servers nick user realname :
  sock_inv (Setup network servers nick user realname).
Proof. constructor; simpl; try done. by intros e k ?%elem_of_nil. Qed.

Lemma sock_inv_collab op st : sock_inv st → sock_inv (collab_step op st).
Proof.
  intros [Hc Hr Hw He]. unfold collab_step. destruct (panicked st); [done |].
  destruct op; repeat case_match; done.
Qed.

Lemma sock_inv_play network servers nick user realname acts :
  sock_inv (play acts (Setup network servers nick user realname)).
Proof.
  apply play_invariant; [|apply sock_inv_Setup].
  intros [tid x|op] st; [apply sock_inv_step | apply sock_inv_collab].
Qed.

Lemma chans_ok_collab op st : chans_ok st → chans_ok (collab_step op st).
Proof.
  intros [Hm Hs HI HO Hr HQ Hqs Hqr]. unfold collab_step.
  destruct (panicked st); [done |].
  destruct op as [m| |].
  - destruct (chan_send _ _ _) eqn:E; try done.
    destruct (chan_send_ok _ _ _ _ E Hm) as [Hσ Hlen].
    constructor; simpl; try done; eapply ref_ok_length; try eassumption; lia.
  - destruct (chan_recv _ _ _) as [[v σ]| |] eqn:E; try done.
    destruct (chan_recv_ok _ _ _ _ _ E Hm) as [Hσ Hlen].
    constructor; simpl; try done; eapply ref_ok_length; try eassumption; lia.
  - destruct (chan_send _ _ _) eqn:E; try done.
    destruct (chan_send_ok _ _ _ _ E Hs) as [Hσ Hlen].
    constructor; simpl; try done; eapply ref_ok_length; try eassumption; lia.
Qed.

(** ** X6: reader, writer and socket *)



(** * Generations of channels *)

Section flags.
Context {A : Type}.
Implicit Types (σ : list (Chan A)) (r : option nat).

Lemma flags_lookup σ i b :
  flags σ !! i = Some b ↔ ∃ q, σ !! i = Some q ∧ ch_closed q = b.
Proof.
  unfold flags. rewrite list_lookup_fmap. destruct (σ !! i) as [q|]; simpl.
  - split; [intros [= <-]; by exists q | by intros (? & [= <-] & <-)].
  - split; [done | by intros (? & ? & _)].
Qed.

Lemma flags_insert_same σ i q q' :
  σ !! i = Some q → ch_closed q' = ch_closed q → flags (<[i:=q']> σ) = flags σ.
Proof.
  intros Hi Hc. unfold flags. rewrite list_fmap_insert, Hc.
  apply list_insert_id. by rewrite list_lookup_fmap, Hi.
Qed.

Lemma chan_send_flags r v σ σ' : chan_send r v σ = Ok σ' → flags σ' = flags σ.
Proof.
  intros (i & ch & -> & Hi & Hc & _ & ->)%chan_send_Ok.
  by eapply flags_insert_same.
Qed.

Lemma chan_recv_flags zero r σ v σ' :
  chan_recv zero r σ = Ok (v, σ') → flags σ' = flags σ.
Proof.
  intros (i & ch & -> & Hi & [(rest & Hb & ->)|(_ & _ & _ & ->)])%chan_recv_Ok;
    [|done].
  by eapply flags_insert_same.
Qed.

Lemma chan_close_flags r σ σ' :
  chan_close r σ = Ok σ' →
  ∃ i, r = Some i ∧ flags σ !! i = Some false ∧ flags σ' = <[i:=true]> (flags σ).
Proof.
  intros (i & ch & -> & Hi & Hc & ->)%chan_close_Ok.
  exists i. split_and!; [done | |].
  - apply flags_lookup. by exists ch.
  - unfold flags. by rewrite list_fmap_insert.
Qed.

Lemma chan_close_live r σ : live r σ → ∃ σ', chan_close r σ = Ok σ'.
Proof.
  unfold live, closed_of. destruct r as [i|]; [|done].
  intros (q & Hi & Hc)%flags_lookup. unfold chan_close. rewrite Hi, Hc. eauto.
Qed.

Lemma chan_send_live r v σ : chan_send r v σ = Panic → closed_of r σ = Some true.
Proof.
  unfold chan_send, closed_of. destruct r as [i|]; [|done].
  destruct (σ !! i) as [q|] eqn:Hi; [|done].
  destruct (ch_closed q) eqn:Hc; [|by case_match].
  intros _. apply flags_lookup. by exists q.
Qed.

Lemma chan_recv_no_panic zero r σ : chan_recv zero r σ ≠ Panic.
Proof. unfold chan_recv. by repeat case_match. Qed.

Lemma chan_close_no_block r σ : chan_close r σ ≠ Block.
Proof. unfold chan_close. by repeat case_match. Qed.

Lemma flags_make n σ : flags (chan_make n σ).2 = flags σ ++ [false].
Proof. unfold flags. simpl. by rewrite fmap_app. Qed.

Lemma flags_length σ : length (flags σ) = length σ.
Proof. unfold flags. by rewrite length_fmap. Qed.
End flags.

Lemma Keeper_pc_lookup st :
  Keeper_pc st = match threads st !! 0 with Some (Keeper _ pc) => pc | _ => K96 end.
Proof. unfold Keeper_pc. by destruct (threads st) as [|[]]. Qed.

Lemma step_Keeper_pc tid x st :
  tid ≠ 0 → Keeper_pc (step tid x st) = Keeper_pc st.
Proof.
  intros Hne. rewrite !Keeper_pc_lookup.
  destruct (threads st) as [|t0 ts] eqn:Et.
  - unfold step. destruct (panicked st); [by rewrite Et |].
    rewrite Et, lookup_nil. by rewrite Et.
  - rewrite step_other_thread; [by rewrite Et | done | rewrite Et; simpl; lia].
Qed.

#[local] Opaque Codec.ParseMessage Codec.MessageString.

Lemma step_same_channels tid x st :
  (∀ srv pc, threads st !! tid = Some (Keeper srv pc) → Keeper_rebuilds pc = false) →
  same_channels st (step tid x st).
Proof.
  intros Hk. unfold step. destruct (panicked st); [done |].
  destruct (threads st !! tid) as [[srv pc|pc|pc|pc|]|] eqn:Et; try done.
  - specialize (Hk _ _ eq_refl).
    destruct pc; simplify_eq/=; unfold_ops; unfold Dial; repeat case_match;
      simplify_eq/=; constructor; simpl;
      eauto using chan_send_flags, chan_recv_flags.
  - destruct pc; simpl; unfold_ops; repeat case_match; simplify_eq/=;
      constructor; simpl; eauto using chan_send_flags, chan_recv_flags.
  - destruct pc; simpl; unfold_ops; repeat case_match; simplify_eq/=;
      constructor; simpl; eauto using chan_send_flags, chan_recv_flags.
  - destruct pc; simpl; unfold_ops; repeat case_match; simplify_eq/=;
      constructor; simpl; eauto using chan_send_flags, chan_recv_flags.
Qed.

#[local] Transparent Codec.ParseMessage Codec.MessageString.

Lemma gen_inv_same st st' :
  same_channels st st' → Keeper_pc st' = Keeper_pc st → gen_inv st → gen_inv st'.
Proof.
  intros [HI HO Hr HQ Hqs Hqr Hm Hs] Hpc [G1 G2 G3 G4 G5 G6 G7 G8 G9].
  constructor; unfold all_nil, all_live, healthy, live, gone, closed_of in *;
    rewrite ?Hpc, ?HI, ?HO, ?Hr, ?HQ, ?Hqs, ?Hqr, ?Hm, ?Hs; done.
Qed.

(** The Keeper moves to [pc'] without touching a channel. *)
Lemma gen_inv_move pc' st st' :
  same_channels st st' → Keeper_pc st' = pc' → gen_inv st →
  healthy (Input_health pc') (Input (c st)) (mchans st) →
  healthy (Output_health pc') (Output (c st)) (mchans st) →
  healthy (quitsend_health pc') (quitsend (c st)) (schans st) →
  healthy (quitrecv_health pc') (quitrecv (c st)) (schans st) →
  (Input_health pc' = Idle → all_nil (c st) ∨ all_live st) →
  gen_inv st'.
Proof.
  intros [HI HO Hr HQ Hqs Hqr Hm Hs] Hpc [G1 G2 G3 G4 G5 G6 G7 G8 G9] H1 H2 H3 H4 H5.
  constructor; unfold all_nil, all_live, healthy, live, gone, closed_of in *;
    rewrite ?Hpc, ?HI, ?HO, ?Hr, ?HQ, ?Hqs, ?Hqr, ?Hm, ?Hs; done.
Qed.

Lemma gen_inv_worker tid x st :
  tid ≠ 0 →
  (∀ srv pc, threads st !! tid ≠ Some (Keeper srv pc)) →
  gen_inv st → gen_inv (step tid x st).
Proof.
  intros Hne Hk. apply gen_inv_same.
  - apply step_same_channels. intros srv pc E. by destruct (Hk srv pc).
  - by apply step_Keeper_pc.
Qed.

Lemma gen_inv_Keeper_moves srv pc rest x st :
  threads st = Keeper srv pc :: rest →
  Keeper_rebuilds pc = false →
  gen_inv st → gen_inv (step 0 x st).
Proof.
  intros Ht Hpc Hinv.
  assert (Hsame : same_channels st (step 0 x st)).
  { apply step_same_channels. intros srv' pc'. rewrite Ht. by intros [= <- <-]. }
  assert (Hk : Keeper_pc st = pc) by (unfold Keeper_pc; by rewrite Ht).
  pose proof Hinv as [_ _ G3 G4 G5 G6 G7 _ _]. rewrite Hk in *. clear Hk.
  unfold step in *. destruct (panicked st) eqn:Hp; [done |].
  destruct st as [c0 mch sch thr τ pan]. simpl in *. subst thr pan.
  simpl in *.
  destruct pc; simplify_eq/=; unfold_ops; unfold Dial in *; simpl in *;
    repeat case_match; simplify_eq/=.
  all: try done.
  all: eapply gen_inv_move; [exact Hsame | reflexivity | exact Hinv | ..].
  all: simpl; try done.
  all: try (by right).
  all: destruct (G7 eq_refl) as [(E1 & E2 & E3 & E4)|(L1 & L2 & L3 & L4)];
    simpl in *;
    first [ done | congruence | by left
          | match goal with
            | H : Input _ = None, L : live (Input _) _ |- _ =>
                unfold live in L; by rewrite H in L
            end ].
Qed.

Lemma closed_of_app {A} r (σ τ : list (Chan A)) :
  ref_ok r σ → closed_of r (σ ++ τ) = closed_of r σ.
Proof.
  destruct r as [i|]; simpl; [|done]. intros Hi. unfold flags.
  rewrite fmap_app. apply lookup_app_l. by rewrite length_fmap.
Qed.

Lemma closed_of_new {A} (σ : list (Chan A)) q :
  closed_of (Some (length σ)) (σ ++ [q]) = Some (ch_closed q).
Proof.
  simpl. unfold flags. rewrite list_lookup_fmap, lookup_app_r by done.
  by rewrite Nat.sub_diag.
Qed.

Lemma healthy_app {A} h r (σ τ : list (Chan A)) :
  ref_ok r σ → healthy h r σ → healthy h r (σ ++ τ).
Proof.
  intros Hr. destruct h; unfold healthy, live, gone; by rewrite ?closed_of_app.
Qed.

Lemma flags_app_open {A} (σ : list (Chan A)) q i :
  flags (σ ++ [q]) !! i = Some false → i = length σ ∨ flags σ !! i = Some false.
Proof.
  unfold flags. rewrite fmap_app. intros [H|[Hle H]]%lookup_app_Some; [by right |].
  left. rewrite length_fmap in Hle, H.
  apply lookup_lt_Some in H. simpl in H. lia.
Qed.

Lemma gone_not_open {A} r i (σ : list (Chan A)) :
  gone r σ → flags σ !! i = Some false → r ≠ Some i.
Proof. intros [->|H] Hi; [done |]. intros ->. simpl in H. congruence. Qed.

Lemma ref_ok_ne {A} r (σ : list (Chan A)) : ref_ok r σ → r ≠ Some (length σ).
Proof. destruct r; simpl; [|done]. intros ? [= ->]. lia. Qed.

(** [close(ch)]: the field goes down, the other fields are untouched,
    no channel opens. *)
Lemma close_effect {A} r (σ σ' : list (Chan A)) :
  chan_close r σ = Ok σ' →
  gone r σ'
  ∧ (∀ h r', r' ≠ r → healthy h r' σ → healthy h r' σ')
  ∧ (∀ i, flags σ' !! i = Some false → flags σ !! i = Some false ∧ r ≠ Some i).
Proof.
  intros (i & -> & Hi & Hf)%chan_close_flags. split_and!.
  - right. simpl. rewrite Hf. apply list_lookup_insert_eq. by eapply lookup_lt_Some.
  - intros h [j|] Hne; [|by destruct h].
    assert (closed_of (Some j) σ' = closed_of (Some j) σ) as E.
    { simpl. rewrite Hf. apply list_lookup_insert_ne. congruence. }
    destruct h; unfold healthy, live, gone; by rewrite ?E.
  - intros j. rewrite Hf. intros [(-> & ? & _)|(Hne & Hj)]%list_lookup_insert_Some;
      [done |]. split; [done | congruence].
Qed.

Lemma close_up {A} r (σ : list (Chan A)) :
  healthy Up r σ → ∃ σ', chan_close r σ = Ok σ'.
Proof. apply chan_close_live. Qed.

Lemma live_not_None {A} r (σ : list (Chan A)) : live r σ → r ≠ None.
Proof. by intros H ->. Qed.

Lemma distinct_fields (r r' : option nat) :
  (∀ i, r = Some i → r' ≠ Some i) → r ≠ None ∨ r' ≠ None → r' ≠ r.
Proof. intros H Hn E. subst r'. destruct r as [i|]; [by eapply H | by destruct Hn]. Qed.

Lemma distinct_fields_sym (r r' : option nat) :
  (∀ i, r = Some i → r' ≠ Some i) → r ≠ None ∨ r' ≠ None → r ≠ r'.
Proof. intros H Hn E. by eapply distinct_fields. Qed.

Ltac gen_ne :=
  first [ eapply distinct_fields; [eassumption |]
        | eapply distinct_fields_sym; [eassumption |] ];
  first [ left; eapply live_not_None; eassumption
        | right; eapply live_not_None; eassumption ].

Ltac gen_close E :=
  destruct (close_effect _ _ _ E) as (Hgone & Hkeep & Hopen);
  constructor; simpl in *; try done;
  try (apply (Hkeep Up); [gen_ne | done]);
  try (apply (Hkeep Down); [gen_ne | done]);
  try (intros j Hj; destruct (Hopen j Hj) as [Hj' Hne]; naive_solver).

Ltac gen_make Hok :=
  destruct Hok as [_ _ okI okO _ _ okqs okqr]; simpl in *;
  constructor; simpl in *; try done;
  try (intros j [= <-]; by apply ref_ok_ne);
  try (intros j Hj;
       match goal with
       | Hr : ref_ok ?r _ |- _ =>
           rewrite Hj in Hr; apply not_eq_sym; by apply ref_ok_ne
       end);
  try (by apply (healthy_app Up));
  try (by apply (healthy_app Down));
  try (unfold live; by rewrite closed_of_new);
  try (intros j [->|Hj]%flags_app_open; [by auto |];
       match goal with
       | G : ∀ i, flags _ !! i = Some false → _ |- _ =>
           destruct (G j Hj) as [?|[?|[?|?]]] || destruct (G j Hj) as [?|?]
       end;
       first [ by auto 6
             | match goal with
               | Hg : gone ?r ?σ, Hr : ?r = Some ?j, Hj : flags ?σ !! ?j = Some false
                 |- _ => by destruct (gone_not_open r j σ Hg Hj)
               end ]).

Lemma gen_inv_Keeper_rebuilds srv pc rest x st :
  threads st = Keeper srv pc :: rest →
  Keeper_rebuilds pc = true →
  chans_ok st → gen_inv st → gen_inv (step 0 x st).
Proof.
  intros Ht Hpc Hok Hinv.
  assert (Hk : Keeper_pc st = pc) by (unfold Keeper_pc; by rewrite Ht).
  pose proof Hinv as [G1 G2 G3 G4 G5 G6 G7 G8 G9]. rewrite Hk in *. clear Hk.
  unfold step in *. destruct (panicked st) eqn:Hp; [done |].
  destruct st as [c0 mch sch thr τ pan]. simpl in *. subst thr pan.
  simpl in *.
  destruct pc; simplify_eq/=; unfold_ops; simpl in *.
  - (* close(c.Input) *)
    destruct (close_up _ _ G3) as [σ E]. rewrite E. simpl. gen_close E.
  - (* close(c.Output) *)
    destruct (close_up _ _ G4) as [σ E]. rewrite E. simpl. gen_close E.
  - (* close(c.quitsend) *)
    destruct (close_up _ _ G5) as [σ E]. rewrite E. simpl. gen_close E.
  - (* close(c.quitrecv) *)
    destruct (close_up _ _ G6) as [σ E]. rewrite E. simpl. gen_close E.
  - (* c.Input = make(chan Message, 1) *)
    gen_make Hok.
  - (* c.Output = make(chan Message, 1) *)
    gen_make Hok.
  - (* c.quitsend = make(chan struct{}, 1) *)
    gen_make Hok.
  - (* c.quitrecv = make(chan struct{}, 1) *)
    gen_make Hok.
Qed.

Lemma core_inv_not_Keeper network servers nick user realname st tid srv pc :
  core_inv network servers nick user realname st → tid ≠ 0 →
  threads st !! tid ≠ Some (Keeper srv pc).
Proof.
  intros [Ht Hw _ _ _ _ _ _ _ _ _ _ _ _ _ _ _] Hne. rewrite Ht.
  destruct tid as [|[|n]]; [done | done |]. simpl. intros E.
  by pose proof (Forall_lookup_1 _ _ _ _ Hw E).
Qed.

Lemma gen_inv_step network servers nick user realname tid x st :
  core_inv network servers nick user realname st → chans_ok st →
  gen_inv st → gen_inv (step tid x st).
Proof.
  intros Hcore Hok Hinv. destruct (decide (tid = 0)) as [->|Hne].
  - destruct Hcore as [Ht _ _ _ _ _ _ _ _ _ _ _ _ _ _ _ _].
    destruct (Keeper_rebuilds (Keeper_pc st)) eqn:E.
    + by eapply gen_inv_Keeper_rebuilds.
    + by eapply gen_inv_Keeper_moves.
  - apply gen_inv_worker; [done | | done].
    intros srv pc. by eapply core_inv_not_Keeper.
Qed.

Lemma gen_inv_Setup network servers nick user realname :
  gen_inv (Setup network servers nick user realname).
Proof.
  constructor; simpl; try done.
  - intros _. by left.
  - intros [|[|i]]; simpl; [by auto | by auto | done].
Qed.

Lemma collab_same_channels op st : same_channels st (collab_step op st).
Proof.
  unfold collab_step. destruct (panicked st); [done |].
  destruct op; repeat case_match; constructor; simpl;
    eauto using chan_send_flags, chan_recv_flags.
Qed.

Lemma collab_threads op st : threads (collab_step op st) = threads st.
Proof.
  unfold collab_step. destruct (panicked st); [done |].
  destruct op; by repeat case_match.
Qed.

Lemma collab_trace op st : trace (collab_step op st) = trace st.
Proof.
  unfold collab_step. destruct (panicked st); [done |].
  destruct op; by repeat case_match.
Qed.

Lemma gen_inv_collab op st : gen_inv st → gen_inv (collab_step op st).
Proof.
  apply gen_inv_same; [apply collab_same_channels |].
  unfold Keeper_pc. by rewrite collab_threads.
Qed.

(** The invariants of the session, together. *)
Record session_inv (network : string) (servers : list string) (nick user realname : string)
    (st : State) : Prop := {
  se_core : core_inv network servers nick user realname st;
  se_chans : chans_ok st;
  se_sock : sock_inv st;
  se_gen : gen_inv st
}.

Lemma session_inv_act network servers nick user realname a st :
  session_inv network servers nick user realname st →
  session_inv network servers nick user realname (act a st).
Proof.
  intros [H1 H2 H3 H4]. destruct a as [tid x|op]; simpl; split.
  - by apply core_inv_step.
  - by apply chans_ok_step.
  - by apply sock_inv_step.
  - by eapply gen_inv_step.
  - by apply core_inv_collab.
  - by apply chans_ok_collab.
  - by apply sock_inv_collab.
  - by apply gen_inv_collab.
Qed.

Lemma session_inv_Setup network servers nick user realname :
  session_inv network servers nick user realname
    (Setup network servers nick user realname).
Proof.
  split.
  - apply core_inv_Setup.
  - apply chans_ok_Setup.
  - apply sock_inv_Setup.
  - apply gen_inv_Setup.
Qed.

Lemma session_inv_play network servers nick user realname acts :
  session_inv network servers nick user realname
    (play acts (Setup network servers nick user realname)).
Proof. apply play_invariant; [apply session_inv_act | apply session_inv_Setup]. Qed.

(** * The roles do not panic *)

Lemma gen_not_closed st :
  gen_inv st →
  let pc := Keeper_pc st in
  (Input_health pc ≠ Down → closed_of (Input (c st)) (mchans st) ≠ Some true)
  ∧ (Output_health pc ≠ Down → closed_of (Output (c st)) (mchans st) ≠ Some true)
  ∧ (quitsend_health pc ≠ Down → closed_of (quitsend (c st)) (schans st) ≠ Some true)
  ∧ (quitrecv_health pc ≠ Down → closed_of (quitrecv (c st)) (schans st) ≠ Some true).
Proof.
  intros [_ _ G3 G4 G5 G6 G7 _ _] pc. fold pc in G3, G4, G5, G6, G7.
  assert (Hidle : Input_health pc = Idle →
    closed_of (Input (c st)) (mchans st) ≠ Some true
    ∧ closed_of (Output (c st)) (mchans st) ≠ Some true
    ∧ closed_of (quitsend (c st)) (schans st) ≠ Some true
    ∧ closed_of (quitrecv (c st)) (schans st) ≠ Some true).
  { intros [(-> & -> & -> & ->)|(L1 & L2 & L3 & L4)]%G7; [done |].
    unfold live in *. by rewrite L1, L2, L3, L4. }
  unfold healthy, live in *.
  destruct pc; simpl in *; split_and!; intros ?; try done;
    try (by apply Hidle); congruence.
Qed.

Lemma active_Receivers_pos ts n pc :
  ts !! n = Some (Receiver pc) → 0 < active_Receivers ts.
Proof.
  revert n. induction ts as [|t ts IH]; intros [|n] E; simplify_eq/=.
  - unfold active_Receivers. simpl. lia.
  - specialize (IH _ E). unfold active_Receivers in *. simpl.
    destruct (is_Receiver t); simpl; lia.
Qed.

Lemma sig_recv_safe tid r next st :
  panicked (sig_recv tid r next st) = panicked st.
Proof.
  unfold sig_recv. destruct (chan_recv tt r (schans st)) as [[v σ]| |] eqn:E; try done.
  by destruct (chan_recv_no_panic _ _ _ E).
Qed.

Lemma lock_safe tid next st : panicked (lock tid next st) = panicked st.
Proof. unfold lock. by destruct (l (c st)). Qed.

Lemma unlock_panic tid next st :
  panicked st = false → panicked (unlock tid next st) = true → l (c st) = false.
Proof. unfold unlock. destruct (l (c st)); simpl; congruence. Qed.

Lemma sig_send_panic tid r next st :
  panicked st = false → panicked (sig_send tid r next st) = true →
  closed_of r (schans st) = Some true.
Proof.
  unfold sig_send. destruct (chan_send r tt (schans st)) eqn:E; simpl; try congruence.
  intros _ _. by eapply chan_send_live.
Qed.

Lemma msg_send_panic tid r m next st :
  panicked st = false → panicked (msg_send tid r m next st) = true →
  closed_of r (mchans st) = Some true.
Proof.
  unfold msg_send. destruct (chan_send r m (mchans st)) eqn:E; simpl; try congruence.
  intros _ _. by eapply chan_send_live.
Qed.

Lemma sig_close_panic tid r next st :
  panicked st = false → panicked (sig_close tid r next st) = true →
  ¬ live r (schans st).
Proof.
  unfold sig_close. intros Hp H [σ E]%chan_close_live. rewrite E in H. simpl in H.
  congruence.
Qed.

Lemma msg_close_panic tid r next st :
  panicked st = false → panicked (msg_close tid r next st) = true →
  ¬ live r (mchans st).
Proof.
  unfold msg_close. intros Hp H [σ E]%chan_close_live. rewrite E in H. simpl in H.
  congruence.
Qed.

Lemma no_panic_step network servers nick user realname tid x st :
  session_inv network servers nick user realname st →
  sent (Quit (c st)) (schans st) ≤ quits (trace st) →
  panicked st = false → panicked (step tid x st) = true →
  servers = [] ∨ conn (c st) = None.
Proof.
  intros [Hcore Hok Hsock Hgen] Hunforced Hp. unfold step. rewrite Hp.
  destruct (gen_not_closed st Hgen) as (NI & NO & Nqs & Nqr).
  pose proof Hcore as [Ht Hw _ _ _ _ Hrec HQ (q0 & q1 & srest & Es & Hc0 & Hc1)
                         _ _ Hl Hex _ Htok _ _].
  destruct Hsock as [_ Hrd Hwr _].
  destruct Hgen as [_ _ G3 G4 G5 G6 _ _ _].
  assert (Nrec : closed_of (reconnect (c st)) (schans st) ≠ Some true).
  { rewrite Hrec, Es. simpl. congruence. }
  assert (NQ : closed_of (Quit (c st)) (schans st) ≠ Some true).
  { rewrite HQ, Es. simpl. congruence. }
  destruct (threads st !! tid) as [t|] eqn:Et; [|congruence].
  rewrite Ht in Et.
  destruct tid as [|[|n]]; simpl in Et; simplify_eq.
  - (* Keeper *)
    destruct (Keeper_pc st) eqn:Ek; simpl in *.
    + rewrite sig_recv_safe. congruence.
    + rewrite lock_safe. congruence.
    + case_match; simpl; congruence.
    + by intros ?%msg_close_panic.
    + by intros ?%msg_close_panic.
    + by intros ?%sig_close_panic.
    + by intros ?%sig_close_panic.
    + simpl. congruence.
    + simpl. congruence.
    + simpl. congruence.
    + simpl. congruence.
    + unfold rand_Intn. destruct (Nat.eqb_spec (length servers) 0) as [E|E].
      { intros _. left. by destruct servers. }
      destruct (servers !! (x_rand x mod length servers)) eqn:Es'; [simpl; congruence |].
      apply lookup_ge_None in Es'.
      pose proof (Nat.mod_upper_bound (x_rand x) (length servers) E). lia.
    + unfold Dial. destruct (x_dial x); simpl; congruence.
    + intros E%unlock_panic; [|done]. by rewrite E in Hl.
    + simpl. congruence.
    + simpl. congruence.
    + intros E%msg_send_panic; [|done]. by destruct NI.
    + intros E%msg_send_panic; [|done]. by destruct NI.
  - (* Cleaner *)
    destruct (Cleaner_pc st) eqn:Ek; simpl in *.
    + rewrite sig_recv_safe. congruence.
    + rewrite lock_safe. congruence.
    + intros E%sig_send_panic; [|done]. destruct Nqs; [|done].
      rewrite orb_true_r in Hl. destruct (Keeper_pc st); simpl in *; congruence.
    + intros E%sig_send_panic; [|done]. destruct Nqr; [|done].
      rewrite orb_true_r in Hl. destruct (Keeper_pc st); simpl in *; congruence.
    + intros E%sig_send_panic; [|done]. by destruct Nrec.
    + destruct (conn (c st)); [simpl; congruence | by right].
    + intros E%unlock_panic; [|done]. rewrite E in Hl.
      by rewrite orb_true_r in Hl.
  - (* Sender and Receiver *)
    pose proof (Forall_lookup_1 _ _ _ _ Hw Et) as Hwt.
    destruct t as [| |pc|pc|]; try done; [| |congruence].
    + destruct pc; simpl.
      * destruct (recv_ready _ _), (recv_ready _ _), (x_pick x);
          rewrite ?sig_recv_safe; try congruence.
        all: destruct (chan_recv _ _ _) as [[??]| |]; simpl; congruence.
      * destruct (writer (c st)) eqn:E; [simpl; congruence |].
        intros _. right. by destruct (conn (c st)).
      * destruct (writer (c st)) eqn:E; [simpl; congruence |].
        intros _. right. by destruct (conn (c st)).
    + assert (Hkp : Keeper_pending (Keeper_pc st) = false).
      { pose proof (active_Receivers_pos _ _ _ Et).
        destruct (Keeper_pending (Keeper_pc st)); [simpl in Htok; lia | done]. }
      destruct pc as [| | |msg]; simpl.
      * destruct (reader (c st)) eqn:E.
        -- destruct (x_read x); [destruct (Codec.ParseMessage _)|]; simpl; congruence.
        -- intros _. right. by destruct (conn (c st)).
      * destruct (chan_send _ _ _) eqn:E; simpl; try congruence.
        intros _. apply chan_send_live in E. by destruct NQ.
      * destruct (chan_send _ _ _) eqn:E; simpl; try congruence.
        intros _. apply chan_send_live in E. by destruct NQ.
      * assert (Hpub : panicked (msg_send (S (S n)) (Output (c st)) msg (Receiver R50) st)
                       = true → servers = [] ∨ conn (c st) = None).
        { intros E%msg_send_panic; [|done]. destruct NO; [|done].
          destruct (Keeper_pc st); simpl in *; congruence. }
        destruct (send_ready _ _), (recv_ready _ _), (x_pick x);
          rewrite ?sig_recv_safe; try congruence; done.
Qed.

Lemma conn_stays tid x st :
  conn (c st) ≠ None → conn (c (step tid x st)) ≠ None.
Proof.
  intros H. unfold step. destruct (panicked st); [done |].
  destruct (threads st !! tid) as [[srv pc|pc|pc|pc|]|] eqn:Et; try done.
  all: destruct pc; simpl; unfold_ops; unfold Dial; repeat case_match; simplify_eq/=;
    first [done | congruence].
Qed.

Lemma step_panic_eq tid x st :
  panicked st = false → panicked (step tid x st) = true →
  step tid x st = panic tid st.
Proof.
  intros Hp. unfold step. rewrite Hp.
  destruct (threads st !! tid) as [[srv pc|pc|pc|pc|]|] eqn:Et; try congruence.
  all: destruct pc; simpl; unfold_ops; unfold Dial; repeat case_match; simpl;
    congruence.
Qed.

Lemma step_panic_event tid x st tid' :
  panicked (step tid x st) = false →
  (tid', EvPanic) ∈ trace (step tid x st) → (tid', EvPanic) ∈ trace st.
Proof.
  unfold step. destruct (panicked st) eqn:Hp; [done |].
  destruct (threads st !! tid) as [[srv pc|pc|pc|pc|]|] eqn:Et; try done.
  all: destruct pc; simpl; unfold_ops; unfold Dial; repeat case_match; simpl;
    try done.
  all: intros _ [Hin|Hin%list_elem_of_singleton]%elem_of_app; done.
Qed.

Lemma panic_free_step network servers nick user realname tid x st :
  session_inv network servers nick user realname st →
  panic_free servers st → panic_free servers (step tid x st).
Proof.
  intros Hinv [Hdead Hcause]. destruct (panicked st) eqn:Hp0.
  { unfold step. rewrite Hp0. by split. }
  assert (Hnone : ¬ role_panicked st) by (intros H%Hdead; congruence).
  destruct (panicked (step tid x st)) eqn:Hp.
  - split; [done |]. intros _.
    rewrite (step_panic_eq _ _ _ Hp0 Hp). simpl. rewrite quits_snoc. simpl.
    rewrite Nat.add_0_r.
    destruct (decide (sent (Quit (c st)) (schans st) ≤ quits (trace st))) as [Hu|Hu].
    + destruct (no_panic_step _ _ _ _ _ _ _ _ Hinv Hu Hp0 Hp); auto.
    + right. right. lia.
  - assert (Hnone' : ¬ role_panicked (step tid x st)).
    { intros [tid' H]. apply Hnone. exists tid'. by eapply step_panic_event. }
    split; intros H; by destruct Hnone'.
Qed.

Lemma panic_free_collab servers op st :
  panic_free servers st → panic_free servers (collab_step op st).
Proof.
  intros [Hdead Hcause]. unfold collab_step.
  destruct (panicked st) eqn:Hp0; [by split |].
  assert (Hnone : ¬ role_panicked st) by (intros H%Hdead; congruence).
  destruct op; repeat case_match; split; intros Hrp; by destruct Hnone.
Qed.

Lemma panic_free_play network servers nick user realname acts :
  panic_free servers (play acts (Setup network servers nick user realname)).
Proof.
  pose (P st := session_inv network servers nick user realname st
                ∧ panic_free servers st).
  enough (P (play acts (Setup network servers nick user realname))) as [_ H]; [done |].
  apply play_invariant.
  - intros a st [Hinv Hfree]. split; [by apply session_inv_act |].
    destruct a; simpl; [by eapply panic_free_step | by apply panic_free_collab].
  - split; [apply session_inv_Setup |].
    split; intros [tid H]; by apply elem_of_nil in H.
Qed.

(** ** X7: channels of earlier generations *)

(** X7.  Whatever the roles and the collaborators do, no channel of an
    earlier generation stays open: an open message channel of the store
    is the current [c.Input] or [c.Output], and an open signal channel is
    [c.reconnect], [c.Quit] or the current [c.quitsend] or [c.quitrecv].
    The Keeper closes the four channels of a generation (lines 99 to
    102) before it makes the next ones. *)
Theorem old_generations_are_closed network servers nick user realname acts :
  let st := play acts (Setup network servers nick user realname) in
  (∀ i q, mchans st !! i = Some q → ch_closed q = false →
     Input (c st) = Some i ∨ Output (c st) = Some i)
  ∧ (∀ i q, schans st !! i = Some q → ch_closed q = false →
       reconnect (c st) = Some i ∨ Quit (c st) = Some i
       ∨ quitsend (c st) = Some i ∨ quitrecv (c st) = Some i).
Proof.
  intros st.
  destruct (session_inv_play network servers nick user realname acts)
    as [_ _ _ [_ _ _ _ _ _ _ Hm Hs]].
  fold st in Hm, Hs.
  split; intros i q Hi Hc; [apply Hm | apply Hs]; apply flags_lookup; eauto.
Qed.

Lemma old_generations_are_closed_witness :
  let st := play busy_session freenode in
  ∃ q, mchans st !! 2 = Some q ∧ ch_closed q = false
       ∧ (Input (c st) = Some 2 ∨ Output (c st) = Some 2).
Proof.
  eexists. split; [vm_compute; reflexivity |]. split; [vm_compute; reflexivity |].
  refine (proj1 (old_generations_are_closed "freenode" pool "gorepost" "repost"
                   "Go Repost" busy_session) 2 _ _ _); vm_compute; reflexivity.
Defined.

(** ** X8: the four channels of a generation *)

(** X8.  Whatever the roles and the collaborators do, while the Keeper
    is not closing or making channels (it is outside lines 99 to 107),
    the four channel fields [c.Input], [c.Output], [c.quitsend] and
    [c.quitrecv] are all nil, as before the first cycle, or they refer to
    four open channels, the message channels distinct and the signal
    channels distinct. *)
Theorem channels_open_outside_rebuild network servers nick user realname acts :
  let st := play acts (Setup network servers nick user realname) in
  Keeper_rebuilds (Keeper_pc st) = false →
  all_nil (c st)
  ∨ (all_live st ∧ Input (c st) ≠ Output (c st) ∧ quitsend (c st) ≠ quitrecv (c st)).
Proof.
  intros st Hpc.
  destruct (session_inv_play network servers nick user realname acts)
    as [_ _ _ [G1 G2 G3 G4 G5 G6 G7 _ _]].
  fold st in G1, G2, G3, G4, G5, G6, G7.
  assert (Hlive : all_live st →
    all_live st ∧ Input (c st) ≠ Output (c st) ∧ quitsend (c st) ≠ quitrecv (c st)).
  { intros Hl. split; [done |]. destruct Hl as (L1 & _ & L3 & _).
    unfold live in L1, L3.
    split.
    - destruct (Input (c st)) as [i|] eqn:E; [|done]. intros E'. by apply (G1 i).
    - destruct (quitsend (c st)) as [i|] eqn:E; [|done]. intros E'. by apply (G2 i). }
  destruct (Input_health (Keeper_pc st)) eqn:Eh.
  - right. apply Hlive. unfold all_live.
    destruct (Keeper_pc st); simpl in *; try done.
  - destruct (Keeper_pc st); simpl in *; done.
  - destruct (G7 eq_refl) as [?|?]; [by left | right; by apply Hlive].
Qed.

Lemma channels_open_outside_rebuild_witness :
  let st := play busy_session freenode in
  Keeper_rebuilds (Keeper_pc st) = false
  ∧ (all_nil (c st)
     ∨ (all_live st ∧ Input (c st) ≠ Output (c st) ∧ quitsend (c st) ≠ quitrecv (c st))).
Proof.
  split; [vm_compute; reflexivity |].
  refine (channels_open_outside_rebuild "freenode" pool "gorepost" "repost"
            "Go Repost" busy_session _).
  vm_compute; reflexivity.
Defined.

(** ** X9: no role panics *)

(** A forced reconnect can panic a role: the Keeper closes [c.Output]
    (line 100) under a Receiver that is about to publish on it (line 69). *)
Example forced_reconnect_panics_Receiver :
  let st := play forced_reconnect freenode in
  dialled (trace st) = [7]
  ∧ threads st !! 0 = Some (Keeper pool K101)
  ∧ threads st !! 3 = Some (Receiver (R68 privmsg))
  ∧ panicked st = true
  ∧ last (trace st) = Some (3, EvPanic).
Proof. vm_compute. split_and!; reflexivity. Qed.

(** X9.  With a pool that is not empty, once a dial has succeeded, and
    as long as no collaborator has forced a reconnect (every signal sent
    on [c.Quit] is a Receiver's), none of the four roles panics: no
    [close] of a nil or closed channel, no send on a closed channel, no
    [Unlock] of an unlocked mutex, no use of a nil reader, writer or
    socket, under any schedule, whatever the network answers and
    whatever the collaborators submit and take.  (Before the first
    successful dial the reader, the writer and the socket are nil, and a
    role that uses one of them panics; after a forced reconnect a
    Receiver may send on a closed [c.Output].  The callees that are not
    in irc.go, [Message.String], [ParseMessage] and the libraries, are
    taken to return.) *)
Theorem roles_do_not_panic network servers nick user realname acts :
  let st := play acts (Setup network servers nick user realname) in
  servers ≠ [] → dialled (trace st) ≠ [] → unforced st →
  ∀ tid, (tid, EvPanic) ∉ trace st.
Proof.
  intros st Hs Hd Hu tid Hin.
  destruct (panic_free_play network servers nick user realname acts) as [_ Hcause].
  destruct (sock_inv_play network servers nick user realname acts) as [Hconn _ _ _].
  fold st in Hcause, Hconn.
  destruct Hcause as [?|[Hc|Hf]]; [by exists tid | done | |].
  - rewrite Hc in Hconn. symmetry in Hconn.
    unfold current_socket in Hconn. by apply last_None in Hconn.
  - unfold unforced in Hu. lia.
Qed.

Lemma roles_do_not_panic_witness :
  let st := play busy_session freenode in
  pool ≠ [] ∧ dialled (trace st) ≠ [] ∧ unforced st ∧ (0, EvPanic) ∉ trace st.
Proof.
  split; [done |]. split; [vm_compute; congruence |].
  split; [vm_compute; reflexivity |].
  refine (roles_do_not_panic "freenode" pool "gorepost" "repost" "Go Repost"
            busy_session _ _ _ 0).
  - done.
  - vm_compute. congruence.
  - vm_compute. reflexivity.
Defined.

(** * The stop signals *)

Section pending.
Context {A : Type}.
Implicit Types (σ : list (Chan A)) (r : option nat).

Lemma pending_insert_ne r i σ q : r ≠ Some i → pending r (<[i:=q]> σ) = pending r σ.
Proof.
  intros Hne. unfold pending. destruct r as [j|]; [|done].
  rewrite chan_get_insert_ne; [done | congruence].
Qed.

Lemma pending_insert_eq i σ q q' :
  σ !! i = Some q → pending (Some i) (<[i:=q']> σ) = length (ch_buf q').
Proof. intros Hi. unfold pending. by erewrite chan_get_insert_eq. Qed.

Lemma pending_send r v σ σ' :
  chan_send r v σ = Ok σ' →
  ∀ r', pending r' σ' = pending r' σ + Nat.b2n (bool_decide (r' = r)).
Proof.
  intros (i & ch & -> & Hi & _ & _ & ->)%chan_send_Ok r'.
  case_bool_decide as E; simpl.
  - subst r'. erewrite pending_insert_eq by done. simpl.
    unfold pending. simpl. rewrite Hi, length_app. simpl. lia.
  - rewrite pending_insert_ne by done. lia.
Qed.

Lemma pending_recv_le zero r σ v σ' :
  chan_recv zero r σ = Ok (v, σ') → ∀ r', pending r' σ' ≤ pending r' σ.
Proof.
  intros (i & ch & -> & Hi & [(rest & Hb & ->)|(_ & _ & _ & ->)])%chan_recv_Ok r';
    [|done].
  destruct (decide (r' = Some i)) as [->|E].
  - erewrite pending_insert_eq by done. simpl.
    unfold pending. simpl. rewrite Hi, Hb. simpl. lia.
  - by rewrite pending_insert_ne.
Qed.

Lemma pending_recv_open zero r σ v σ' :
  chan_recv zero r σ = Ok (v, σ') → live r σ →
  ∀ r', pending r' σ' + Nat.b2n (bool_decide (r' = r)) = pending r' σ.
Proof.
  intros (i & ch & -> & Hi & [(rest & Hb & ->)|(_ & Hc & _ & ->)])%chan_recv_Ok
    Hlive r'.
  - case_bool_decide as E; simpl.
    + subst r'. erewrite pending_insert_eq by done. simpl.
      unfold pending. simpl. rewrite Hi, Hb. simpl. lia.
    + rewrite pending_insert_ne by done. lia.
  - unfold live in Hlive. simpl in Hlive.
    apply flags_lookup in Hlive as (q & Hq & Hcq). congruence.
Qed.

Lemma pending_close r σ σ' :
  chan_close r σ = Ok σ' → ∀ r', pending r' σ' = pending r' σ.
Proof.
  intros (i & ch & -> & Hi & _ & ->)%chan_close_Ok r'.
  destruct (decide (r' = Some i)) as [->|E].
  - erewrite pending_insert_eq by done. simpl. unfold pending. simpl. by rewrite Hi.
  - by rewrite pending_insert_ne.
Qed.

Lemma pending_app r σ τ : ref_ok r σ → pending r (σ ++ τ) = pending r σ.
Proof. intros H. unfold pending. by rewrite chan_get_app. Qed.

Lemma pending_new σ n :
  pending (Some (length σ)) (σ ++ [mkChan n [] false []]) = 0.
Proof. unfold pending. by rewrite chan_get_new. Qed.

Lemma pending_nil σ : pending None σ = 0.
Proof. done. Qed.

Lemma sent_insert_ne r i σ q : r ≠ Some i → sent r (<[i:=q]> σ) = sent r σ.
Proof.
  intros Hne. unfold sent. destruct r as [j|]; [|done].
  rewrite chan_get_insert_ne; [done | congruence].
Qed.

Lemma sent_insert_eq i σ q q' :
  σ !! i = Some q → sent (Some i) (<[i:=q']> σ) = length (ch_hist q').
Proof. intros Hi. unfold sent. by erewrite chan_get_insert_eq. Qed.

Lemma sent_send r v σ σ' :
  chan_send r v σ = Ok σ' →
  ∀ r', sent r' σ' = sent r' σ + Nat.b2n (bool_decide (r' = r)).
Proof.
  intros (i & ch & -> & Hi & _ & _ & ->)%chan_send_Ok r'.
  case_bool_decide as E; simpl.
  - subst r'. erewrite sent_insert_eq by done. simpl.
    unfold sent. simpl. rewrite Hi, length_app. simpl. lia.
  - rewrite sent_insert_ne by done. lia.
Qed.

Lemma sent_recv zero r σ v σ' :
  chan_recv zero r σ = Ok (v, σ') → ∀ r', sent r' σ' = sent r' σ.
Proof.
  intros (i & ch & -> & Hi & [(rest & Hb & ->)|(_ & _ & _ & ->)])%chan_recv_Ok r';
    [|done].
  destruct (decide (r' = Some i)) as [->|E].
  - erewrite sent_insert_eq by done. simpl. unfold sent. simpl. by rewrite Hi.
  - by rewrite sent_insert_ne.
Qed.

Lemma sent_close r σ σ' :
  chan_close r σ = Ok σ' → ∀ r', sent r' σ' = sent r' σ.
Proof.
  intros (i & ch & -> & Hi & _ & ->)%chan_close_Ok r'.
  destruct (decide (r' = Some i)) as [->|E].
  - erewrite sent_insert_eq by done. simpl. unfold sent. simpl. by rewrite Hi.
  - by rewrite sent_insert_ne.
Qed.

Lemma sent_app r σ τ : ref_ok r σ → sent r (σ ++ τ) = sent r σ.
Proof. intros H. unfold sent. by rewrite chan_get_app. Qed.
End pending.

Lemma chan_send_not_nil {A} r (v : A) σ σ' : chan_send r v σ = Ok σ' → r ≠ None.
Proof. by intros (i & ch & -> & _)%chan_send_Ok. Qed.

(** What the operation of a step did to the buffers of the signal
    channels of [c0], and to the count of the signals sent on
    [c.Quit]. *)
Ltac pending_effects c0 :=
  repeat match goal with
    | H : @chan_send () ?r ?v ?σ = Ok ?σ' |- _ =>
        pose proof (pending_send _ _ _ _ H (quitsend c0));
        pose proof (pending_send _ _ _ _ H (quitrecv c0));
        pose proof (pending_send _ _ _ _ H (Quit c0));
        pose proof (sent_send _ _ _ _ H (Quit c0));
        pose proof (chan_send_not_nil _ _ _ _ H);
        clear H
    | H : @chan_recv () ?z ?r ?σ = Ok (_, ?σ'), L : live ?r ?σ |- _ =>
        pose proof (pending_recv_open _ _ _ _ _ H L (quitsend c0));
        pose proof (pending_recv_open _ _ _ _ _ H L (quitrecv c0));
        pose proof (pending_recv_open _ _ _ _ _ H L (Quit c0));
        pose proof (sent_recv _ _ _ _ _ H (Quit c0));
        clear H
    | H : @chan_recv () ?z ?r ?σ = Ok (_, ?σ') |- _ =>
        pose proof (pending_recv_le _ _ _ _ _ H (quitsend c0));
        pose proof (pending_recv_le _ _ _ _ _ H (quitrecv c0));
        pose proof (pending_recv_le _ _ _ _ _ H (Quit c0));
        pose proof (sent_recv _ _ _ _ _ H (Quit c0));
        clear H
    | H : @chan_close () ?r ?σ = Ok ?σ' |- _ =>
        pose proof (pending_close _ _ _ H (quitsend c0));
        pose proof (pending_close _ _ _ H (quitrecv c0));
        pose proof (pending_close _ _ _ H (Quit c0));
        pose proof (sent_close _ _ _ H (Quit c0));
        clear H
    end.

Ltac sig_fin c0 :=
  pending_effects c0;
  constructor; simpl; unfold Keeper_pc, Cleaner_pc, workers; simpl;
  rewrite ?drop_0, ?pending_new, ?pending_app, ?sent_app by done;
  try match goal with
      | H : ?ts !! ?n = Some ?t |- context [active_Receivers (<[?n:=?t']> ?ts)] =>
          pose proof (active_Receivers_insert ts n t t' H)
      end;
  rewrite ?active_Receivers_app, ?quits_snoc; simpl in *;
  repeat case_bool_decide; simpl in *;
  first [lia | congruence | tauto].

#[local] Opaque Codec.ParseMessage Codec.MessageString.

Lemma sig_inv_step network servers nick user realname tid x st :
  core_inv network servers nick user realname st → chans_ok st → gen_inv st →
  sig_inv st → sig_inv (step tid x st).
Proof.
  intros Hcore Hok Hgen [Hs Hr].
  pose proof Hcore as
    [Ht Hw _ _ _ _ Hrec HQ (q0 & q1 & srest & Es & Hc0 & Hc1) Hqs Hqr _ _ _ Htok _ _].
  destruct Hgen as [_ G2 _ _ _ _ _ _ _].
  destruct Hok as [_ _ _ _ _ okQ okqs okqr].
  assert (Lrec : live (reconnect (c st)) (schans st)).
  { unfold live. rewrite Hrec, Es. simpl. by rewrite Hc0. }
  assert (LQ : live (Quit (c st)) (schans st)).
  { unfold live. rewrite HQ, Es. simpl. by rewrite Hc1. }
  assert (D1 : quitsend (c st) ≠ reconnect (c st)).
  { rewrite Hrec. intros E. specialize (Hqs _ E). lia. }
  assert (D2 : quitsend (c st) ≠ Quit (c st)).
  { rewrite HQ. intros E. specialize (Hqs _ E). lia. }
  assert (D3 : quitrecv (c st) ≠ reconnect (c st)).
  { rewrite Hrec. intros E. specialize (Hqr _ E). lia. }
  assert (D4 : quitrecv (c st) ≠ Quit (c st)).
  { rewrite HQ. intros E. specialize (Hqr _ E). lia. }
  assert (D5 : Quit (c st) ≠ reconnect (c st)) by (by rewrite HQ, Hrec).
  assert (D6 : quitsend (c st) ≠ None → quitrecv (c st) ≠ quitsend (c st)).
  { destruct (quitsend (c st)) as [i|]; [|done]. intros _. by apply G2. }
  assert (D7 : quitrecv (c st) ≠ None → quitsend (c st) ≠ quitrecv (c st)).
  { intros H E. apply D6; congruence. }
  clear Hrec HQ Es Hqs Hqr G2 Hcore.
  unfold step. destruct (panicked st) eqn:Hp; [done |].
  destruct st as [c0 mch sch thr τ pan]. simpl in *. subst pan.
  unfold Keeper_pc, Cleaner_pc, workers in *. simpl in *.
  destruct thr as [|[srv kpc| | | |] [|[|cpc| | |] rest]]; simplify_eq/=.
  rewrite drop_0 in *.
  assert (Kqs : Nat.b2n (Keeper_made_quitsend kpc) ≤ Nat.b2n (Keeper_pending kpc))
    by (destruct kpc; simpl; lia).
  assert (Kqr : Nat.b2n (Keeper_made_quitrecv kpc) ≤ Nat.b2n (Keeper_pending kpc))
    by (destruct kpc; simpl; lia).
  assert (Cqs : Nat.b2n (Cleaner_before_quitsend cpc) ≤ Nat.b2n (Cleaner_pending cpc))
    by (destruct cpc; simpl; lia).
  assert (Cqr : Nat.b2n (Cleaner_before_quitrecv cpc) ≤ Nat.b2n (Cleaner_pending cpc))
    by (destruct cpc; simpl; lia).
  destruct tid as [|[|n]]; simpl.
  - (* Keeper *)
    destruct kpc; simpl in *; unfold_ops; unfold Dial; simpl.
    all: repeat case_match; simplify_eq/=.
    all: sig_fin c0.
  - (* Cleaner *)
    destruct cpc; simpl in *; unfold_ops; simpl.
    all: repeat case_match; simplify_eq/=.
    all: sig_fin c0.
  - destruct (rest !! n) as [t|] eqn:En; [|sig_fin c0].
    pose proof (Forall_lookup_1 _ _ _ _ Hw En) as Hwt.
    destruct t as [| |pc|pc|]; try done; try (by sig_fin c0).
    + (* Sender *)
      destruct pc; simpl in *; unfold_ops; simpl.
      all: repeat case_match; simplify_eq/=.
      all: sig_fin c0.
    + (* Receiver *)
      destruct pc; simpl in *; unfold_ops; simpl.
      all: repeat case_match; simplify_eq/=.
      all: sig_fin c0.
Qed.

#[local] Transparent Codec.ParseMessage Codec.MessageString.

Lemma sig_inv_collab network servers nick user realname op st :
  core_inv network servers nick user realname st →
  sig_inv st → sig_inv (collab_step op st).
Proof.
  intros Hcore [Hs Hr].
  pose proof Hcore as
    [_ _ _ _ _ _ Hrec HQ (q0 & q1 & srest & Es & Hc0 & Hc1) Hqs Hqr _ _ _ _ _ _].
  assert (D2 : quitsend (c st) ≠ Quit (c st)).
  { rewrite HQ. intros E. specialize (Hqs _ E). lia. }
  assert (D4 : quitrecv (c st) ≠ Quit (c st)).
  { rewrite HQ. intros E. specialize (Hqr _ E). lia. }
  unfold collab_step. destruct (panicked st) eqn:Hp; [done |].
  destruct op as [m| |].
  - by destruct (chan_send _ _ _).
  - by destruct (chan_recv _ _ _) as [[v σ]| |].
  - destruct (chan_send _ _ _) as [σ| |] eqn:E; [|by split..].
    pose proof (pending_send _ _ _ _ E (quitsend (c st))) as E1.
    pose proof (pending_send _ _ _ _ E (quitrecv (c st))) as E2.
    pose proof (pending_send _ _ _ _ E (Quit (c st))) as E3.
    pose proof (sent_send _ _ _ _ E (Quit (c st))) as E4.
    rewrite bool_decide_eq_false_2 in E1, E2 by done.
    rewrite bool_decide_eq_true_2 in E3, E4 by done.
    simpl in E1, E2, E3, E4.
    constructor;
      change (Keeper_pc (set_schans σ st)) with (Keeper_pc st);
      change (Cleaner_pc (set_schans σ st)) with (Cleaner_pc st);
      change (workers (set_schans σ st)) with (workers st);
      simpl; rewrite ?E1, ?E2, ?E3, ?E4.
    + lia.
    + lia.
Qed.

Lemma sig_inv_Setup network servers nick user realname :
  sig_inv (Setup network servers nick user realname).
Proof. constructor; vm_compute; lia. Qed.

(** The invariants of the session, with the stop signals. *)
Lemma sig_inv_play network servers nick user realname acts :
  let st := play acts (Setup network servers nick user realname) in
  session_inv network servers nick user realname st ∧ sig_inv st.
Proof.
  apply (play_invariant
           (λ st, session_inv network servers nick user realname st ∧ sig_inv st)).
  - intros a st [Hinv Hsig]. split; [by apply session_inv_act |].
    destruct Hinv as [H1 H2 H3 H4].
    destruct a; simpl; [by eapply sig_inv_step | by eapply sig_inv_collab].
  - split; [apply session_inv_Setup | apply sig_inv_Setup].
Qed.

(** * Receivers and what they need *)

Lemma Receiver_ready_mono c0 c1 t :
  (Input c0 ≠ None → Input c1 ≠ None) → (conn c0 ≠ None → conn c1 ≠ None) →
  Receiver_ready c0 t → Receiver_ready c1 t.
Proof. destruct t; simpl; try done. intros HI Hc [? [?|?]]; auto. Qed.

Ltac started_fin :=
  constructor; simpl; rewrite ?quits_snoc; simpl; rewrite ?Nat.add_0_r;
  repeat first
    [ done
    | lia
    | apply Forall_insert
    | apply Forall_app; split
    | apply Forall_cons; split
    | apply Forall_nil
    | (eapply Forall_impl; [eassumption |];
       intros ?; apply Receiver_ready_mono; simpl; congruence) ];
  try (simpl; split;
       [first [congruence | eapply live_not_None; eassumption]
       | first [by left | right; congruence]]);
  try match goal with
      | Hx : 0 < ?q → _ |- 0 < ?q → _ =>
          let Hq := fresh in intros Hq; specialize (Hx Hq); congruence
      end;
  try (intros _; congruence).

#[local] Opaque Codec.ParseMessage Codec.MessageString.

Lemma started_inv_step tid x st :
  gen_inv st → sock_inv st →
  (∀ srv pc, threads st !! tid = Some (Keeper srv pc) → pc = Keeper_pc st) →
  started_inv st → started_inv (step tid x st).
Proof.
  intros [_ _ G3 _ _ _ _ _ _] [_ Hrd _ _] Hk [H1 H2 H3].
  assert (Hrd' : reader (c st) ≠ None → conn (c st) ≠ None).
  { rewrite Hrd. by destruct (conn (c st)). }
  clear Hrd. unfold step. destruct (panicked st) eqn:Hp; [done |].
  destruct (threads st !! tid) as [[srv pc|pc|pc|pc|]|] eqn:Et; try done.
  - rewrite <- (Hk _ _ eq_refl) in G3.
    destruct pc; simpl in *; unfold_ops; unfold Dial; repeat case_match;
      simplify_eq/=; started_fin.
  - destruct pc; simpl in *; unfold_ops; repeat case_match;
      simplify_eq/=; started_fin.
  - destruct pc; simpl in *; unfold_ops; repeat case_match;
      simplify_eq/=; started_fin.
  - pose proof (Forall_lookup_1 _ _ _ _ H1 Et) as [HI Hc]. 
    destruct pc; simpl in *; unfold_ops; repeat case_match;
      simplify_eq/=; started_fin.
    all: try (split; [done | right; apply Hrd'; congruence]).
    all: intros _; by destruct Hc.
Qed.

#[local] Transparent Codec.ParseMessage Codec.MessageString.

Lemma started_inv_collab op st : started_inv st → started_inv (collab_step op st).
Proof.
  intros [H1 H2 H3]. unfold collab_step. destruct (panicked st); [done |].
  destruct op; repeat case_match; done.
Qed.

Lemma started_inv_Setup network servers nick user realname :
  started_inv (Setup network servers nick user realname).
Proof.
  constructor; simpl.
  - repeat (apply List.Forall_cons; [done |]). apply List.Forall_nil.
  - intros H. vm_compute in H. lia.
  - intros H. vm_compute in H. lia.
Qed.

(** All the invariants of the session. *)
Record full_inv (network : string) (servers : list string) (nick user realname : string)
    (st : State) : Prop := {
  fu_session : session_inv network servers nick user realname st;
  fu_sig : sig_inv st;
  fu_started : started_inv st
}.

Lemma full_inv_play network servers nick user realname acts :
  full_inv network servers nick user realname
    (play acts (Setup network servers nick user realname)).
Proof.
  apply play_invariant.
  - intros a st [Hinv Hsig Hsta]. split; [by apply session_inv_act | |].
    + destruct Hinv as [H1 H2 H3 H4].
      destruct a; simpl; [by eapply sig_inv_step | by eapply sig_inv_collab].
    + destruct Hinv as [H1 H2 H3 H4].
      destruct a as [tid x|op]; simpl; [|by apply started_inv_collab].
      apply started_inv_step; try done.
      intros srv pc Et. destruct (decide (tid = 0)) as [->|Hne].
      * destruct H1 as [Ht _ _ _ _ _ _ _ _ _ _ _ _ _ _ _ _].
        rewrite Ht in Et. by injection Et.
      * by destruct (core_inv_not_Keeper _ _ _ _ _ _ _ srv pc H1 Hne).
  - split; [apply session_inv_Setup | apply sig_inv_Setup | apply started_inv_Setup].
Qed.

(** * What the stop signals and the lock guarantee *)

Lemma workers_lookup network servers nick user realname st tid t :
  core_inv network servers nick user realname st →
  threads st !! tid = Some t → worker t = true →
  ∃ n, tid = S (S n) ∧ workers st !! n = Some t.
Proof.
  intros [Ht _ _ _ _ _ _ _ _ _ _ _ _ _ _ _ _] Et Hw. rewrite Ht in Et.
  destruct tid as [|[|n]]; simplify_eq/=; try done. by exists n.
Qed.

Lemma recv_not_ready {A} r (σ : list (Chan A)) :
  closed_of r σ ≠ Some true → pending r σ = 0 → recv_ready r σ = false.
Proof.
  unfold recv_ready, pending, closed_of. destruct r as [i|]; simpl; [|done].
  unfold flags. rewrite list_lookup_fmap.
  destruct (σ !! i) as [ch|]; simpl; [|done].
  intros Hc Hb. destruct (ch_closed ch); [done |]. simpl.
  apply length_zero_iff_nil in Hb. by rewrite Hb.
Qed.

Lemma chan_send_room {A} r (v : A) σ :
  live r σ → pending r σ = 0 → Forall chan_ok σ → ∃ σ', chan_send r v σ = Ok σ'.
Proof.
  unfold live, pending, closed_of, chan_send. destruct r as [i|]; simpl; [|done].
  intros (ch & Hi & Hc)%flags_lookup Hb Hok. rewrite Hi in Hb |- *. rewrite Hc.
  destruct (Forall_lookup_1 _ _ _ _ Hok Hi) as [Hcap _].
  rewrite Hb, Hcap. simpl. eauto.
Qed.

(** ** X10: the stop branch of the Receiver *)

(** X10.  As long as no collaborator has forced a reconnect, a Receiver
    that holds a decoded message (line 68) never finds [c.quitrecv]
    ready: the Cleaner sends the stop signal only after the Receiver of
    the generation has raised its failure signal and left.  So the case
    of line 70 is taken only after a forced reconnect, and otherwise the
    Receiver publishes as soon as [c.Output] has room. *)
Theorem Receiver_stops_only_when_forced network servers nick user realname acts :
  let st := play acts (Setup network servers nick user realname) in
  unforced st →
  ∀ tid msg, threads st !! tid = Some (Receiver (R68 msg)) →
  recv_ready (quitrecv (c st)) (schans st) = false.
Proof.
  intros st Hu tid msg Et.
  destruct (full_inv_play network servers nick user realname acts)
    as [[Hcore _ _ Hgen] [_ Hqr] _].
  fold st in Hcore, Hgen, Hqr.
  destruct (workers_lookup _ _ _ _ _ _ _ _ Hcore Et eq_refl) as (n & -> & En).
  pose proof (active_Receivers_pos _ _ _ En) as Hpos.
  pose proof Hcore as [_ _ _ _ _ _ _ _ _ _ _ _ _ _ Htok _ _].
  unfold unforced in Hu.
  destruct (gen_not_closed st Hgen) as (_ & _ & _ & Nqr).
  apply recv_not_ready; [|lia].
  apply Nqr. destruct (Keeper_pc st); simpl in *; try done; lia.
Qed.

Lemma Receiver_stops_only_when_forced_witness :
  let st := play (roles first_connection
                  ++ [Role 3 (mkExt 0 (inr refused) (inl privmsg_line) None true)])
              freenode in
  unforced st
  ∧ threads st !! 3 = Some (Receiver (R68 privmsg))
  ∧ recv_ready (quitrecv (c st)) (schans st) = false.
Proof.
  split; [vm_compute; reflexivity |]. split; [vm_compute; reflexivity |].
  refine (Receiver_stops_only_when_forced "freenode" pool "gorepost" "repost"
            "Go Repost" _ _ 3 privmsg _); vm_compute; reflexivity.
Defined.

(** ** X11: the critical sections *)

Ltac keeper_moved Ht Ek :=
  unfold Keeper_pc, goto, emit, set_c, set_mchans, set_schans, set_threads; simpl;
  rewrite Ht; simpl; by rewrite ?Ek.

Ltac cleaner_moved Ht Ek :=
  unfold Cleaner_pc, goto, emit, set_c, set_mchans, set_schans, set_threads; simpl;
  rewrite Ht; simpl; by rewrite ?Ek.

(** X11.  The lock is never held for ever.  With a pool that is not
    empty, every step of the Keeper between lines 98 and 111 moves it on,
    without waiting and without a panic, whatever the collaborators have
    done: the channels it closes are open, and nothing there waits.  As
    long as no collaborator has forced a reconnect, the same holds of
    every step of the Cleaner between lines 84 and 89: the stop channels
    and [c.reconnect] have room for its signals, and [c.conn] is not
    nil. *)
Theorem critical_sections_complete network servers nick user realname acts :
  let st := play acts (Setup network servers nick user realname) in
  panicked st = false →
  (servers ≠ [] → Keeper_locked (Keeper_pc st) = true →
   ∀ x, let st' := step 0 x st in
        Keeper_pc st' ≠ Keeper_pc st ∧ panicked st' = false)
  ∧ (unforced st → Cleaner_locked (Cleaner_pc st) = true →
     ∀ x, let st' := step 1 x st in
          Cleaner_pc st' ≠ Cleaner_pc st ∧ panicked st' = false).
Proof.
  intros st Hp.
  destruct (full_inv_play network servers nick user realname acts)
    as [[Hcore Hok Hsock Hgen] [Hqs Hqr] [_ Hmade Hconn]].
  fold st in Hcore, Hok, Hsock, Hgen, Hqs, Hqr, Hmade, Hconn.
  pose proof Hcore as [Ht _ _ _ _ _ Hrec HQ (q0 & q1 & srest & Es & Hc0 & Hc1)
                         _ _ Hl Hex _ Htok _ Hcl].
  pose proof Hgen as [_ _ G3 G4 G5 G6 G7 _ _].
  assert (Hlive : Keeper_locked (Keeper_pc st) = false → 0 < quits (trace st) →
            all_live st).
  { intros Hk Hq. specialize (Hmade Hq).
    destruct (Keeper_pc st); simpl in *; try done;
      try (destruct (G7 eq_refl) as [(? & _)|?]; done); by repeat split. }
  split.
  - (* the Keeper *)
    intros Hs Hlock x. unfold step. rewrite Hp, Ht. simpl.
    destruct (Keeper_pc st) eqn:Ek; simpl in *; try done.
    + (* line 98 *)
      destruct (Input (c st)); keeper_moved Ht Ek.
    + destruct (close_up _ _ G3) as [σ E]. unfold msg_close. rewrite E.
      keeper_moved Ht Ek.
    + destruct (close_up _ _ G4) as [σ E]. unfold msg_close. rewrite E.
      keeper_moved Ht Ek.
    + destruct (close_up _ _ G5) as [σ E]. unfold sig_close. rewrite E.
      keeper_moved Ht Ek.
    + destruct (close_up _ _ G6) as [σ E]. unfold sig_close. rewrite E.
      keeper_moved Ht Ek.
    + keeper_moved Ht Ek.
    + keeper_moved Ht Ek.
    + keeper_moved Ht Ek.
    + keeper_moved Ht Ek.
    + (* line 108 *)
      unfold rand_Intn. destruct (Nat.eqb_spec (length servers) 0) as [E|E].
      { by destruct servers. }
      pose proof (Nat.mod_upper_bound (x_rand x) (length servers) E) as Hlt.
      destruct (lookup_lt_is_Some_2 _ _ Hlt) as [s ->]. keeper_moved Ht Ek.
    + unfold Dial. destruct (x_dial x); keeper_moved Ht Ek.
    + unfold unlock. rewrite Hl. simpl. keeper_moved Ht Ek.
  - (* the Cleaner *)
    intros Hu Hlock x. unfold step. rewrite Hp, Ht. simpl.
    unfold unforced in Hu.
    assert (Hk : Keeper_locked (Keeper_pc st) = false).
    { rewrite Hlock in Hex. by rewrite andb_true_r in Hex. }
    destruct Hok as [_ Hcap _ _ _ _ _ _].
    destruct (Cleaner_pc st) eqn:Ek; simpl in *; try done.
    + (* line 84 *)
      destruct (Hlive Hk ltac:(lia)) as (_ & _ & L & _).
      destruct (chan_send_room _ tt _ L ltac:(lia) Hcap) as [σ E].
      unfold sig_send. rewrite E. cleaner_moved Ht Ek.
    + (* line 85 *)
      destruct (Hlive Hk ltac:(lia)) as (_ & _ & _ & L).
      destruct (chan_send_room _ tt _ L ltac:(lia) Hcap) as [σ E].
      unfold sig_send. rewrite E. cleaner_moved Ht Ek.
    + (* line 86 *)
      assert (L : live (reconnect (c st)) (schans st)).
      { unfold live. rewrite Hrec, Es. simpl. by rewrite Hc0. }
      destruct (chan_send_room _ tt _ L ltac:(lia) Hcap) as [σ E].
      unfold sig_send. rewrite E. cleaner_moved Ht Ek.
    + (* line 87 *)
      destruct (conn (c st)) eqn:Ec; [cleaner_moved Ht Ek |].
      by destruct (Hconn ltac:(lia)).
    + (* line 89 *)
      unfold unlock. rewrite Hl, orb_true_r. cleaner_moved Ht Ek.
Qed.

Lemma critical_sections_complete_witness :
  let st := play (roles (first_connection ++ replicate 2 (3, x_down)
                         ++ replicate 3 (1, x_down))) freenode in
  panicked st = false ∧ unforced st ∧ Cleaner_pc st = C85
  ∧ Cleaner_pc (step 1 x_up st) ≠ Cleaner_pc st
  ∧ panicked (step 1 x_up st) = false.
Proof.
  split; [vm_compute; reflexivity |]. split; [vm_compute; reflexivity |].
  split; [vm_compute; reflexivity |].
  refine (proj2 (critical_sections_complete "freenode" pool "gorepost" "repost"
                   "Go Repost" _ _) _ _ x_up); vm_compute; reflexivity.
Defined.

(** * The order of the inbound messages *)

Section history.
Context {A : Type}.
Implicit Types (σ : list (Chan A)) (r : option nat).

Lemma history_insert_ne r i σ q : r ≠ Some i → history r (<[i:=q]> σ) = history r σ.
Proof.
  intros Hne. unfold history. destruct r as [j|]; [|done].
  rewrite chan_get_insert_ne; [done | congruence].
Qed.

Lemma history_insert_eq i σ q q' :
  σ !! i = Some q → history (Some i) (<[i:=q']> σ) = ch_hist q'.
Proof. intros Hi. unfold history. by erewrite chan_get_insert_eq. Qed.

Lemma history_send r v σ σ' :
  chan_send r v σ = Ok σ' →
  ∀ r', history r' σ' = history r' σ ++ (if bool_decide (r' = r) then [v] else []).
Proof.
  intros (i & ch & -> & Hi & _ & _ & ->)%chan_send_Ok r'.
  case_bool_decide as E; simpl.
  - subst r'. erewrite history_insert_eq by done. simpl.
    unfold history. simpl. by rewrite Hi.
  - rewrite history_insert_ne by done. by rewrite app_nil_r.
Qed.

Lemma history_recv zero r σ v σ' :
  chan_recv zero r σ = Ok (v, σ') → ∀ r', history r' σ' = history r' σ.
Proof.
  intros (i & ch & -> & Hi & [(rest & Hb & ->)|(_ & _ & _ & ->)])%chan_recv_Ok r';
    [|done].
  destruct (decide (r' = Some i)) as [->|E].
  - erewrite history_insert_eq by done. simpl. unfold history. simpl. by rewrite Hi.
  - by rewrite history_insert_ne.
Qed.

Lemma history_close r σ σ' :
  chan_close r σ = Ok σ' → ∀ r', history r' σ' = history r' σ.
Proof.
  intros (i & ch & -> & Hi & _ & ->)%chan_close_Ok r'.
  destruct (decide (r' = Some i)) as [->|E].
  - erewrite history_insert_eq by done. simpl. unfold history. simpl. by rewrite Hi.
  - by rewrite history_insert_ne.
Qed.

Lemma history_app r σ τ : ref_ok r σ → history r (σ ++ τ) = history r σ.
Proof. intros H. unfold history. by rewrite chan_get_app. Qed.

Lemma history_new σ n :
  history (Some (length σ)) (σ ++ [mkChan n [] false []]) = [].
Proof. unfold history. by rewrite chan_get_new. Qed.
End history.

Lemma decoded_app tid τ τ' : decoded tid (τ ++ τ') = decoded tid τ ++ decoded tid τ'.
Proof. apply omap_app. Qed.

Lemma decoded_snoc tid τ t e :
  (∀ raw, e ≠ EvRead (inl raw)) → decoded tid (τ ++ [(t, e)]) = decoded tid τ.
Proof.
  intros He. rewrite decoded_app. unfold decoded at 2. simpl.
  destruct e as [| | [raw|]| | | | |]; rewrite ?app_nil_r; try done.
  by destruct (He raw).
Qed.

Lemma decoded_by_others tid evs :
  Forall (λ e : nat * Event, e.1 ≠ tid) evs → decoded tid evs = [].
Proof.
  induction 1 as [|[t e] evs Ht _ IH]; [done |]. unfold decoded in *. simpl in *.
  destruct e as [| | [raw|]| | | | |]; try done.
  by destruct (Nat.eqb_spec t tid).
Qed.

Lemma decoded_other tid tid0 x st :
  tid ≠ tid0 → decoded tid (trace (step tid0 x st)) = decoded tid (trace st).
Proof.
  intros Hne. destruct (step_trace tid0 x st) as (evs & -> & Hevs).
  rewrite decoded_app, (decoded_by_others tid evs), app_nil_r; [done |].
  eapply Forall_impl; [exact Hevs |]. simpl. intros e ->. done.
Qed.

Lemma decoded_new tid τ :
  Forall (λ e : nat * Event, e.1 < tid) τ → decoded tid τ = [].
Proof.
  intros H. apply decoded_by_others. eapply Forall_impl; [exact H |].
  simpl. intros e ?. lia.
Qed.

Lemma active_Receivers_two ts n n' pc pc' :
  ts !! n = Some (Receiver pc) → ts !! n' = Some (Receiver pc') → n ≠ n' →
  2 ≤ active_Receivers ts.
Proof.
  revert n n'. induction ts as [|t ts IH]; intros [|n] [|n'] E E' Hne;
    simplify_eq/=; unfold active_Receivers in *; simpl.
  - pose proof (active_Receivers_pos _ _ _ E'). unfold active_Receivers in *. lia.
  - pose proof (active_Receivers_pos _ _ _ E). unfold active_Receivers in *. lia.
  - assert (n ≠ n') by congruence. specialize (IH _ _ E E' H).
    destruct (is_Receiver t); simpl; lia.
Qed.

Ltac hist_fin D :=
  first
    [ done
    | by eapply history_close
    | by eapply history_recv
    | by apply history_app
    | match goal with
      | H : chan_send ?r _ _ = Ok _ |- _ =>
          rewrite (history_send _ _ _ _ H); rewrite bool_decide_eq_false_2;
          [by rewrite app_nil_r | apply D; by eapply chan_send_not_nil]
      end ].

#[local] Opaque Codec.ParseMessage Codec.MessageString.

(** Only a Receiver that publishes (line 69) and the Keeper that makes
    the channel (line 105) change what [c.Output] has received. *)
Lemma step_history tid x st :
  gen_inv st → chans_ok st →
  (∀ msg, threads st !! tid ≠ Some (Receiver (R68 msg))) →
  (∀ srv, threads st !! tid ≠ Some (Keeper srv K105)) →
  history (Output (c (step tid x st))) (mchans (step tid x st))
  = history (Output (c st)) (mchans st).
Proof.
  intros [G1 _ _ _ _ _ _ _ _] [_ _ _ okO _ _ _ _] HR HK.
  assert (D : Input (c st) ≠ None → Output (c st) ≠ Input (c st)).
  { destruct (Input (c st)) as [i|]; [|done]. intros _. by apply G1. }
  unfold step. destruct (panicked st) eqn:Hp; [done |].
  destruct (threads st !! tid) as [[srv pc|pc|pc|pc|]|] eqn:Et; try done.
  - destruct pc; try (by destruct (HK srv)); simpl; unfold_ops; unfold Dial;
      repeat case_match; simplify_eq/=; hist_fin D.
  - destruct pc; simpl; unfold_ops; repeat case_match; simplify_eq/=; hist_fin D.
  - destruct pc; simpl; unfold_ops; repeat case_match; simplify_eq/=; hist_fin D.
  - destruct pc; try (by edestruct HR); simpl; unfold_ops; repeat case_match;
      simplify_eq/=; hist_fin D.
Qed.

(** Where the Receivers of the next state come from. *)
Lemma step_Receiver tid0 x st tid pc :
  threads (step tid0 x st) !! tid = Some (Receiver pc) →
  (tid ≠ tid0 ∧ threads st !! tid = Some (Receiver pc))
  ∨ (tid = tid0 ∧ ∃ pc0, threads st !! tid0 = Some (Receiver pc0))
  ∨ ((∃ srv, threads st !! tid0 = Some (Keeper srv K114))
     ∧ pc = R50 ∧ tid = length (threads st)).
Proof.
  destruct (decide (tid = tid0)) as [->|Hne].
  - intros HL. right. left. split; [done |]. revert HL.
    unfold step. destruct (panicked st) eqn:Hp; [eauto |].
    destruct (threads st !! tid0) as [t|] eqn:Et;
      [|intros HL; rewrite HL in Et; done].
    assert (Hlt : tid0 < length (threads st)) by by eapply lookup_lt_Some.
    destruct t as [srv pc0|pc0|pc0|pc0|]; [| | |eauto |intros HL; congruence].
    all: destruct pc0; simpl; unfold_ops; unfold Dial; repeat case_match; simpl;
      rewrite ?list_lookup_insert_eq by (rewrite ?length_app; lia);
      congruence.
  - intros HL. destruct (decide (tid < length (threads st))) as [Hlt|Hge].
    { left. split; [done |]. by rewrite <- (step_other_thread tid0 tid x st). }
    right. right. revert HL.
    unfold step. destruct (panicked st) eqn:Hp.
    { intros HL%lookup_lt_Some. lia. }
    destruct (threads st !! tid0) as [t|] eqn:Et;
      [|intros HL%lookup_lt_Some; lia].
    assert (Hlt : tid0 < length (threads st)) by by eapply lookup_lt_Some.
    destruct t as [srv pc0|pc0|pc0|pc0|]; [| | | |intros HL%lookup_lt_Some; lia].
    all: destruct pc0; simpl; unfold_ops; unfold Dial; repeat case_match; simpl;
      rewrite ?list_lookup_insert_ne by done;
      try (intros HL%lookup_lt_Some; lia).
    all: intros [HL|[Hle HL]]%lookup_app_Some; [apply lookup_lt_Some in HL; lia |].
    all: destruct (tid - length (threads st)) as [|k] eqn:Ek; simplify_eq/=.
    split; [by eexists |]. split; [done | lia].
Qed.

Lemma order_tids_step tid x st :
  Forall (λ e : nat * Event, e.1 < length (threads st)) (trace st) →
  Forall (λ e : nat * Event, e.1 < length (threads (step tid x st)))
    (trace (step tid x st)).
Proof.
  intros H. pose proof (step_threads_length tid x st) as Hlen.
  destruct (step_trace tid x st) as (evs & E & Hevs). rewrite E.
  apply Forall_app. split.
  - eapply Forall_impl; [exact H |]. simpl. intros e ?. lia.
  - destruct evs as [|e evs]; [done |].
    assert (tid < length (threads st)) as Hlt.
    { destruct (decide (tid < length (threads st))) as [|Hge]; [done |].
      exfalso. unfold step in E. destruct (panicked st).
      - apply (f_equal length) in E. rewrite length_app in E. simpl in E. lia.
      - rewrite lookup_ge_None_2 in E by lia.
        apply (f_equal length) in E. rewrite length_app in E. simpl in E. lia. }
    eapply Forall_impl; [exact Hevs |]. simpl. intros e' ->. lia.
Qed.

Ltac forced_fin c0 :=
  repeat match goal with
    | H : @chan_send () ?r ?v ?σ = Ok ?σ' |- _ =>
        pose proof (sent_send _ _ _ _ H (Quit c0)); clear H
    | H : @chan_recv () ?z ?r ?σ = Ok (_, ?σ') |- _ =>
        pose proof (sent_recv _ _ _ _ _ H (Quit c0)); clear H
    | H : @chan_close () ?r ?σ = Ok ?σ' |- _ =>
        pose proof (sent_close _ _ _ H (Quit c0)); clear H
    end;
  simpl; rewrite ?sent_app by done; rewrite ?quits_snoc; simpl in *;
  repeat case_bool_decide; simpl in *; first [lia | done].

(** The signals that collaborators have sent on [c.Quit] are never
    taken back. *)
Lemma forced_step tid x st :
  chans_ok st →
  sent (Quit (c st)) (schans st) + quits (trace (step tid x st))
  ≤ sent (Quit (c (step tid x st))) (schans (step tid x st)) + quits (trace st).
Proof.
  intros [_ _ _ _ _ okQ _ _].
  unfold step. destruct (panicked st) eqn:Hp; [lia |].
  destruct st as [c0 mch sch thr τ pan]. simpl in *.
  destruct (thr !! tid) as [[srv pc|pc|pc|pc|]|] eqn:Et; try (simpl; lia).
  all: destruct pc; simpl; unfold_ops; unfold Dial; simpl; repeat case_match;
    simplify_eq/=; forced_fin c0.
Qed.

Lemma forced_collab op st :
  sent (Quit (c st)) (schans st) + quits (trace (collab_step op st))
  ≤ sent (Quit (c (collab_step op st))) (schans (collab_step op st))
    + quits (trace st).
Proof.
  unfold collab_step. destruct (panicked st) eqn:Hp; [lia |].
  destruct st as [c0 mch sch thr τ pan]. simpl in *.
  destruct op; repeat case_match; simplify_eq/=;
    unfold set_mchans, set_schans, crash; forced_fin c0.
Qed.

Lemma unforced_act network servers nick user realname a st :
  core_inv network servers nick user realname st → chans_ok st →
  unforced (act a st) → unforced st.
Proof.
  intros [_ _ _ _ _ _ _ _ _ _ _ _ _ Hsig _ _ _] Hok. unfold unforced.
  destruct a as [tid x|op]; simpl.
  - pose proof (forced_step tid x st Hok). lia.
  - pose proof (forced_collab op st). lia.
Qed.

(** A Receiver's own step. *)
Lemma order_own_step tid0 x st pc0 pc :
  threads st !! tid0 = Some (Receiver pc0) →
  decoded tid0 (trace st) = history (Output (c st)) (mchans st) ++ held pc0 →
  threads (step tid0 x st) !! tid0 = Some (Receiver pc) →
  decoded tid0 (trace (step tid0 x st))
  = history (Output (c (step tid0 x st))) (mchans (step tid0 x st)) ++ held pc.
Proof.
  intros Et IH. unfold step. destruct (panicked st) eqn:Hp.
  { intros E. rewrite Et in E. by injection E as <-. }
  rewrite Et.
  assert (Hlt : tid0 < length (threads st)) by by eapply lookup_lt_Some.
  destruct pc0; simpl in *; unfold_ops; repeat case_match; simpl;
    rewrite ?list_lookup_insert_eq by done;
    rewrite ?decoded_snoc by done;
    try (intros [= <-]; simpl; try done);
    try (rewrite Et; intros [= <-]; simpl; try done).
  all: rewrite ?app_nil_r in *.
  all: try (rewrite decoded_app, IH; unfold decoded; simpl;
            rewrite Nat.eqb_refl;
            match goal with
            | H : Codec.ParseMessage _ = _ |- _ => rewrite H
            end; by rewrite ?app_nil_r).
  all: match goal with
       | H : chan_send _ _ _ = Ok _ |- _ =>
           rewrite (history_send _ _ _ _ H), bool_decide_eq_true_2 by done
       end.
  all: by rewrite IH.
Qed.


Lemma Keeper_lookup network servers nick user realname st tid srv pc :
  core_inv network servers nick user realname st →
  threads st !! tid = Some (Keeper srv pc) → tid = 0 ∧ pc = Keeper_pc st.
Proof.
  intros Hcore Et. destruct (decide (tid = 0)) as [->|Hne].
  - destruct Hcore as [Ht _ _ _ _ _ _ _ _ _ _ _ _ _ _ _ _].
    rewrite Ht in Et. by injection Et.
  - by destruct (core_inv_not_Keeper _ _ _ _ _ _ _ srv pc Hcore Hne).
Qed.

(** Without a forced reconnect: a Receiver is alone, and there is none
    while the Keeper is between lines 97 and 114. *)
Lemma Receiver_alone network servers nick user realname st tid pc :
  core_inv network servers nick user realname st → unforced st →
  threads st !! tid = Some (Receiver pc) →
  Keeper_pending (Keeper_pc st) = false
  ∧ ∀ tid' pc', threads st !! tid' = Some (Receiver pc') → tid' = tid.
Proof.
  intros Hcore Hu Et.
  pose proof Hcore as [_ _ _ _ _ _ _ _ _ _ _ _ _ _ Htok _ _].
  unfold unforced in Hu.
  destruct (workers_lookup _ _ _ _ _ _ _ _ Hcore Et eq_refl) as (n & -> & En).
  pose proof (active_Receivers_pos _ _ _ En) as Hpos.
  split.
  - destruct (Keeper_pending (Keeper_pc st)); [simpl in Htok; lia | done].
  - intros tid' pc' Et'.
    destruct (workers_lookup _ _ _ _ _ _ _ _ Hcore Et' eq_refl) as (n' & -> & En').
    destruct (decide (n' = n)) as [->|Hne]; [done |].
    pose proof (active_Receivers_two _ _ _ _ _ En' En Hne). lia.
Qed.

Lemma Keeper_made_step x st :
  Keeper_made_Output (Keeper_pc (step 0 x st)) = true →
  Keeper_made_Output (Keeper_pc st) = true
  ∨ (∃ srv, threads st !! 0 = Some (Keeper srv K105) ∧ panicked st = false).
Proof.
  rewrite !Keeper_pc_lookup. unfold step. destruct (panicked st) eqn:Hp; [by left |].
  destruct (threads st !! 0) as [[srv pc|pc|pc|pc|]|] eqn:Et; rewrite ?Et; try by left.
  all: assert (Hlt : 0 < length (threads st)) by by eapply lookup_lt_Some.
  all: destruct pc; simpl; unfold_ops; unfold Dial; repeat case_match; simpl in *;
    repeat match goal with
    | H : <[_:=_]> _ !! _ = _ |- _ =>
        rewrite list_lookup_insert_eq in H by (rewrite ?length_app; simpl; lia)
    end;
    simplify_eq/=; eauto.
Qed.

Lemma order_inv_step network servers nick user realname tid0 x st :
  core_inv network servers nick user realname st → chans_ok st → gen_inv st →
  order_inv st → order_inv (step tid0 x st).
Proof.
  intros Hcore Hok Hgen [Htids Hord Hfresh].
  assert (Hback : unforced (step tid0 x st) → unforced st).
  { apply (unforced_act _ _ _ _ _ (Role tid0 x) st Hcore Hok). }
  constructor.
  - by apply order_tids_step.
  - intros Hu tid pc Etid. apply Hback in Hu.
    specialize (Hord Hu). specialize (Hfresh Hu).
    destruct (step_Receiver _ _ _ _ _ Etid)
      as [(Hne & E)|[(-> & pc0 & E0)|((srv & EK) & -> & ->)]].
    + (* another thread has moved *)
      destruct (Receiver_alone _ _ _ _ _ _ _ _ Hcore Hu E) as [Hkp Halone].
      rewrite decoded_other by done. rewrite step_history; [by apply Hord | done.. | |].
      * intros msg E0. by destruct Hne; rewrite (Halone _ _ E0).
      * intros srv E0. destruct (Keeper_lookup _ _ _ _ _ _ _ _ _ Hcore E0) as [_ Ek].
        by rewrite <- Ek in Hkp.
    + (* the Receiver has moved *)
      eapply order_own_step; [done | by apply Hord | done].
    + (* the Keeper has started the Receiver *)
      destruct (Keeper_lookup _ _ _ _ _ _ _ _ _ Hcore EK) as [-> Ek].
      assert (Hlt : 0 < length (threads st)) by by eapply lookup_lt_Some.
      rewrite decoded_other by lia. rewrite (decoded_new _ _ Htids).
      rewrite step_history; [|done | done | by rewrite EK | by rewrite EK].
      rewrite Hfresh; [done | by rewrite <- Ek].
  - intros Hu Hmade. apply Hback in Hu.
    specialize (Hord Hu). specialize (Hfresh Hu).
    destruct (decide (tid0 = 0)) as [->|Hne].
    + destruct (Keeper_made_step _ _ Hmade) as [Hm|(srv & EK & Hp)].
      * rewrite step_history; [by apply Hfresh | done | done | |].
        -- intros msg E0.
           destruct Hcore as [Ht _ _ _ _ _ _ _ _ _ _ _ _ _ _ _ _].
           by rewrite Ht in E0.
        -- intros srv E0.
           destruct (Keeper_lookup _ _ _ _ _ _ _ _ _ Hcore E0) as [_ Ek].
           by rewrite <- Ek in Hm.
      * unfold step. rewrite Hp, EK. simpl. apply history_new.
    + rewrite step_Keeper_pc in Hmade by done.
      rewrite step_history; [by apply Hfresh | done | done | |].
      * intros msg E0.
        destruct (Receiver_alone _ _ _ _ _ _ _ _ Hcore Hu E0) as [Hkp _].
        destruct (Keeper_pc st); simpl in *; congruence.
      * intros srv E0. by destruct (core_inv_not_Keeper _ _ _ _ _ _ _ srv K105 Hcore Hne).
Qed.

Lemma order_inv_collab network servers nick user realname op st :
  core_inv network servers nick user realname st → gen_inv st →
  order_inv st → order_inv (collab_step op st).
Proof.
  intros Hcore [G1 _ _ _ _ _ _ _ _] [Htids Hord Hfresh].
  pose proof Hcore as [_ _ _ _ _ _ _ _ _ _ _ _ _ Hsig _ _ _].
  assert (D : Input (c st) ≠ None → Output (c st) ≠ Input (c st)).
  { destruct (Input (c st)) as [i|]; [|done]. intros _. by apply G1. }
  unfold collab_step. destruct (panicked st) eqn:Hp; [done |].
  destruct op as [m| |].
  - (* c.Input <- m *)
    destruct (chan_send _ _ _) as [σ| |] eqn:E; [|done..].
    assert (Hh : history (Output (c st)) σ = history (Output (c st)) (mchans st)).
    { rewrite (history_send _ _ _ _ E), bool_decide_eq_false_2, app_nil_r; [done |].
      apply D. by eapply chan_send_not_nil. }
    constructor; simpl; rewrite ?Hh; done.
  - (* <-c.Output *)
    destruct (chan_recv _ _ _) as [[v σ]| |] eqn:E; [|done..].
    pose proof (history_recv _ _ _ _ _ E (Output (c st))) as Hh.
    constructor; simpl; rewrite ?Hh; done.
  - (* c.Quit <- struct{}{} *)
    destruct (chan_send _ _ _) as [σ| |] eqn:E; [|done..].
    pose proof (sent_send _ _ _ _ E (Quit (c st))) as Hs.
    rewrite bool_decide_eq_true_2 in Hs by done. simpl in Hs.
    constructor; simpl; [done | |]; unfold unforced; simpl; intros; lia.
Qed.

#[local] Transparent Codec.ParseMessage Codec.MessageString.

Lemma order_inv_Setup network servers nick user realname :
  order_inv (Setup network servers nick user realname).
Proof. constructor; simpl; [done | by intros _ [|[|tid]] pc | done]. Qed.

Lemma order_inv_play network servers nick user realname acts :
  order_inv (play acts (Setup network servers nick user realname)).
Proof.
  pose (P st := session_inv network servers nick user realname st ∧ order_inv st).
  enough (P (play acts (Setup network servers nick user realname))) as [_ H]; [done |].
  apply play_invariant.
  - intros a st [Hinv Hord]. split; [by apply session_inv_act |].
    destruct Hinv as [H1 H2 H3 H4].
    destruct a; simpl; [by eapply order_inv_step | by eapply order_inv_collab].
  - split; [apply session_inv_Setup | apply order_inv_Setup].
Qed.

(** ** X12: inbound messages in the order of arrival *)

(** X12.  As long as no collaborator has forced a reconnect, the
    current [c.Output] has received exactly the messages that the
    Receiver of the generation has decoded from the lines it has read,
    in the order of arrival, none lost, none twice, and nothing else:
    what the Receiver has decoded is what the channel has received,
    followed by the message the Receiver holds at line 68, if it holds
    one.  There is one such Receiver at most. *)
Theorem Receiver_publishes_in_order network servers nick user realname acts :
  let st := play acts (Setup network servers nick user realname) in
  unforced st →
  ∀ tid pc, threads st !! tid = Some (Receiver pc) →
  decoded tid (trace st) = history (Output (c st)) (mchans st) ++ held pc
  ∧ ∀ tid' pc', threads st !! tid' = Some (Receiver pc') → tid' = tid.
Proof.
  intros st Hu tid pc Et.
  destruct (order_inv_play network servers nick user realname acts) as [_ Hord _].
  destruct (session_inv_play network servers nick user realname acts)
    as [Hcore _ _ _].
  fold st in Hord, Hcore. split; [by apply Hord |].
  by destruct (Receiver_alone _ _ _ _ _ _ _ _ Hcore Hu Et).
Qed.

Lemma Receiver_publishes_in_order_witness :
  let st := play inbound_traffic freenode in
  unforced st
  ∧ threads st !! 3 = Some (Receiver (R68 privmsg))
  ∧ history (Output (c st)) (mchans st) = [ping]
  ∧ decoded 3 (trace st) = [ping; privmsg]
  ∧ (decoded 3 (trace st) = history (Output (c st)) (mchans st) ++ held (R68 privmsg)
     ∧ ∀ tid' pc', threads st !! tid' = Some (Receiver pc') → tid' = 3).
Proof.
  split; [vm_compute; reflexivity |]. split; [vm_compute; reflexivity |].
  split; [vm_compute; reflexivity |]. split; [vm_compute; reflexivity |].
  apply (Receiver_publishes_in_order "freenode" pool "gorepost" "repost"
           "Go Repost" inbound_traffic); vm_compute; reflexivity.
Defined.
